(** * Kiosk video switcher: playback / state-transition core of [main.py]

    A shallow embedding of the main loop of the RFID video kiosk
    ([main.py]): the tag-event poll, the video (re)load decision, the
    per-frame fade-in blend and the soundtrack volume state machine.

    Modelling conventions.
    - Python [int] is [Z]; a Python [float] is the rational [Q] it
      denotes, and [int(x)] is truncation toward zero.  Float sums,
      differences and quotients are taken exactly: the machine's results
      differ from them by rounding, a few parts in 2^53 of a volume, a
      blend factor or a time.  The one float product whose integer part
      is kept, the fade-in frame budget, is rounded to the nearest double
      as the machine does ([Double.mul]); overflow to infinity is left
      out.
    - Paths are [string]; the never-loaded path is the empty string, as in
      the source.
    - [valid_tag_video_map] is a dict that the source both looks up by key
      and scans in insertion order; it is an association list.
    - Globals and locals of [main] are fields of one state record that is
      passed explicitly; what the outside world answers (does the file
      open, does [cap.read()] deliver a frame, which key was pressed) is
      an [Oracle] argument of the iteration.
    - A Python exception is a [Raise] result; [continue] is a [Continue]
      flow. *)

From Stdlib Require Import ZArith QArith Qminmax Qround Qabs Qpower.
From Stdlib Require Import Bool List String Lia Lqa Sorted.
Import ListNotations.

Local Open Scope Z_scope.

(** ** Numbers *)

Module Num.

(** [x < y] and [x <= y] on floats, as booleans. *)
Definition ltb (x y : Q) : bool := negb (Qle_bool y x).
Definition leb (x y : Q) : bool := Qle_bool x y.
Definition eqb (x y : Q) : bool := Qeq_bool x y.

(** Python's [int(x)] on a float: truncation toward zero. *)
Definition int (x : Q) : Z := Z.quot (Qnum x) (Zpos (Qden x)).

(** Python's [round(x)] (one argument): nearest integer, ties to even. *)
Definition round (x : Q) : Z :=
  let f := Qfloor x in
  let r := (x - inject_Z f)%Q in
  if ltb r (1 # 2) then f
  else if ltb (1 # 2) r then f + 1
  else if Z.even f then f else f + 1.

End Num.

(** ** Doubles

    Python's [float] is IEEE 754 binary64: 53 significant bits, the
    smallest quantum [2 ^ -1074], round to nearest with ties to the even
    significand.  [Double.round x] is the double nearest to [x];
    [Double.mul] is the float product [x * y] of the doubles nearest to
    [x] and [y]. *)

Module Double.

(** [floor (log2 (n / d))] for positive [n] and [d]. *)
Definition log2_floor (n d : Z) : Z :=
  let k := Z.log2 n - Z.log2 d in
  if d * 2 ^ Z.max k 0 <=? n * 2 ^ Z.max (- k) 0 then k else k - 1.

(** [x * 2 ^ k], exactly. *)
Definition scale (x : Q) (k : Z) : Q :=
  if 0 <=? k then (x * inject_Z (2 ^ k))%Q else (x / inject_Z (2 ^ (- k)))%Q.

(** The exponent of the last significant bit of the doubles around a
    positive [x]: 52 binary places below its leading bit, and never below
    the subnormal quantum. *)
Definition quantum (x : Q) : Z :=
  Z.max (log2_floor (Qnum x) (Zpos (Qden x)) - 52) (-1074).

(** The nearest multiple of the quantum, ties to the even multiple. *)
Definition round_pos (x : Q) : Q :=
  let q := quantum x in
  scale (inject_Z (Num.round (scale x (- q)))) q.

Definition round (x : Q) : Q :=
  let r := Qred x in
  if Num.ltb 0 r then Qred (round_pos r)
  else if Num.ltb r 0 then Qred (- round_pos (- r))
  else 0%Q.

Definition mul (x y : Q) : Q := round (round x * round y).

(** The finite doubles: a significand of 53 bits times a power of two
    between the subnormal quantum and the largest exponent. *)
Definition representable (x : Q) : Prop :=
  exists m k : Z,
    (x == inject_Z m * 2 ^ k)%Q /\ Z.abs m < 2 ^ 53 /\ -1074 <= k <= 971.

End Double.

Arguments Double.round : simpl never.
Arguments Double.mul : simpl never.

(** ** Exceptions and results *)

(** The only exception the modelled code can raise by itself is a float or
    integer division by zero; it carries the source line of the division. *)
Inductive exn : Type :=
| ZeroDivisionError (line : Z).

Inductive result (A : Type) : Type :=
| Ok (a : A)
| Raise (e : exn).
Arguments Ok {A} a.
Arguments Raise {A} e.

(** [x / y] on floats. *)
Definition py_div (line : Z) (x y : Q) : result Q :=
  if Num.eqb y 0 then Raise (ZeroDivisionError line) else Ok (x / y)%Q.

(** ** Soundtrack: the audio fade controller *)

Inductive FadeState : Type := NONE | FADE_IN | PLAYING | FADE_OUT.

Definition FadeState_eqb (a b : FadeState) : bool :=
  match a, b with
  | NONE, NONE | FADE_IN, FADE_IN | PLAYING, PLAYING | FADE_OUT, FADE_OUT => true
  | _, _ => false
  end.

(** A pygame mixer channel: whether it is producing sound, and its volume. *)
Record Channel : Type := mkChannel {
  busy : bool;
  volume : Q
}.

(** The audio globals of [main.py]. [soundtrack] is [true] when the sound
    object was loaded (is not [None]). *)
Record Audio : Type := mkAudio {
  pygame_mixer_initialized : bool;
  soundtrack : bool;
  soundtrack_channel : option Channel;
  current_video_duration_sec : Q;
  audio_fade_state : FadeState
}.

Definition TARGET_SOUNDTRACK_VOLUME : Q := 7 # 10.

(** One call of [soundtrack_channel.set_volume], tagged with the fade state
    in which it was made. *)
Record VolumeWrite : Type := mkWrite {
  written_in : FadeState;
  written_volume : Q
}.

(** State, writer and error monad of the volume-update step. *)
Definition AudioM (A : Type) : Type :=
  Audio -> result (A * Audio * list VolumeWrite).

Definition ret {A} (x : A) : AudioM A := fun a => Ok (x, a, []).

Definition bind {A B} (m : AudioM A) (k : A -> AudioM B) : AudioM B :=
  fun a =>
    match m a with
    | Raise e => Raise e
    | Ok (x, a1, w1) =>
        match k x a1 with
        | Raise e => Raise e
        | Ok (y, a2, w2) => Ok (y, a2, w1 ++ w2)
        end
    end.

Notation "x <- m ;; k" := (bind m (fun x => k))
  (at level 61, m at next level, right associativity).
Notation "m ;;; k" := (bind m (fun _ => k))
  (at level 61, right associativity).

Definition lift {A} (r : result A) : AudioM A :=
  fun a => match r with Ok x => Ok (x, a, []) | Raise e => Raise e end.

Definition get_fade_state : AudioM FadeState :=
  fun a => Ok (audio_fade_state a, a, []).

Definition put_fade_state (st : FadeState) : AudioM unit :=
  fun a => Ok (tt, mkAudio (pygame_mixer_initialized a) (soundtrack a)
                     (soundtrack_channel a) (current_video_duration_sec a) st, []).

Definition get_duration : AudioM Q :=
  fun a => Ok (current_video_duration_sec a, a, []).

(** [soundtrack_channel.get_volume()]; only called behind the busy guard.
    The channel answers with the volume last set: the mixer's own
    granularity of the volume is not modelled. *)
Definition get_volume : AudioM Q :=
  fun a => Ok (match soundtrack_channel a with Some ch => volume ch | None => 0%Q end, a, []).

(** [soundtrack_channel.set_volume(v)]; only called behind the busy guard. *)
Definition set_volume (v : Q) : AudioM unit :=
  fun a =>
    match soundtrack_channel a with
    | Some ch =>
        Ok (tt, mkAudio (pygame_mixer_initialized a) (soundtrack a)
                  (Some (mkChannel (busy ch) v)) (current_video_duration_sec a)
                  (audio_fade_state a),
            [mkWrite (audio_fade_state a) v])
    | None => Ok (tt, a, [])
    end.

(** [pygame_mixer_initialized and soundtrack_channel and
    soundtrack_channel.get_busy()] *)
Definition channel_is_busy (a : Audio) : bool :=
  pygame_mixer_initialized a &&
  match soundtrack_channel a with
  | Some ch => busy ch
  | None => false
  end.

(** The [FADE-IN] block of [manage_soundtrack_volume]. *)
Definition fade_in_block (video_current_time_sec fade_duration_config_sec : Q)
  : AudioM unit :=
  st <- get_fade_state ;;
  if FadeState_eqb st FADE_IN then
    if Num.ltb video_current_time_sec fade_duration_config_sec then
      q <- lift (py_div 289 video_current_time_sec fade_duration_config_sec) ;;
      let volume := (q * TARGET_SOUNDTRACK_VOLUME)%Q in
      set_volume (Qmin volume TARGET_SOUNDTRACK_VOLUME)
    else
      set_volume TARGET_SOUNDTRACK_VOLUME ;;;
      put_fade_state PLAYING
  else ret tt.

(** The [CHECK FOR FADE-OUT START] block. *)
Definition fade_out_start_block (video_current_time_sec fade_out_start_time_video : Q)
  : AudioM unit :=
  st <- get_fade_state ;;
  d <- get_duration ;;
  if FadeState_eqb st PLAYING
     && Num.leb fade_out_start_time_video video_current_time_sec
     && Num.ltb 0 d
  then put_fade_state FADE_OUT
  else ret tt.

(** The [FADE-OUT] block. *)
Definition fade_out_block
  (video_current_time_sec fade_duration_config_sec fade_out_start_time_video : Q)
  : AudioM unit :=
  st <- get_fade_state ;;
  if FadeState_eqb st FADE_OUT then
    let time_into_fade_out_period :=
      (video_current_time_sec - fade_out_start_time_video)%Q in
    if Num.ltb time_into_fade_out_period 0 then
      v <- get_volume ;;
      if Num.ltb v TARGET_SOUNDTRACK_VOLUME
      then set_volume TARGET_SOUNDTRACK_VOLUME
      else ret tt
    else if Num.ltb time_into_fade_out_period fade_duration_config_sec then
      fadeOutProgress <-
        lift (py_div 318 time_into_fade_out_period fade_duration_config_sec) ;;
      let volume := (TARGET_SOUNDTRACK_VOLUME * (1 - fadeOutProgress))%Q in
      set_volume (Qmax 0 volume)
    else
      set_volume 0
  else ret tt.

(** [manage_soundtrack_volume(video_current_time_sec, fade_duration_config_sec)] *)
Definition manage_soundtrack_volume
  (video_current_time_sec fade_duration_config_sec : Q) : AudioM unit :=
  fun a =>
    if negb (channel_is_busy a) then
      put_fade_state NONE a
    else
      (fade_in_block video_current_time_sec fade_duration_config_sec ;;;
       d <- get_duration ;;
       let fade_out_start_time_video := (d - fade_duration_config_sec)%Q in
       fade_out_start_block video_current_time_sec fade_out_start_time_video ;;;
       fade_out_block video_current_time_sec fade_duration_config_sec
         fade_out_start_time_video) a.

(** [soundtrack_channel.stop()] *)
Definition channel_stop (a : Audio) : Audio :=
  mkAudio (pygame_mixer_initialized a) (soundtrack a)
    (match soundtrack_channel a with
     | Some ch => Some (mkChannel false (volume ch))
     | None => None
     end)
    (current_video_duration_sec a) (audio_fade_state a).

(** [stop_soundtrack_immediately()] *)
Definition stop_soundtrack_immediately (a : Audio) : Audio :=
  let a1 := if channel_is_busy a then channel_stop a else a in
  mkAudio (pygame_mixer_initialized a1) (soundtrack a1) (soundtrack_channel a1)
    (current_video_duration_sec a1) NONE.

(** [start_soundtrack_for_video(video_total_frames, video_fps)].
    [play_ok] is whether [soundtrack.play(loops=0)] hands out a channel. *)
Definition start_soundtrack_for_video
  (play_ok : bool) (video_total_frames : Z) (video_fps : Q) (a : Audio) : Audio :=
  if negb (pygame_mixer_initialized a && soundtrack a) then
    mkAudio (pygame_mixer_initialized a) (soundtrack a) (soundtrack_channel a)
      (current_video_duration_sec a) NONE
  else
    let a1 :=
      match soundtrack_channel a with
      | Some ch => if busy ch then channel_stop a else a
      | None => a
      end in
    let duration :=
      if Num.ltb 0 video_fps then (inject_Z video_total_frames / video_fps)%Q
      else 0%Q in
    if play_ok then
      mkAudio (pygame_mixer_initialized a1) (soundtrack a1)
        (Some (mkChannel true 0)) duration FADE_IN
    else
      mkAudio (pygame_mixer_initialized a1) (soundtrack a1) None duration NONE.

(** A run of volume updates within one video segment: each tick carries the
    video time of the call and whether the channel fell silent before it. *)
Record Tick : Type := mkTick {
  tick_time : Q;
  tick_silent : bool
}.

Definition channel_falls_silent (a : Audio) : Audio := channel_stop a.

Fixpoint run_updates (fade_duration_config_sec : Q) (ticks : list Tick)
  : AudioM unit :=
  match ticks with
  | [] => ret tt
  | tk :: rest =>
      fun a =>
        let a0 := if tick_silent tk then channel_falls_silent a else a in
        (manage_soundtrack_volume (tick_time tk) fade_duration_config_sec ;;;
         run_updates fade_duration_config_sec rest) a0
  end.

(** ** The main loop *)

(** What the reader thread puts on [rfid_event_queue]. *)
Inductive TagEvent : Type :=
| TAG_INSERTED (tag : Z)
| TAG_INVALID (tag : Z).

(** A [cv2.VideoCapture] object with the properties the loop reads. *)
Record Capture : Type := mkCapture {
  isOpened : bool;
  CAP_PROP_FPS : Q;
  CAP_PROP_FRAME_WIDTH : Q;
  CAP_PROP_FRAME_HEIGHT : Q;
  CAP_PROP_FRAME_COUNT : Q
}.

(** [cap.release()] *)
Definition release (c : Capture) : Capture :=
  mkCapture false (CAP_PROP_FPS c) (CAP_PROP_FRAME_WIDTH c)
    (CAP_PROP_FRAME_HEIGHT c) (CAP_PROP_FRAME_COUNT c).

(** The fps that [get_video_properties] reports for an open capture:
    [if fps == 0: fps = 25]. *)
Definition reported_fps (c : Capture) : Q :=
  if Num.eqb (CAP_PROP_FPS c) 0 then 25%Q else CAP_PROP_FPS c.

(** [get_video_properties(capture_object)]:
    [(fps, width, height, total_frames)]. *)
Definition get_video_properties (capture_object : option Capture)
  : Q * Z * Z * Z :=
  match capture_object with
  | None => (0%Q, 0, 0, 0)
  | Some c =>
      if negb (isOpened c) then (0%Q, 0, 0, 0)
      else
        let fps := reported_fps c in
        (fps, Num.int (CAP_PROP_FRAME_WIDTH c),
         Num.int (CAP_PROP_FRAME_HEIGHT c), Num.int (CAP_PROP_FRAME_COUNT c))
  end.

(** What is fixed before the loop starts. *)
Record Config : Type := mkConfig {
  idle_video_full_path : string;
  valid_tag_video_map : list (Z * string);
  FADE_DURATION_SECONDS : Q;
  rfid_active : bool
}.

(** The variables of [main] (and the globals it writes). *)
Record MainState : Type := mkState {
  cap : option Capture;
  active_tag_id : option Z;
  current_video_path_playing : string;
  target_video_path : string;
  target_is_idle : bool;
  fps : Q;
  frame_width : Z;
  frame_height : Z;
  fade_in_frames : Z;
  current_playback_frame_count : Z;
  running : bool;
  previous_video_was_content : bool;
  audio : Audio;
  rfid_event_queue : list TagEvent
}.

Definition with_cap (x : option Capture) (s : MainState) : MainState :=
  mkState x (active_tag_id s) (current_video_path_playing s)
    (target_video_path s) (target_is_idle s) (fps s) (frame_width s)
    (frame_height s) (fade_in_frames s) (current_playback_frame_count s)
    (running s) (previous_video_was_content s) (audio s) (rfid_event_queue s).

Definition with_active_tag_id (x : option Z) (s : MainState) : MainState :=
  mkState (cap s) x (current_video_path_playing s)
    (target_video_path s) (target_is_idle s) (fps s) (frame_width s)
    (frame_height s) (fade_in_frames s) (current_playback_frame_count s)
    (running s) (previous_video_was_content s) (audio s) (rfid_event_queue s).

Definition with_current_video_path_playing (x : string) (s : MainState)
  : MainState :=
  mkState (cap s) (active_tag_id s) x
    (target_video_path s) (target_is_idle s) (fps s) (frame_width s)
    (frame_height s) (fade_in_frames s) (current_playback_frame_count s)
    (running s) (previous_video_was_content s) (audio s) (rfid_event_queue s).

(** [target_video_path = p; target_is_idle = b] *)
Definition with_target (p : string) (b : bool) (s : MainState) : MainState :=
  mkState (cap s) (active_tag_id s) (current_video_path_playing s)
    p b (fps s) (frame_width s)
    (frame_height s) (fade_in_frames s) (current_playback_frame_count s)
    (running s) (previous_video_was_content s) (audio s) (rfid_event_queue s).

(** [fps, frame_width, frame_height = f, w, h] *)
Definition with_video_properties (f : Q) (w h : Z) (s : MainState)
  : MainState :=
  mkState (cap s) (active_tag_id s) (current_video_path_playing s)
    (target_video_path s) (target_is_idle s) f w
    h (fade_in_frames s) (current_playback_frame_count s)
    (running s) (previous_video_was_content s) (audio s) (rfid_event_queue s).

Definition with_fade_in_frames (x : Z) (s : MainState) : MainState :=
  mkState (cap s) (active_tag_id s) (current_video_path_playing s)
    (target_video_path s) (target_is_idle s) (fps s) (frame_width s)
    (frame_height s) x (current_playback_frame_count s)
    (running s) (previous_video_was_content s) (audio s) (rfid_event_queue s).

Definition with_current_playback_frame_count (x : Z) (s : MainState)
  : MainState :=
  mkState (cap s) (active_tag_id s) (current_video_path_playing s)
    (target_video_path s) (target_is_idle s) (fps s) (frame_width s)
    (frame_height s) (fade_in_frames s) x
    (running s) (previous_video_was_content s) (audio s) (rfid_event_queue s).

Definition with_running (x : bool) (s : MainState) : MainState :=
  mkState (cap s) (active_tag_id s) (current_video_path_playing s)
    (target_video_path s) (target_is_idle s) (fps s) (frame_width s)
    (frame_height s) (fade_in_frames s) (current_playback_frame_count s)
    x (previous_video_was_content s) (audio s) (rfid_event_queue s).

Definition with_previous_video_was_content (x : bool) (s : MainState)
  : MainState :=
  mkState (cap s) (active_tag_id s) (current_video_path_playing s)
    (target_video_path s) (target_is_idle s) (fps s) (frame_width s)
    (frame_height s) (fade_in_frames s) (current_playback_frame_count s)
    (running s) x (audio s) (rfid_event_queue s).

Definition with_audio (x : Audio) (s : MainState) : MainState :=
  mkState (cap s) (active_tag_id s) (current_video_path_playing s)
    (target_video_path s) (target_is_idle s) (fps s) (frame_width s)
    (frame_height s) (fade_in_frames s) (current_playback_frame_count s)
    (running s) (previous_video_was_content s) x (rfid_event_queue s).

Definition with_rfid_event_queue (x : list TagEvent) (s : MainState)
  : MainState :=
  mkState (cap s) (active_tag_id s) (current_video_path_playing s)
    (target_video_path s) (target_is_idle s) (fps s) (frame_width s)
    (frame_height s) (fade_in_frames s) (current_playback_frame_count s)
    (running s) (previous_video_was_content s) (audio s) x.

(** The answers of the outside world during one iteration. *)
Record Oracle : Type := mkOracle {
  VideoCapture : Capture;  (* what [cv2.VideoCapture(target_video_path)] returns *)
  read_ret : bool;         (* [ret] of [cap.read()] *)
  play_ok : bool;          (* [soundtrack.play] hands out a channel *)
  key_quit : bool          (* [waitKey] saw 'q' or ESC *)
}.

(** How a piece of the loop body ends: it falls through to the next
    statement, executes [continue], or raises. *)
Inductive Flow : Type :=
| Proceed (s : MainState)
| Continue (s : MainState)
| Raised (e : exn).

(** [new_tag_id_int in valid_tag_video_map] / [valid_tag_video_map[key]] *)
Fixpoint map_get (m : list (Z * string)) (key : Z) : option string :=
  match m with
  | [] => None
  | (k, v) :: rest => if Z.eqb k key then Some v else map_get rest key
  end.

(** The [for int_id, path_val in valid_tag_video_map.items()] scan. *)
Fixpoint find_tag_of_path (m : list (Z * string)) (path : string) : option Z :=
  match m with
  | [] => None
  | (int_id, path_val) :: rest =>
      if String.eqb path_val path then Some int_id
      else find_tag_of_path rest path
  end.

(** [new_tag_id_int != active_tag_id], where [active_tag_id] may be [None]. *)
Definition tag_differs (new_tag_id_int : Z) (active : option Z) : bool :=
  match active with
  | Some t => negb (Z.eqb new_tag_id_int t)
  | None => true
  end.

(** The per-frame blend factor, [min(count / fade_in_frames, 1.0)]. *)
Definition blend_alpha (count frames : Z) : result Q :=
  if Z.eqb frames 0 then Raise (ZeroDivisionError 529)
  else Ok (Qmin (inject_Z count / inject_Z frames) 1).

(** The factor applied to the displayed frame: the blend factor while
    [count <= fade_in_frames], and afterwards the frame is shown as it is. *)
Definition frame_alpha (count frames : Z) : result Q :=
  if Z.leb count frames then blend_alpha count frames else Ok 1%Q.

Section MainLoop.

Variable cfg : Config.

(** The state on entry to [while running]. *)
Definition initial_state (mixer_ok soundtrack_loaded : bool) : MainState :=
  mkState None None "" (idle_video_full_path cfg) true
    30%Q 1920 1080
    (Num.int (Double.mul (FADE_DURATION_SECONDS cfg) 30))
    0 true false
    (mkAudio mixer_ok soundtrack_loaded None 0%Q NONE)
    [].

(** [RfidVideoHandler.card_inserted] and [invalid_card], run by the reader
    thread: all they share with the loop is the queue. *)
Definition card_inserted (is_valid : bool) (value : Z) (s : MainState)
  : MainState :=
  with_rfid_event_queue
    (rfid_event_queue s ++
       [if is_valid then TAG_INSERTED value else TAG_INVALID value]) s.

Definition invalid_card (value : Z) (s : MainState) : MainState :=
  with_rfid_event_queue (rfid_event_queue s ++ [TAG_INVALID value]) s.

(** What the loop does with one dequeued event. *)
Definition handle_event (ev : TagEvent) (s : MainState) : MainState :=
  match ev with
  | TAG_INSERTED new_tag_id_int =>
      if tag_differs new_tag_id_int (active_tag_id s) then
        match map_get (valid_tag_video_map cfg) new_tag_id_int with
        | Some path => with_target path false s
        | None => s
        end
      else s
  | TAG_INVALID _ => s
  end.

(** Step 1, [Process RFID Events]: one [get_nowait()]. *)
Definition process_rfid_events (s : MainState) : MainState :=
  if rfid_active cfg then
    match rfid_event_queue s with
    | ev :: rest => handle_event ev (with_rfid_event_queue rest s)
    | [] => s
    end
  else s.

(** The condition that starts a (re)load. *)
Definition needs_load (s : MainState) : bool :=
  negb (String.eqb (current_video_path_playing s) (target_video_path s))
  || match cap s with
     | None => true
     | Some c => negb (isOpened c)
     end.

(** The [if not cap.isOpened()] branch of the load: fall back to idle. *)
Definition load_failed (s : MainState) : MainState :=
  let was_content :=
    negb (String.eqb (current_video_path_playing s) (idle_video_full_path cfg))
    && negb (String.eqb (current_video_path_playing s) "") in
  let s := with_previous_video_was_content was_content s in
  let s := with_target (idle_video_full_path cfg) true s in
  let s := with_active_tag_id None s in
  with_current_video_path_playing "" s.

(** The rest of the load, once the capture is open. *)
Definition load_opened (o : Oracle) (s : MainState) : MainState :=
  let '(new_fps, new_width, new_height, new_total_frames) :=
    get_video_properties (cap s) in
  let effective_fps_for_fade :=
    if Num.ltb 0 new_fps then new_fps else fps s in
  let s := with_fade_in_frames
             (Num.int (Double.mul (FADE_DURATION_SECONDS cfg)
                                  effective_fps_for_fade)) s in
  let is_loading_idle_video :=
    String.eqb (target_video_path s) (idle_video_full_path cfg) in
  let s :=
    if is_loading_idle_video then
      let s :=
        if previous_video_was_content s
        then with_current_playback_frame_count 0 s
        else with_current_playback_frame_count (fade_in_frames s + 1) s in
      with_previous_video_was_content false s
    else
      let s := with_current_playback_frame_count 0 s in
      with_previous_video_was_content true s in
  let s := with_current_video_path_playing (target_video_path s) s in
  let s :=
    if target_is_idle s then
      let s := with_active_tag_id None s in
      with_audio (stop_soundtrack_immediately (audio s)) s
    else
      with_active_tag_id
        (find_tag_of_path (valid_tag_video_map cfg) (target_video_path s)) s in
  if Num.ltb 0 new_fps && Z.ltb 0 new_width && Z.ltb 0 new_height then
    let s :=
      if negb (Num.eqb (fps s) new_fps)
         || negb (Z.eqb (frame_width s) new_width)
         || negb (Z.eqb (frame_height s) new_height)
      then with_video_properties new_fps new_width new_height s
      else s in
    if negb (target_is_idle s) then
      with_audio
        (start_soundtrack_for_video (play_ok o) new_total_frames new_fps
           (audio s)) s
    else s
  else
    let s := with_audio (stop_soundtrack_immediately (audio s)) s in
    if negb is_loading_idle_video
    then with_previous_video_was_content true s
    else s.

(** Step 2, [Manage Video Transitions & Loading]. *)
Definition manage_video_transitions (o : Oracle) (s : MainState) : Flow :=
  if needs_load s then
    let s := with_cap (Some (VideoCapture o)) s in
    if negb (isOpened (VideoCapture o)) then Continue (load_failed s)
    else Proceed (load_opened o s)
  else Proceed s.

(** [cap and cap.isOpened()] *)
Definition cap_is_open (s : MainState) : bool :=
  match cap s with
  | Some c => isOpened c
  | None => false
  end.

(** The [if not ret] branch: end of video or read error. *)
Definition video_ended (s : MainState) : MainState :=
  let s := with_cap (option_map release (cap s)) s in
  let s := with_audio (stop_soundtrack_immediately (audio s)) s in
  let s :=
    match active_tag_id s with
    | Some _ => with_previous_video_was_content true s
    | None => with_previous_video_was_content false s
    end in
  let s := with_target (idle_video_full_path cfg) true s in
  with_active_tag_id None s.

(** A frame was read: count it and drive the soundtrack volume. *)
Definition advance_frame (s : MainState) : Flow :=
  let s := with_current_playback_frame_count
             (current_playback_frame_count s + 1) s in
  if negb (target_is_idle s) && Num.ltb 0 (fps s) then
    let video_time_elapsed_sec :=
      (inject_Z (current_playback_frame_count s) / fps s)%Q in
    match manage_soundtrack_volume video_time_elapsed_sec
            (FADE_DURATION_SECONDS cfg) (audio s) with
    | Ok (_, a, _) => Proceed (with_audio a s)
    | Raise e => Raised e
    end
  else Proceed s.

(** [Video Fade-in logic], display, and [Handle Input & Delay]. *)
Definition show_frame (o : Oracle) (s : MainState) : Flow :=
  match frame_alpha (current_playback_frame_count s) (fade_in_frames s) with
  | Raise e => Raised e
  | Ok _ =>
      if Num.eqb (fps s) 0 then Raised (ZeroDivisionError 538)
      else if key_quit o then Proceed (with_running false s)
      else Proceed s
  end.

(** Step 3 up to the fade logic: the read, the [if not ret] branch, the
    frame count and the volume update. *)
Definition read_and_count (o : Oracle) (s : MainState) : Flow :=
  if negb (read_ret o) then Continue (video_ended s)
  else advance_frame s.

(** Step 3, [Read and Display Frame] (with step 4 inside it); the [else]
    branch only waits. *)
Definition read_and_display_frame (o : Oracle) (s : MainState) : Flow :=
  if cap_is_open s then
    match read_and_count o s with
    | Proceed s => show_frame o s
    | other => other
    end
  else Proceed s.

(** One iteration of [while running]. *)
Definition iteration (o : Oracle) (s : MainState) : Flow :=
  match manage_video_transitions o (process_rfid_events s) with
  | Proceed s => read_and_display_frame o s
  | other => other
  end.

(** [s'] is the state in which iteration [o] from [s] evaluates the
    condition [current_playback_frame_count <= fade_in_frames]. *)
Definition reaches_fade_check (o : Oracle) (s s' : MainState) : Prop :=
  exists s2,
    manage_video_transitions o (process_rfid_events s) = Proceed s2 /\
    cap_is_open s2 = true /\
    read_and_count o s2 = Proceed s'.

(** The state the next iteration starts from, if the loop goes on. *)
Definition next_state (f : Flow) : option MainState :=
  match f with
  | Proceed s | Continue s => if running s then Some s else None
  | Raised _ => None
  end.

(** The states the loop can be in at the top of an iteration, with the
    reader thread enqueuing and the channel running out between
    iterations. *)
Inductive reachable : MainState -> Prop :=
| reach_init (mixer_ok soundtrack_loaded : bool) :
    reachable (initial_state mixer_ok soundtrack_loaded)
| reach_iteration (o : Oracle) (s s' : MainState) :
    reachable s -> next_state (iteration o s) = Some s' -> reachable s'
| reach_card_inserted (is_valid : bool) (value : Z) (s : MainState) :
    reachable s -> reachable (card_inserted is_valid value s)
| reach_invalid_card (value : Z) (s : MainState) :
    reachable s -> reachable (invalid_card value s)
| reach_silent (s : MainState) :
    reachable s ->
    reachable (with_audio (channel_falls_silent (audio s)) s).

End MainLoop.

(** ** The loop invariant *)

(** What holds at the top of every iteration: the fps is positive; the
    frame counter is non-negative or already past the fade budget; and a
    non-negative fade duration gives a non-negative budget. *)
Definition loop_invariant (cfg : Config) (s : MainState) : Prop :=
  (0 < fps s)%Q /\
  (0 <= current_playback_frame_count s
   \/ fade_in_frames s < current_playback_frame_count s) /\
  ((0 <= FADE_DURATION_SECONDS cfg)%Q -> 0 <= fade_in_frames s).

(** ** Observing flows *)

(** The state a flow ends in, if it does not raise. *)
Definition flow_state (f : Flow) : option MainState :=
  match f with
  | Proceed s | Continue s => Some s
  | Raised _ => None
  end.

(** The same flow with the queue of its final state replaced. *)
Definition requeue (q : list TagEvent) (f : Flow) : Flow :=
  match f with
  | Proceed s => Proceed (with_rfid_event_queue q s)
  | Continue s => Continue (with_rfid_event_queue q s)
  | Raised e => Raised e
  end.

(** ** The specification's wording, for comparison with the code *)

(** The fade-in frame budget as the specification words it:
    [round(fade_duration_seconds * effective_fps)]. *)
Definition spec_fade_budget (fade_duration_seconds effective_fps : Q) : Z :=
  Num.round (fade_duration_seconds * effective_fps).

(** The flag after a failed load as the specification words it: "was
    content" if the failed target was not already idle. *)
Definition spec_load_failure_flag (cfg : Config) (s : MainState) : bool :=
  negb (String.eqb (target_video_path s) (idle_video_full_path cfg)).

(** The event poll as the specification words it: a drain of the events
    currently queued, applied in order, so that the last effective decision
    is the one in force when the load step runs. *)
Definition spec_drain_events (cfg : Config) (s : MainState) : MainState :=
  if rfid_active cfg then
    fold_left (fun st ev => handle_event cfg ev st) (rfid_event_queue s)
      (with_rfid_event_queue [] s)
  else s.

(** ** Closed forms of the written volumes *)

(** The volume the [FADE-IN] block writes at video time [t]. *)
Definition fade_in_volume (fade_duration t : Q) : Q :=
  if Num.ltb t fade_duration
  then Qmin (t / fade_duration * TARGET_SOUNDTRACK_VOLUME) TARGET_SOUNDTRACK_VOLUME
  else TARGET_SOUNDTRACK_VOLUME.

(** The volume the [FADE-OUT] block writes at video time [t], when it
    writes, for a video of the given duration. *)
Definition fade_out_volume (fade_duration video_duration t : Q) : Q :=
  let x := (t - (video_duration - fade_duration))%Q in
  if Num.ltb x 0 then TARGET_SOUNDTRACK_VOLUME
  else if Num.ltb x fade_duration
       then Qmax 0 (TARGET_SOUNDTRACK_VOLUME * (1 - x / fade_duration))
       else 0%Q.

(** The volumes of the writes made in fade state [st], in order. *)
Definition volumes_written_in (st : FadeState) (ws : list VolumeWrite) : list Q :=
  map written_volume (filter (fun w => FadeState_eqb (written_in w) st) ws).

(** The writes one volume update can make, in order: at most one by the
    [FADE-IN] block, then at most one by the [FADE-OUT] block. *)
Definition one_update_writes (fd d t : Q) (ws : list VolumeWrite) : Prop :=
  ws = [] \/
  ws = [mkWrite FADE_IN (fade_in_volume fd t)] \/
  ws = [mkWrite FADE_OUT (fade_out_volume fd d t)] \/
  ws = [mkWrite FADE_IN (fade_in_volume fd t);
        mkWrite FADE_OUT (fade_out_volume fd d t)].

(** ** A concrete kiosk, for examples *)

Module Demo.

Definition idle : string := "media/idle.mp4".
Definition video_a : string := "media/a.mp4".
Definition video_b : string := "media/b.mp4".

(** Tags [0x1A2] and [0x2B] are mapped; the fade lasts 1.5 s. *)
Definition cfg : Config :=
  mkConfig idle [(418, video_a); (43, video_b)] (3 # 2) true.

(** A 25 fps, 640x480 clip of 75 frames. *)
Definition clip : Capture := mkCapture true 25 640 480 75.

(** A file that does not open. *)
Definition broken : Capture := mkCapture false 0 0 0 0.

(** The file opens (if a load is attempted) and a frame is read. *)
Definition plays : Oracle := mkOracle clip true true false.

(** The video in the capture has no further frame. *)
Definition ends : Oracle := mkOracle clip false true false.

(** The file does not open. *)
Definition fails : Oracle := mkOracle broken true true false.

Definition start : MainState :=
  Eval vm_compute in initial_state cfg true true.

(** The idle video has been loaded and one frame of it shown. *)
Definition idle_playing : MainState :=
  Eval vm_compute in
  match iteration cfg plays start with
  | Proceed s | Continue s => s
  | Raised _ => start
  end.

(** Tag [0x1A2] was presented, its video loaded and one frame shown. *)
Definition content_playing : MainState :=
  Eval vm_compute in
  match iteration cfg plays (card_inserted true 418 idle_playing) with
  | Proceed s | Continue s => s
  | Raised _ => start
  end.

(** The content video has then run to its end. *)
Definition content_ended : MainState :=
  Eval vm_compute in
  match iteration cfg ends content_playing with
  | Proceed s | Continue s => s
  | Raised _ => start
  end.

(** Two tags presented in quick succession while the idle video plays. *)
Definition burst : MainState :=
  Eval vm_compute in
  card_inserted true 43 (card_inserted true 418 idle_playing).

(** The same kiosk with a fade of 10 ms, shorter than one frame. *)
Definition short_fade_cfg : Config :=
  mkConfig idle [(418, video_a); (43, video_b)] (1 # 100) true.

(** A soundtrack in its fade-in, for a 15 s video. *)
Definition fading_in : Audio :=
  mkAudio true true (Some (mkChannel true 0)) 15 FADE_IN.

Definition ticks : list Tick :=
  [mkTick (1 # 2) false; mkTick 1 false; mkTick (3 # 2) false;
   mkTick (27 # 2) false; mkTick 14 false; mkTick 15 false].

End Demo.

(** ** Closed form of the fade state machine *)

(** How far a soundtrack has come: fading in, playing, fading out, off. *)
Definition fade_rank (st : FadeState) : Z :=
  match st with
  | FADE_IN => 0
  | PLAYING => 1
  | FADE_OUT => 2
  | NONE => 3
  end.

(** The condition of the [CHECK FOR FADE-OUT START] block, apart from the
    state. *)
Definition fade_out_due (fd d t : Q) : bool :=
  Num.leb (d - fd) t && Num.ltb 0 d.

(** The fade state after one volume update on a busy channel. *)
Definition fade_state_after (fd d t : Q) (st : FadeState) : FadeState :=
  match st with
  | NONE => NONE
  | FADE_IN =>
      if Num.ltb t fd then FADE_IN
      else if fade_out_due fd d t then FADE_OUT else PLAYING
  | PLAYING => if fade_out_due fd d t then FADE_OUT else PLAYING
  | FADE_OUT => FADE_OUT
  end.

(** The volume of the channel, if there is one. *)
Definition channel_volume (a : Audio) : option Q :=
  option_map volume (soundtrack_channel a).

(** ** More demo data *)

Module DemoAudio.

(** A soundtrack in its fade-in for a 2 s video: with a fade of 1.5 s the
    fade-in and fade-out windows overlap. *)
Definition short_video : Audio :=
  mkAudio true true (Some (mkChannel true 0)) 2 FADE_IN.

(** A soundtrack fading out, for a 15 s video. *)
Definition fading_out : Audio :=
  mkAudio true true (Some (mkChannel true (7 # 10))) 15 FADE_OUT.

(** A soundtrack started for a video whose duration is unknown (0). *)
Definition unknown_duration : Audio :=
  mkAudio true true (Some (mkChannel true 0)) 0 FADE_IN.

End DemoAudio.

(** ** What stays true of the kiosk *)

(** A path the configuration knows: the idle video or a video of the
    validated map. *)
Definition configured_path (cfg : Config) (p : string) : Prop :=
  p = idle_video_full_path cfg \/
  exists t, In (t, p) (valid_tag_video_map cfg).

(** What holds whenever the reader thread or the loop has taken a step:
    while an idle target is loaded the soundtrack is off and silent; an
    active tag is a tag of the validated map whose video is the one loaded;
    the target is a configured path; and the loaded path is empty or a
    configured path. *)
Definition kiosk_invariant (cfg : Config) (s : MainState) : Prop :=
  (target_is_idle s = true -> cap_is_open s = true ->
   audio_fade_state (audio s) = NONE /\ channel_is_busy (audio s) = false) /\
  (forall t, active_tag_id s = Some t ->
             In (t, current_video_path_playing s) (valid_tag_video_map cfg)) /\
  configured_path cfg (target_video_path s) /\
  (current_video_path_playing s = EmptyString \/
   configured_path cfg (current_video_path_playing s)).

(** What holds at the top of every iteration: an open capture holds the
    target video, and the loop is running. *)
Definition playing_target (s : MainState) : Prop :=
  running s = true /\
  (cap_is_open s = true ->
   current_video_path_playing s = target_video_path s).

(** ** A kiosk without reader *)

Module DemoReader.

(** The demo kiosk when the reader thread did not start. *)
Definition no_reader_cfg : Config :=
  mkConfig Demo.idle [(418, Demo.video_a); (43, Demo.video_b)] (3 # 2) false.

Definition pending : MainState :=
  Eval vm_compute in
  card_inserted true 418 (initial_state no_reader_cfg true true).

End DemoReader.

(** ** Configuration and start-up *)

From Stdlib Require Import Ascii.

(** [d[k] = v] on a dict: an existing key keeps its place, a new key goes
    to the end. *)
Fixpoint dict_set (m : list (Z * string)) (k : Z) (v : string)
  : list (Z * string) :=
  match m with
  | [] => [(k, v)]
  | (k', v') :: rest =>
      if Z.eqb k' k then (k, v) :: rest else (k', v') :: dict_set rest k v
  end.

(** [c.lower()] on an ASCII character; other bytes stay. *)
Definition lower_ascii (c : ascii) : ascii :=
  let n := nat_of_ascii c in
  if (Nat.leb 65 n && Nat.leb n 90)%bool then ascii_of_nat (n + 32) else c.

(** [s.lower()], as far as a comparison with an ASCII literal can tell. *)
Fixpoint lower (s : string) : string :=
  match s with
  | EmptyString => EmptyString
  | String c rest => String (lower_ascii c) (lower rest)
  end.

(** [path.endswith('/')] *)
Fixpoint ends_with_sep (path : string) : bool :=
  match path with
  | EmptyString => false
  | String c EmptyString => Ascii.eqb c "/"%char
  | String _ rest => ends_with_sep rest
  end.

(** [os.path.join(a, b)] of [posixpath]. *)
Definition path_join (a b : string) : string :=
  if String.prefix "/" b then b
  else if (String.eqb a "" || ends_with_sep a)%bool then (a ++ b)%string
  else (a ++ "/" ++ b)%string.

Section Startup.

(** Python's [int(x, 16)]; [None] is [ValueError]. *)
Variable int16 : string -> option Z.

(** [os.path.exists]. *)
Variable path_exists : string -> bool.

(** The [VideoMapping] loop of [load_configuration], over the items of the
    section. *)
Definition parse_tag_video_map (items : list (string * string))
  : list (Z * string) :=
  fold_left
    (fun tag_video_map_int_keys item =>
       let '(key_hex_str, value_video_file) := item in
       if String.eqb (lower key_hex_str) "idle_video"
       then tag_video_map_int_keys
       else
         match int16 key_hex_str with
         | Some tag_id_int =>
             dict_set tag_video_map_int_keys tag_id_int value_video_file
         | None => tag_video_map_int_keys
         end)
    items [].

(** The loop of [main] that builds [valid_tag_video_map]. *)
Definition build_valid_tag_video_map
  (MEDIA_FOLDER : string) (TAG_VIDEO_MAP : list (Z * string))
  : list (Z * string) :=
  fold_left
    (fun valid_tag_video_map entry =>
       let '(tag_id_int, video_filename) := entry in
       let path := path_join MEDIA_FOLDER video_filename in
       if path_exists path
       then dict_set valid_tag_video_map tag_id_int path
       else valid_tag_video_map)
    TAG_VIDEO_MAP [].

(** The part of [main] before the loop: [None] when [main] returns early.
    [thread_alive] is [rfid_thread.is_alive()] after the start (false also
    when starting the thread raised). *)
Definition startup
  (MEDIA_FOLDER IDLE_VIDEO_FILENAME : string)
  (TAG_VIDEO_MAP : list (Z * string)) (FADE : Q)
  (RDM6300_IMPORTED ALLOW_NO_RFID thread_alive : bool) : option Config :=
  let idle_video_full_path := path_join MEDIA_FOLDER IDLE_VIDEO_FILENAME in
  if negb (path_exists idle_video_full_path) then None
  else
    let valid_tag_video_map :=
      build_valid_tag_video_map MEDIA_FOLDER TAG_VIDEO_MAP in
    if RDM6300_IMPORTED then
      Some (mkConfig idle_video_full_path valid_tag_video_map FADE thread_alive)
    else if ALLOW_NO_RFID then
      Some (mkConfig idle_video_full_path valid_tag_video_map FADE false)
    else None.

End Startup.

Module DemoConfig.

(** Hexadecimal keys, as far as the demo needs them. *)
Definition int16 (s : string) : option Z :=
  if String.eqb s "1a2" then Some 418
  else if String.eqb s "01a2" then Some 418
  else if String.eqb s "2b" then Some 43
  else None.

(** Only the idle video and the first content video are on disk. *)
Definition path_exists (p : string) : bool :=
  (String.eqb p "media/idle.mp4" || String.eqb p "media/a.mp4")%bool.

Definition items : list (string * string) :=
  [("idle_video", "idle.mp4"); ("1a2", "a.mp4"); ("xyz", "c.mp4");
   ("2b", "b.mp4")]%string.

Definition tag_video_map : list (Z * string) :=
  Eval vm_compute in parse_tag_video_map int16 items.

End DemoConfig.

(** ** Frame pacing *)

(** The float quotient [1000 / fps] in the argument of [cv2.waitKey],
    step 4. *)
Definition frame_period (fps : Q) : result Q := py_div 538 1000 fps.

(** * Properties *)

(** ** Numbers *)

Module NumFacts.

Lemma ltb_lt (x y : Q) : Num.ltb x y = true <-> (x < y)%Q.
Proof.
  unfold Num.ltb. rewrite negb_true_iff. split; intro H.
  - apply Qnot_le_lt. intro L. apply Qle_bool_iff in L. congruence.
  - destruct (Qle_bool y x) eqn:E; [|reflexivity].
    apply Qle_bool_iff in E. exfalso. exact (Qlt_not_le _ _ H E).
Qed.

Lemma ltb_ge (x y : Q) : Num.ltb x y = false <-> (y <= x)%Q.
Proof.
  unfold Num.ltb. rewrite negb_false_iff. apply Qle_bool_iff.
Qed.

Lemma leb_le (x y : Q) : Num.leb x y = true <-> (x <= y)%Q.
Proof. apply Qle_bool_iff. Qed.

Lemma eqb_eq (x y : Q) : Num.eqb x y = true <-> (x == y)%Q.
Proof. apply Qeq_bool_iff. Qed.

Lemma eqb_neq (x y : Q) : Num.eqb x y = false <-> ~ (x == y)%Q.
Proof.
  split; intro H.
  - intro E. apply eqb_eq in E. congruence.
  - destruct (Num.eqb x y) eqn:E; [|reflexivity].
    apply eqb_eq in E. contradiction.
Qed.

Lemma int_nonneg (x : Q) : (0 <= x)%Q -> 0 <= Num.int x.
Proof.
  unfold Qle, Num.int. simpl. intro H.
  apply Z.quot_pos; lia.
Qed.

(** [int] is the floor of a non-negative float and the ceiling of a
    non-positive one: truncation toward zero. *)
Lemma int_floor (x : Q) : (0 <= x)%Q -> Num.int x = Qfloor x.
Proof.
  destruct x as [n d]. unfold Qle, Num.int, Qfloor. simpl. intro H.
  apply Z.quot_div_nonneg; lia.
Qed.

Lemma int_ceiling (x : Q) : (x <= 0)%Q -> Num.int x = Qceiling x.
Proof.
  destruct x as [n d]. unfold Qle, Num.int, Qceiling, Qfloor. simpl. intro H.
  replace n with (- (- n)) at 1 by lia.
  rewrite Z.quot_opp_l by lia.
  rewrite Z.quot_div_nonneg by lia. reflexivity.
Qed.

(** [int] depends on the value only. *)
Lemma int_value (x y : Q) : (x == y)%Q -> Num.int x = Num.int y.
Proof.
  intro E. destruct (Qlt_le_dec x 0) as [H | H].
  - rewrite !int_ceiling; [now rewrite E | | ];
      [rewrite <- E|]; apply Qlt_le_weak, H.
  - rewrite !int_floor; [now rewrite E | | ]; [rewrite <- E|]; exact H.
Qed.

Lemma div_pos_mono (x y d : Q) : (0 < d)%Q -> (x <= y)%Q -> (x / d <= y / d)%Q.
Proof.
  intros Hd Hxy. unfold Qdiv.
  apply Qmult_le_compat_r; [exact Hxy|].
  apply Qlt_le_weak. apply Qinv_lt_0_compat. exact Hd.
Qed.

Lemma div_nonneg (x d : Q) : (0 <= x)%Q -> (0 < d)%Q -> (0 <= x / d)%Q.
Proof.
  intros Hx Hd. unfold Qdiv.
  apply Qmult_le_0_compat; [exact Hx|].
  apply Qlt_le_weak. apply Qinv_lt_0_compat. exact Hd.
Qed.

End NumFacts.

(** ** Doubles *)

Module DoubleFacts.

Lemma round_int_nonneg (x : Q) : (0 <= x)%Q -> 0 <= Num.round x.
Proof.
  intros Hx. unfold Num.round.
  assert (Hf : 0 <= Qfloor x).
  { change 0 with (Qfloor 0). now apply Qfloor_resp_le. }
  destruct (Num.ltb _ _); [exact Hf|].
  destruct (Num.ltb _ _); [lia|].
  destruct (Z.even _); lia.
Qed.

Lemma scale_nonneg (x : Q) (k : Z) : (0 <= x)%Q -> (0 <= Double.scale x k)%Q.
Proof.
  intros Hx. unfold Double.scale.
  destruct (0 <=? k) eqn:Hk.
  - apply Qmult_le_0_compat; [exact Hx|].
    change 0%Q with (inject_Z 0). rewrite <- Zle_Qle.
    apply Z.pow_nonneg. lia.
  - apply Z.leb_gt in Hk.
    apply Qle_shift_div_l.
    + change 0%Q with (inject_Z 0). rewrite <- Zlt_Qlt.
      apply Z.pow_pos_nonneg; lia.
    + now rewrite Qmult_0_l.
Qed.

Lemma round_pos_nonneg (x : Q) : (0 <= x)%Q -> (0 <= Double.round_pos x)%Q.
Proof.
  intros Hx. unfold Double.round_pos.
  apply scale_nonneg.
  change 0%Q with (inject_Z 0). rewrite <- Zle_Qle.
  apply round_int_nonneg. now apply scale_nonneg.
Qed.

(** Rounding to a double keeps the sign. *)
Lemma round_nonneg (x : Q) : (0 <= x)%Q -> (0 <= Double.round x)%Q.
Proof.
  intros Hx. unfold Double.round.
  assert (Hr : (0 <= Qred x)%Q) by now rewrite Qred_correct.
  destruct (Num.ltb 0 (Qred x)).
  - rewrite Qred_correct. now apply round_pos_nonneg.
  - destruct (Num.ltb (Qred x) 0) eqn:Hneg.
    + unfold Num.ltb in Hneg. apply negb_true_iff in Hneg.
      apply Qle_bool_iff in Hr. congruence.
    + apply Qle_refl.
Qed.

(** The result depends on the value only, not on how the fraction is
    written. *)
Lemma round_value (x y : Q) : (x == y)%Q -> Double.round x = Double.round y.
Proof.
  intros H. unfold Double.round. now rewrite (Qred_complete _ _ H).
Qed.

Lemma mul_value (x x' y y' : Q) :
  (x == x')%Q -> (y == y')%Q -> Double.mul x y = Double.mul x' y'.
Proof.
  intros Hx Hy. unfold Double.mul.
  now rewrite (round_value _ _ Hx), (round_value _ _ Hy).
Qed.

Lemma mul_nonneg (x y : Q) :
  (0 <= x)%Q -> (0 <= y)%Q -> (0 <= Double.mul x y)%Q.
Proof.
  intros Hx Hy. unfold Double.mul.
  apply round_nonneg. apply Qmult_le_0_compat; now apply round_nonneg.
Qed.

Lemma scale_spec (x : Q) (k : Z) : (Double.scale x k == x * 2 ^ k)%Q.
Proof.
  unfold Double.scale. destruct (0 <=? k) eqn:Hk.
  - apply Z.leb_le in Hk. rewrite (Zpower_Qpower 2 k Hk). reflexivity.
  - apply Z.leb_gt in Hk.
    rewrite (Zpower_Qpower 2 (- k)) by lia.
    change (inject_Z 2) with 2%Q.
    rewrite Qpower_opp. unfold Qdiv. rewrite Qinv_involutive. reflexivity.
Qed.

Lemma pow2_pos (k : Z) : (0 < 2 ^ k)%Q.
Proof. apply Qpower_0_lt. reflexivity. Qed.

Lemma pow2_add (j k : Z) : (2 ^ (j + k) == 2 ^ j * 2 ^ k)%Q.
Proof. apply Qpower_plus. discriminate. Qed.

Lemma pow2_inject (k : Z) : 0 <= k -> (inject_Z (2 ^ k) == 2 ^ k)%Q.
Proof. intro H. rewrite (Zpower_Qpower 2 k H). reflexivity. Qed.

(** [round] on floats is within one half of its argument. *)
Lemma round_int_near (y : Q) : (Qabs (inject_Z (Num.round y) - y) <= 1 # 2)%Q.
Proof.
  unfold Num.round.
  pose proof (Qfloor_le y) as Hl. pose proof (Qlt_floor y) as Hu.
  rewrite inject_Z_plus in Hu. change (inject_Z 1) with 1%Q in Hu.
  set (f := Qfloor y) in *.
  apply Qabs_Qle_condition.
  destruct (Num.ltb (y - inject_Z f) (1 # 2)) eqn:E1.
  - apply NumFacts.ltb_lt in E1. split; lra.
  - apply NumFacts.ltb_ge in E1.
    assert (Hup : (- (1 # 2) <= inject_Z (f + 1) - y <= 1 # 2)%Q).
    { rewrite inject_Z_plus. change (inject_Z 1) with 1%Q. split; lra. }
    destruct (Num.ltb (1 # 2) (y - inject_Z f)) eqn:E2; [exact Hup|].
    apply NumFacts.ltb_ge in E2.
    destruct (Z.even f); [split; lra | exact Hup].
Qed.

(** Rounding to a multiple of the quantum moves [x] by at most half a
    quantum. *)
Lemma round_pos_near (x : Q) :
  (Qabs (Double.round_pos x - x) <= (1 # 2) * 2 ^ Double.quantum x)%Q.
Proof.
  unfold Double.round_pos. cbv zeta.
  set (q := Double.quantum x).
  set (y := Double.scale x (- q)).
  assert (Hy : (x == y * 2 ^ q)%Q).
  { unfold y. rewrite scale_spec, <- Qmult_assoc, <- pow2_add.
    replace (- q + q) with 0 by lia. change (2 ^ 0)%Q with 1%Q.
    now rewrite Qmult_1_r. }
  rewrite scale_spec.
  setoid_replace (inject_Z (Num.round y) * 2 ^ q - x)%Q
    with ((inject_Z (Num.round y) - y) * 2 ^ q)%Q
    by (rewrite Hy at 1; ring).
  rewrite Qabs_Qmult.
  rewrite (Qabs_pos (2 ^ q)) by (apply Qlt_le_weak, pow2_pos).
  apply Qmult_le_compat_r; [apply round_int_near|].
  apply Qlt_le_weak, pow2_pos.
Qed.

(** [log2_floor n d] is the exponent of the leading bit of [n / d]. *)
Lemma log2_floor_spec (n d : Z) :
  0 < n -> 0 < d ->
  (2 ^ Double.log2_floor n d <= inject_Z n / inject_Z d
   < 2 ^ (Double.log2_floor n d + 1))%Q.
Proof.
  intros Hn Hd. unfold Double.log2_floor. cbv zeta.
  destruct (Z.log2_spec n Hn) as [Hn1 Hn2].
  destruct (Z.log2_spec d Hd) as [Hd1 Hd2].
  pose proof (Z.log2_nonneg n) as Ha. pose proof (Z.log2_nonneg d) as Hb.
  set (a := Z.log2 n) in *. set (b := Z.log2 d) in *.
  assert (HD : (0 < inject_Z d)%Q)
    by (change 0%Q with (inject_Z 0); now rewrite <- Zlt_Qlt).
  assert (HN : (0 < inject_Z n)%Q)
    by (change 0%Q with (inject_Z 0); now rewrite <- Zlt_Qlt).
  rewrite Zle_Qle, pow2_inject in Hn1 by exact Ha.
  rewrite Zlt_Qlt, pow2_inject in Hn2 by lia.
  rewrite Zle_Qle, pow2_inject in Hd1 by exact Hb.
  rewrite Zlt_Qlt, pow2_inject in Hd2 by lia.
  unfold Z.succ in Hn2, Hd2.
  (* the quotient lies strictly between 2^(k-1) and 2^(k+1) *)
  assert (Hlow : (2 ^ (a - b - 1) * inject_Z d < inject_Z n)%Q).
  { apply (Qlt_le_trans _ (2 ^ a)); [|exact Hn1].
    setoid_replace (2 ^ a)%Q with (2 ^ (a - b - 1) * 2 ^ (b + 1))%Q
      by (rewrite <- pow2_add; now replace (a - b - 1 + (b + 1)) with a by lia).
    apply Qmult_lt_l; [apply pow2_pos | exact Hd2]. }
  assert (Hhigh : (inject_Z n < 2 ^ (a - b + 1) * inject_Z d)%Q).
  { apply (Qlt_le_trans _ (2 ^ (a + 1))); [exact Hn2|].
    setoid_replace (2 ^ (a + 1))%Q with (2 ^ (a - b + 1) * 2 ^ b)%Q
      by (rewrite <- pow2_add; now replace (a - b + 1 + b) with (a + 1) by lia).
    apply Qmult_le_l; [apply pow2_pos | exact Hd1]. }
  (* the test compares the quotient with 2^k *)
  assert (Htest : d * 2 ^ Z.max (a - b) 0 <= n * 2 ^ Z.max (- (a - b)) 0
                  <-> (2 ^ (a - b) * inject_Z d <= inject_Z n)%Q).
  { rewrite Zle_Qle, !inject_Z_mult, !pow2_inject by lia.
    destruct (Z.max_spec (a - b) 0) as [[Hk ->] | [Hk ->]].
    - rewrite Z.max_l by lia. change (2 ^ 0)%Q with 1%Q.
      rewrite Qmult_1_r.
      setoid_replace (inject_Z n)%Q
        with (2 ^ (a - b) * (inject_Z n * 2 ^ (- (a - b))))%Q at 2
        by (rewrite (Qmult_comm (inject_Z n)), Qmult_assoc, <- pow2_add;
            replace (a - b + - (a - b)) with 0 by lia;
            change (2 ^ 0)%Q with 1%Q; ring).
      split; intro H.
      + apply Qmult_le_l; [apply pow2_pos | exact H].
      + apply Qmult_le_l in H; [exact H | apply pow2_pos].
    - rewrite Z.max_r by lia. change (2 ^ 0)%Q with 1%Q.
      rewrite Qmult_1_r.
      setoid_replace (inject_Z d * 2 ^ (a - b))%Q
        with (2 ^ (a - b) * inject_Z d)%Q by apply Qmult_comm.
      reflexivity. }
  destruct (d * 2 ^ Z.max (a - b) 0 <=? n * 2 ^ Z.max (- (a - b)) 0) eqn:E.
  - apply Z.leb_le, Htest in E. split.
    + apply Qle_shift_div_l; [exact HD | exact E].
    + apply Qlt_shift_div_r; [exact HD | exact Hhigh].
  - apply Z.leb_gt in E.
    assert (E' : (inject_Z n < 2 ^ (a - b) * inject_Z d)%Q).
    { apply Qnot_le_lt. intro H. apply Htest in H. lia. }
    replace (a - b - 1 + 1) with (a - b) by lia. split.
    + apply Qle_shift_div_l; [exact HD | apply Qlt_le_weak, Hlow].
    + apply Qlt_shift_div_r; [exact HD | exact E'].
Qed.

(** The quantum of a positive float: at least the subnormal quantum, and
    otherwise 52 places below the leading bit. *)
Lemma quantum_spec (x : Q) :
  (0 < x)%Q ->
  -1074 <= Double.quantum x /\
  (x < 2 ^ (Double.quantum x + 53))%Q /\
  (Double.quantum x = -1074 \/ (2 ^ (Double.quantum x + 52) <= x)%Q).
Proof.
  intro Hx. unfold Double.quantum.
  assert (Hn : 0 < Qnum x) by (destruct x as [n d]; unfold Qlt in Hx; simpl in *; lia).
  destruct (log2_floor_spec (Qnum x) (Zpos (Qden x)) Hn eq_refl) as [Hl Hu].
  rewrite <- Qmake_Qdiv in Hl, Hu.
  assert (Ex : (Qnum x # Qden x == x)%Q) by (destruct x; reflexivity).
  rewrite Ex in Hl, Hu.
  set (e := Double.log2_floor (Qnum x) (Zpos (Qden x))) in *.
  split; [lia|]. split.
  - apply (Qlt_le_trans _ _ _ Hu).
    apply Qpower_le_compat_l; [lia | discriminate].
  - destruct (Z.max_spec (e - 52) (-1074)) as [[H ->] | [H ->]].
    + left. reflexivity.
    + right. replace (e - 52 + 52) with e by lia. exact Hl.
Qed.

(** A positive float is rounded to a double: a significand of at most 53
    bits times a power of two that is at least the subnormal quantum. *)
Lemma round_pos_double (x : Q) :
  (0 < x)%Q ->
  exists m q,
    (Double.round_pos x == inject_Z m * 2 ^ q)%Q /\
    0 <= m <= 2 ^ 53 /\ -1074 <= q.
Proof.
  intro Hx. destruct (quantum_spec x Hx) as (Hq & Hu & _).
  exists (Num.round (Double.scale x (- Double.quantum x))), (Double.quantum x).
  unfold Double.round_pos. cbv zeta. rewrite scale_spec.
  set (q := Double.quantum x) in *.
  set (y := Double.scale x (- q)).
  split; [reflexivity|]. split; [|exact Hq].
  assert (Hy0 : (0 <= y)%Q) by (apply scale_nonneg, Qlt_le_weak, Hx).
  split; [now apply round_int_nonneg|].
  assert (Hy : (y < 2 ^ 53)%Q).
  { unfold y. rewrite scale_spec.
    setoid_replace (2 ^ 53)%Q with (2 ^ (q + 53) * 2 ^ (- q))%Q
      by (rewrite <- pow2_add; now replace (q + 53 + - q) with 53 by lia).
    apply Qmult_lt_r; [apply pow2_pos | exact Hu]. }
  pose proof (round_int_near y) as Hnear.
  apply Qabs_Qle_condition in Hnear.
  assert (Hm : (inject_Z (Num.round y) < inject_Z (2 ^ 53 + 1))%Q).
  { rewrite inject_Z_plus, pow2_inject by lia.
    change (inject_Z 1) with 1%Q. lra. }
  rewrite <- Zlt_Qlt in Hm. lia.
Qed.

(** ... and it moves by at most half a unit in the last place: a relative
    error of 2^-53, or 2^-1075 among the subnormals. *)
Lemma round_pos_error (x : Q) :
  (0 < x)%Q ->
  (Qabs (Double.round_pos x - x) <= Qmax (x * 2 ^ (-53)) (2 ^ (-1075)))%Q.
Proof.
  intro Hx. destruct (quantum_spec x Hx) as (_ & _ & Hl).
  apply (Qle_trans _ _ _ (round_pos_near x)).
  destruct Hl as [-> | Hl].
  - apply (Qle_trans _ (2 ^ (-1075))); [|apply Q.le_max_r].
    setoid_replace (1 # 2)%Q with (2 ^ (-1))%Q by reflexivity.
    rewrite <- pow2_add. apply Qle_refl.
  - apply (Qle_trans _ (x * 2 ^ (-53))); [|apply Q.le_max_l].
    setoid_replace (1 # 2)%Q with (2 ^ (-1))%Q by reflexivity.
    rewrite <- pow2_add.
    replace (-1 + Double.quantum x) with (Double.quantum x + 52 + -53) by lia.
    rewrite pow2_add.
    apply Qmult_le_compat_r; [exact Hl | apply Qlt_le_weak, pow2_pos].
Qed.

Lemma round_int_exact (y : Q) (m : Z) : (y == inject_Z m)%Q -> Num.round y = m.
Proof.
  intro E. unfold Num.round. cbv zeta.
  assert (Hf : Qfloor y = m) by (rewrite E; apply Qfloor_Z).
  rewrite Hf.
  assert (H : Num.ltb (y - inject_Z m) (1 # 2) = true).
  { apply NumFacts.ltb_lt. rewrite E. lra. }
  rewrite H. reflexivity.
Qed.

(** A positive double is rounded to itself. *)
Lemma round_pos_exact (x : Q) (m k : Z) :
  (0 < x)%Q ->
  (x == inject_Z m * 2 ^ k)%Q -> m < 2 ^ 53 -> -1074 <= k ->
  (Double.round_pos x == x)%Q.
Proof.
  intros Hx E Hm Hk. destruct (quantum_spec x Hx) as (_ & _ & Hl).
  assert (Hq : Double.quantum x <= k).
  { destruct Hl as [-> | Hl]; [exact Hk|].
    assert (H : (2 ^ (Double.quantum x + 52) < 2 ^ (k + 53))%Q).
    { apply (Qle_lt_trans _ _ _ Hl). rewrite E, pow2_add, (Qmult_comm (2 ^ k)).
      apply Qmult_lt_r; [apply pow2_pos|].
      rewrite <- pow2_inject by lia. now rewrite <- Zlt_Qlt. }
    apply Qpower_lt_compat_l_inv in H; [lia | reflexivity]. }
  unfold Double.round_pos. cbv zeta.
  set (q := Double.quantum x) in *.
  assert (Ey : (Double.scale x (- q) == inject_Z (m * 2 ^ (k - q)))%Q).
  { rewrite scale_spec, E, inject_Z_mult, pow2_inject by lia.
    rewrite <- Qmult_assoc, <- pow2_add.
    now replace (k + - q) with (k - q) by lia. }
  rewrite (round_int_exact _ _ Ey), scale_spec, inject_Z_mult,
    pow2_inject by lia.
  rewrite E, <- Qmult_assoc, <- pow2_add.
  now replace (k - q + q) with k by lia.
Qed.

Lemma ltb_pos_cases (r : Q) :
  (Num.ltb 0 r = true /\ (0 < r)%Q) \/
  (Num.ltb 0 r = false /\ Num.ltb r 0 = true /\ (r < 0)%Q) \/
  (Num.ltb 0 r = false /\ Num.ltb r 0 = false /\ (r == 0)%Q).
Proof.
  destruct (Num.ltb 0 r) eqn:E1.
  - left. split; [reflexivity | now apply NumFacts.ltb_lt].
  - right. apply NumFacts.ltb_ge in E1.
    destruct (Num.ltb r 0) eqn:E2.
    + left. repeat split. now apply NumFacts.ltb_lt.
    + right. apply NumFacts.ltb_ge in E2. repeat split.
      now apply Qle_antisym.
Qed.

(** Rounding is the identity on the doubles. *)
Lemma round_exact (x : Q) : Double.representable x -> (Double.round x == x)%Q.
Proof.
  intros (m & k & E & Hm & Hk & _). unfold Double.round. cbv zeta.
  assert (Er : (Qred x == inject_Z m * 2 ^ k)%Q) by now rewrite Qred_correct.
  apply (Qeq_trans _ (Qred x)); [|apply Qred_correct].
  set (r := Qred x) in *. clearbody r.
  destruct (ltb_pos_cases r) as [[-> Hr] | [(-> & -> & Hr) | (-> & -> & Hr)]].
  - rewrite Qred_correct.
    apply (round_pos_exact _ m k Hr Er); [lia | exact Hk].
  - rewrite Qred_correct.
    assert (Hr' : (0 < - r)%Q) by lra.
    assert (Er' : (- r == inject_Z (- m) * 2 ^ k)%Q)
      by (rewrite Er, inject_Z_opp; ring).
    rewrite (round_pos_exact _ (- m) k Hr' Er'); [ring | lia | exact Hk].
  - symmetry. exact Hr.
Qed.

(** Rounding moves a float by at most half a unit in the last place. *)
Lemma round_error (x : Q) :
  (Qabs (Double.round x - x) <= Qmax (Qabs x * 2 ^ (-53)) (2 ^ (-1075)))%Q.
Proof.
  unfold Double.round. cbv zeta.
  assert (Ex : (Qred x == x)%Q) by apply Qred_correct.
  set (r := Qred x) in *. clearbody r. rewrite <- Ex. clear Ex x.
  destruct (ltb_pos_cases r) as [[-> Hr] | [(-> & -> & Hr) | (-> & -> & Hr)]].
  - rewrite Qred_correct, (Qabs_pos r) by lra.
    now apply round_pos_error.
  - rewrite Qred_correct, (Qabs_neg r) by lra.
    setoid_replace (- Double.round_pos (- r) - r)%Q
      with (- (Double.round_pos (- r) - - r))%Q by ring.
    rewrite Qabs_opp. apply round_pos_error. lra.
  - rewrite Hr. apply (Qle_trans _ (2 ^ (-1075))); [|apply Q.le_max_r].
    discriminate.
Qed.

(** The float product of two doubles whose exact product is a double is
    that product. *)
Lemma mul_exact (x y : Q) :
  Double.representable x -> Double.representable y ->
  Double.representable (x * y) ->
  (Double.mul x y == x * y)%Q.
Proof.
  intros Hx Hy Hxy. unfold Double.mul.
  assert (E : Double.round (Double.round x * Double.round y)
              = Double.round (x * y)).
  { apply round_value. now rewrite (round_exact x Hx), (round_exact y Hy). }
  rewrite E. now apply round_exact.
Qed.

(** The float product is the exact product of the doubles nearest to the
    factors, up to half a unit in the last place. *)
Lemma mul_error (x y : Q) :
  (Qabs (Double.mul x y - Double.round x * Double.round y)
   <= Qmax (Qabs (Double.round x * Double.round y) * 2 ^ (-53))
           (2 ^ (-1075)))%Q.
Proof. apply round_error. Qed.

(** The decimal 0.1 is read as the double [3602879701896397 / 2^55]. *)
Example round_tenth :
  Double.round (1 # 10) = 3602879701896397 # 36028797018963968.
Proof. vm_compute. reflexivity. Qed.

(** [0.6 * 25] is 15.0 in doubles, although the double nearest to 0.6 is
    below 0.6; [1.16 * 25] is below 29. *)
Example mul_rounds_up : Num.int (Double.mul (6 # 10) 25) = 15.
Proof. vm_compute. reflexivity. Qed.

Example mul_rounds_down : Num.int (Double.mul (116 # 100) 25) = 28.
Proof. vm_compute. reflexivity. Qed.

End DoubleFacts.

(** ** The volume-update step *)

Module AudioFacts.

Lemma target_volume_pos : (0 < TARGET_SOUNDTRACK_VOLUME)%Q.
Proof. reflexivity. Qed.

Lemma fade_in_volume_range (fd t : Q) :
  (0 <= t)%Q ->
  (0 <= fade_in_volume fd t <= TARGET_SOUNDTRACK_VOLUME)%Q.
Proof.
  intro Ht. unfold fade_in_volume.
  destruct (Num.ltb t fd) eqn:E.
  - apply NumFacts.ltb_lt in E.
    assert (Hfd : (0 < fd)%Q) by (eapply Qle_lt_trans; eassumption).
    split.
    + apply Q.min_glb.
      * apply Qmult_le_0_compat.
        -- apply NumFacts.div_nonneg; assumption.
        -- apply Qlt_le_weak, target_volume_pos.
      * apply Qlt_le_weak, target_volume_pos.
    + apply Q.le_min_r.
  - split; [apply Qlt_le_weak, target_volume_pos | apply Qle_refl].
Qed.

Lemma fade_out_volume_range (fd d t : Q) :
  (0 <= fade_out_volume fd d t <= TARGET_SOUNDTRACK_VOLUME)%Q.
Proof.
  unfold fade_out_volume.
  destruct (Num.ltb (t - (d - fd)) 0) eqn:E0.
  - split; [apply Qlt_le_weak, target_volume_pos | apply Qle_refl].
  - destruct (Num.ltb (t - (d - fd)) fd) eqn:E1.
    + apply NumFacts.ltb_ge in E0. apply NumFacts.ltb_lt in E1.
      assert (Hfd : (0 < fd)%Q) by (eapply Qle_lt_trans; eassumption).
      split; [apply Q.le_max_l|].
      apply Q.max_lub; [apply Qlt_le_weak, target_volume_pos|].
      rewrite <- (Qmult_1_r TARGET_SOUNDTRACK_VOLUME) at 2.
      apply Qmult_le_l; [apply target_volume_pos|].
      pose proof (NumFacts.div_nonneg _ _ E0 Hfd) as Hq.
      apply Qle_minus_iff.
      setoid_replace (1 + - (1 - (t - (d - fd)) / fd))%Q
        with ((t - (d - fd)) / fd)%Q by ring.
      exact Hq.
    + split; [apply Qle_refl | apply Qlt_le_weak, target_volume_pos].
Qed.

(** The fade-in volume does not decrease with video time. *)
Lemma fade_in_volume_mono (fd t1 t2 : Q) :
  (0 <= t1)%Q -> (t1 <= t2)%Q ->
  (fade_in_volume fd t1 <= fade_in_volume fd t2)%Q.
Proof.
  intros H0 H12.
  assert (H2 : (0 <= t2)%Q) by (eapply Qle_trans; eassumption).
  unfold fade_in_volume.
  destruct (Num.ltb t2 fd) eqn:E2.
  - apply NumFacts.ltb_lt in E2.
    assert (E1 : Num.ltb t1 fd = true)
      by (apply NumFacts.ltb_lt; eapply Qle_lt_trans; eassumption).
    rewrite E1.
    assert (Hfd : (0 < fd)%Q) by (eapply Qle_lt_trans; eassumption).
    apply Q.min_le_compat_r.
    apply Qmult_le_compat_r; [|apply Qlt_le_weak, target_volume_pos].
    apply NumFacts.div_pos_mono; assumption.
  - destruct (Num.ltb t1 fd); [apply Q.le_min_r | apply Qle_refl].
Qed.

(** The fade-out volume does not increase with video time. *)
Lemma fade_out_volume_anti (fd d t1 t2 : Q) :
  (t1 <= t2)%Q ->
  (fade_out_volume fd d t2 <= fade_out_volume fd d t1)%Q.
Proof.
  intro H12.
  assert (Hx : (t1 - (d - fd) <= t2 - (d - fd))%Q).
  { apply Qplus_le_l. exact H12. }
  pose proof (fade_out_volume_range fd d t2) as [R2l R2u].
  pose proof (fade_out_volume_range fd d t1) as [R1l R1u].
  unfold fade_out_volume in *.
  set (x1 := (t1 - (d - fd))%Q) in *. set (x2 := (t2 - (d - fd))%Q) in *.
  destruct (Num.ltb x1 0) eqn:A1; [exact R2u|].
  apply NumFacts.ltb_ge in A1.
  assert (A2 : Num.ltb x2 0 = false)
    by (apply NumFacts.ltb_ge; apply (Qle_trans _ x1); assumption).
  rewrite A2 in *.
  destruct (Num.ltb x2 fd) eqn:B2.
  - apply NumFacts.ltb_lt in B2.
    assert (B1 : Num.ltb x1 fd = true)
      by (apply NumFacts.ltb_lt; apply (Qle_lt_trans _ x2); assumption).
    rewrite B1 in *.
    assert (Hfd : (0 < fd)%Q).
    { apply (Qle_lt_trans _ x2); [|exact B2].
      apply (Qle_trans _ x1); assumption. }
    apply Q.max_le_compat_l.
    apply Qmult_le_l; [apply target_volume_pos|].
    apply Qplus_le_r. apply Qopp_le_compat.
    apply NumFacts.div_pos_mono; assumption.
  - exact R1l.
Qed.

End AudioFacts.

Module ManageFacts.

Lemma pos_neqb (fd : Q) : (0 < fd)%Q -> Num.eqb fd 0 = false.
Proof.
  intro H. apply NumFacts.eqb_neq. intro E. rewrite E in H.
  exact (Qlt_irrefl _ H).
Qed.

Ltac audio_step :=
  cbv beta iota zeta delta
    [bind fade_in_block fade_out_start_block fade_out_block
     get_fade_state put_fade_state get_duration get_volume set_volume
     ret lift py_div FadeState_eqb andb app
     audio_fade_state soundtrack_channel current_video_duration_sec
     pygame_mixer_initialized soundtrack busy volume].

(** The [FADE-IN] block writes once if the state is [FADE_IN], and not
    otherwise; it keeps the channel and the duration. *)
Lemma fade_in_block_writes (fd t : Q) mi snd ch d st :
  ((fd == 0)%Q -> (0 <= t)%Q) ->
  exists ch' st' ws,
    fade_in_block t fd (mkAudio mi snd (Some ch) d st)
      = Ok (tt, mkAudio mi snd (Some ch') d st', ws) /\
    busy ch' = busy ch /\
    (ws = [] \/ ws = [mkWrite FADE_IN (fade_in_volume fd t)]).
Proof.
  intro Ht. destruct ch as [b v]. unfold fade_in_volume.
  destruct st; audio_step; eauto 8.
  destruct (Num.ltb t fd) eqn:E; audio_step.
  - apply NumFacts.ltb_lt in E.
    assert (N : Num.eqb fd 0 = false).
    { apply NumFacts.eqb_neq. intro Z0. specialize (Ht Z0).
      rewrite Z0 in E. exact (Qlt_not_le _ _ E Ht). }
    rewrite N. audio_step. eauto 8.
  - eauto 8.
Qed.

(** The fade-out check writes nothing. *)
Lemma fade_out_start_block_writes (t start : Q) mi snd ch d st :
  exists st',
    fade_out_start_block t start (mkAudio mi snd (Some ch) d st)
      = Ok (tt, mkAudio mi snd (Some ch) d st', []).
Proof.
  audio_step.
  destruct st; cbv beta iota; eauto.
  destruct (Num.leb start t); cbv beta iota; eauto.
  destruct (Num.ltb 0 d); cbv beta iota; eauto.
Qed.

(** The [FADE-OUT] block writes at most once. *)
Lemma fade_out_block_writes (fd d t : Q) mi snd ch st :
  exists ch' ws,
    fade_out_block t fd (d - fd) (mkAudio mi snd (Some ch) d st)
      = Ok (tt, mkAudio mi snd (Some ch') d st, ws) /\
    busy ch' = busy ch /\
    (ws = [] \/ ws = [mkWrite FADE_OUT (fade_out_volume fd d t)]).
Proof.
  destruct ch as [b v]. unfold fade_out_volume.
  destruct st; audio_step; eauto 8.
  destruct (Num.ltb (t - (d - fd)) 0) eqn:E0; audio_step.
  - destruct (Num.ltb v TARGET_SOUNDTRACK_VOLUME); audio_step; eauto 8.
  - destruct (Num.ltb (t - (d - fd)) fd) eqn:E1; audio_step.
    + apply NumFacts.ltb_ge in E0. apply NumFacts.ltb_lt in E1.
      rewrite pos_neqb by (eapply Qle_lt_trans; [exact E0 | exact E1]).
      audio_step. eauto 8.
    + eauto 8.
Qed.

(** A volume update never raises, unless the fade duration is zero and
    the video time negative; it keeps the duration, and its writes are
    the closed forms. *)
Lemma manage_writes (fd t : Q) (a : Audio) :
  ((fd == 0)%Q -> (0 <= t)%Q) ->
  exists a' ws,
    manage_soundtrack_volume t fd a = Ok (tt, a', ws) /\
    current_video_duration_sec a' = current_video_duration_sec a /\
    one_update_writes fd (current_video_duration_sec a) t ws.
Proof.
  intro Ht. unfold manage_soundtrack_volume, one_update_writes.
  destruct (channel_is_busy a) eqn:B; cbv beta iota delta [negb].
  - destruct a as [mi snd [ch|] d st]; unfold channel_is_busy in B;
      cbn [pygame_mixer_initialized soundtrack_channel] in B;
      [|rewrite andb_false_r in B; discriminate].
    cbn [current_video_duration_sec].
    destruct (fade_in_block_writes fd t mi snd ch d st Ht)
      as (ch1 & st1 & w1 & E1 & _ & W1).
    destruct (fade_out_start_block_writes t (d - fd) mi snd ch1 d st1)
      as (st2 & E2).
    destruct (fade_out_block_writes fd d t mi snd ch1 st2)
      as (ch3 & w3 & E3 & _ & W3).
    unfold bind at 1. rewrite E1.
    unfold bind at 1. unfold get_duration at 1.
    cbn [current_video_duration_sec].
    unfold bind at 1. rewrite E2. rewrite E3.
    eexists _, _. split; [reflexivity|]. split; [reflexivity|].
    destruct W1 as [-> | ->], W3 as [-> | ->]; cbn [app]; auto.
  - unfold put_fade_state. eexists _, _.
    split; [reflexivity|]. split; [reflexivity|]. auto.
Qed.

Lemma volumes_written_in_app (st : FadeState) (w1 w2 : list VolumeWrite) :
  volumes_written_in st (w1 ++ w2)
  = volumes_written_in st w1 ++ volumes_written_in st w2.
Proof.
  unfold volumes_written_in. rewrite filter_app, map_app. reflexivity.
Qed.

(** A run of updates at non-decreasing video times, all at or after
    [t0]: it never raises, every write is in range, the fade-in writes
    ascend from [fade_in_volume t0] and the fade-out writes descend from
    [fade_out_volume t0]. *)
Lemma run_updates_writes (fd : Q) (ticks : list Tick) :
  forall (a : Audio) (t0 : Q),
    (0 <= t0)%Q ->
    Forall (fun tk => (t0 <= tick_time tk)%Q) ticks ->
    StronglySorted (fun x y => (tick_time x <= tick_time y)%Q) ticks ->
    exists a' ws,
      run_updates fd ticks a = Ok (tt, a', ws) /\
      Forall (fun w => (0 <= written_volume w <= TARGET_SOUNDTRACK_VOLUME)%Q) ws /\
      StronglySorted Qle (volumes_written_in FADE_IN ws) /\
      Forall (Qle (fade_in_volume fd t0)) (volumes_written_in FADE_IN ws) /\
      StronglySorted (fun x y => (y <= x)%Q) (volumes_written_in FADE_OUT ws) /\
      Forall (fun v => (v <= fade_out_volume fd (current_video_duration_sec a) t0)%Q)
        (volumes_written_in FADE_OUT ws).
Proof.
  induction ticks as [|tk rest IH]; intros a t0 H0 Hlow Hsorted.
  - exists a, []. cbn. repeat split; constructor.
  - inversion Hlow as [|? ? Htk Hlow']; subst.
    inversion Hsorted as [|? ? Hsorted' Hrest]; subst.
    assert (Ht : (0 <= tick_time tk)%Q) by (apply (Qle_trans _ t0); assumption).
    set (a0 := if tick_silent tk then channel_falls_silent a else a).
    assert (Hd0 : current_video_duration_sec a0 = current_video_duration_sec a)
      by (unfold a0; destruct (tick_silent tk); reflexivity).
    destruct (manage_writes fd (tick_time tk) a0 (fun _ => Ht))
      as (a1 & w1 & E1 & Hd1 & W1).
    destruct (IH a1 (tick_time tk) Ht Hrest Hsorted')
      as (a2 & w2 & E2 & R2 & Sin & Fin & Sout & Fout).
    rewrite Hd1, Hd0 in Fout. rewrite Hd0 in W1.
    set (d := current_video_duration_sec a) in *.
    exists a2, (w1 ++ w2).
    assert (Erun : run_updates fd (tk :: rest) a = Ok (tt, a2, w1 ++ w2)).
    { cbn [run_updates]. fold a0. unfold bind. rewrite E1, E2. reflexivity. }
    assert (Hin : (fade_in_volume fd t0 <= fade_in_volume fd (tick_time tk))%Q)
      by (apply AudioFacts.fade_in_volume_mono; assumption).
    assert (Hout : (fade_out_volume fd d (tick_time tk) <= fade_out_volume fd d t0)%Q)
      by (apply AudioFacts.fade_out_volume_anti; assumption).
    assert (Fin' : Forall (Qle (fade_in_volume fd t0)) (volumes_written_in FADE_IN w2)).
    { eapply Forall_impl; [|exact Fin]. intros v Hv.
      apply (Qle_trans _ (fade_in_volume fd (tick_time tk))); assumption. }
    assert (Fout' : Forall (fun v => (v <= fade_out_volume fd d t0)%Q)
                      (volumes_written_in FADE_OUT w2)).
    { eapply Forall_impl; [|exact Fout]. intros v Hv. cbv beta in *.
      apply (Qle_trans _ (fade_out_volume fd d (tick_time tk))); assumption. }
    pose proof (AudioFacts.fade_in_volume_range fd (tick_time tk) Ht) as Rin.
    pose proof (AudioFacts.fade_out_volume_range fd d (tick_time tk)) as Rout.
    split; [exact Erun|].
    rewrite !volumes_written_in_app.
    destruct W1 as [-> | [-> | [-> | ->]]]; cbn [app volumes_written_in filter
      map written_in written_volume FadeState_eqb];
      repeat split;
      repeat (first [ assumption | constructor; cbn [written_volume] ]).
Qed.

(** The soundtrack of a 15 s video with a 1.5 s fade, updated at 0.5 s,
    1 s, 1.5 s, 13.5 s, 14 s and 15 s: it fades in to 0.7, the fade-out
    starts at 13.5 s and reaches 0 at 15 s. *)
Example demo_run_writes :
  exists a' ws,
    run_updates (3 # 2) Demo.ticks Demo.fading_in = Ok (tt, a', ws) /\
    audio_fade_state a' = FADE_OUT /\
    map written_in ws
      = [FADE_IN; FADE_IN; FADE_IN; FADE_OUT; FADE_OUT; FADE_OUT] /\
    Forall2 Qeq (map written_volume ws)
      [7 # 30; 7 # 15; 7 # 10; 7 # 10; 7 # 15; 0]%Q.
Proof.
  eexists _, _. split; [vm_compute; reflexivity|].
  split; [reflexivity|]. split; [reflexivity|].
  repeat constructor.
Qed.

End ManageFacts.

(** C8. Every volume written by the volume-update step lies in
    [[0, TARGET_SOUNDTRACK_VOLUME]]; and over a run of updates whose video
    times (elapsed times, so non-negative) do not decrease, the volumes
    written in [FADE_IN] never decrease and the volumes written in
    [FADE_OUT] never increase. The run never raises. Neither the fade
    duration nor the video duration needs to be positive for this. (The
    loop hands over [current_playback_frame_count / fps], which is not
    negative: [LoopFacts.elapsed_nonneg].) *)
Theorem volume_in_range_and_monotone
  (fade_duration : Q) (ticks : list Tick) (a : Audio) :
  Forall (fun tk => (0 <= tick_time tk)%Q) ticks ->
  StronglySorted (fun x y => (tick_time x <= tick_time y)%Q) ticks ->
  exists a' ws,
    run_updates fade_duration ticks a = Ok (tt, a', ws) /\
    Forall (fun w => (0 <= written_volume w <= TARGET_SOUNDTRACK_VOLUME)%Q) ws /\
    StronglySorted Qle (volumes_written_in FADE_IN ws) /\
    StronglySorted (fun x y => (y <= x)%Q) (volumes_written_in FADE_OUT ws).
Proof.
  intros Hnonneg Hsorted.
  destruct (ManageFacts.run_updates_writes fade_duration ticks a 0
              (Qle_refl 0) Hnonneg Hsorted)
    as (a' & ws & E & R & Sin & _ & Sout & _).
  exists a', ws. auto.
Qed.

Lemma volume_in_range_and_monotone_witness :
  Forall (fun tk => (0 <= tick_time tk)%Q) Demo.ticks /\
  StronglySorted (fun x y => (tick_time x <= tick_time y)%Q) Demo.ticks /\
  exists a' ws,
    run_updates (3 # 2) Demo.ticks Demo.fading_in = Ok (tt, a', ws) /\
    Forall (fun w => (0 <= written_volume w <= TARGET_SOUNDTRACK_VOLUME)%Q) ws /\
    StronglySorted Qle (volumes_written_in FADE_IN ws) /\
    StronglySorted (fun x y => (y <= x)%Q) (volumes_written_in FADE_OUT ws).
Proof.
  assert (Hnonneg : Forall (fun tk => (0 <= tick_time tk)%Q) Demo.ticks).
  { unfold Demo.ticks.
    repeat constructor; cbn [tick_time]; unfold Qle; simpl; lia. }
  assert (Hsorted :
            StronglySorted (fun x y => (tick_time x <= tick_time y)%Q)
              Demo.ticks).
  { unfold Demo.ticks.
    repeat constructor; cbn [tick_time]; unfold Qle; simpl; lia. }
  split; [exact Hnonneg|]. split; [exact Hsorted|].
  exact (volume_in_range_and_monotone (3 # 2) Demo.ticks Demo.fading_in
           Hnonneg Hsorted).
Defined.

(** C9. Whatever the fade state (so in particular when it is not [NONE]):
    if the channel is not busy, or there is no channel, or the mixer is not
    initialised, the next volume update sets the state to [NONE] and writes
    no volume. *)
Theorem silent_channel_forces_idle
  (video_current_time_sec fade_duration : Q) (a : Audio) :
  channel_is_busy a = false ->
  exists a',
    manage_soundtrack_volume video_current_time_sec fade_duration a
      = Ok (tt, a', []) /\
    audio_fade_state a' = NONE /\
    soundtrack_channel a' = soundtrack_channel a.
Proof.
  intro B. unfold manage_soundtrack_volume. rewrite B. cbn [negb].
  unfold put_fade_state. eexists. split; [reflexivity|]. split; reflexivity.
Qed.

Lemma silent_channel_forces_idle_witness :
  channel_is_busy (channel_falls_silent Demo.fading_in) = false /\
  exists a',
    manage_soundtrack_volume 1 (3 # 2) (channel_falls_silent Demo.fading_in)
      = Ok (tt, a', []) /\
    audio_fade_state a' = NONE /\
    soundtrack_channel a' = soundtrack_channel (channel_falls_silent Demo.fading_in).
Proof.
  split; [reflexivity|].
  apply (silent_channel_forces_idle 1 (3 # 2)
           (channel_falls_silent Demo.fading_in)).
  reflexivity.
Defined.

(** ** The per-frame fade *)

Module FadeFacts.

Lemma blend_alpha_ok (count frames : Z) :
  frames <> 0 ->
  blend_alpha count frames
  = Ok (Qmin (inject_Z count / inject_Z frames) 1).
Proof.
  intro H. unfold blend_alpha.
  destruct (Z.eqb_spec frames 0); [contradiction | reflexivity].
Qed.

Lemma inject_pos (frames : Z) : 1 <= frames -> (0 < inject_Z frames)%Q.
Proof.
  intro H. change 0%Q with (inject_Z 0). rewrite <- Zlt_Qlt. lia.
Qed.

Lemma ratio_mono (c1 c2 frames : Z) :
  1 <= frames -> c1 <= c2 ->
  (inject_Z c1 / inject_Z frames <= inject_Z c2 / inject_Z frames)%Q.
Proof.
  intros HF H. apply NumFacts.div_pos_mono; [apply inject_pos, HF|].
  rewrite <- Zle_Qle. exact H.
Qed.

Lemma ratio_full (frames : Z) :
  1 <= frames -> (inject_Z frames / inject_Z frames == 1)%Q.
Proof.
  intro HF. apply Qmult_inv_r. intro E.
  pose proof (inject_pos frames HF) as P. rewrite E in P.
  exact (Qlt_irrefl _ P).
Qed.

End FadeFacts.

(** C7. For a fade budget of at least one frame, the factor applied to the
    displayed frame is defined for every frame count; it is 0 at count 0,
    it is 1 from count [fade_in_frames] on, and it never decreases as the
    count grows. *)
Theorem fade_alpha_profile (frames : Z) :
  1 <= frames ->
  exists alpha : Z -> Q,
    (forall c, frame_alpha c frames = Ok (alpha c)) /\
    (alpha 0%Z == 0)%Q /\
    (forall c, frames <= c -> (alpha c == 1)%Q) /\
    (forall c1 c2, c1 <= c2 -> (alpha c1 <= alpha c2)%Q).
Proof.
  intro HF.
  exists (fun c => if Z.leb c frames
                   then Qmin (inject_Z c / inject_Z frames) 1 else 1%Q).
  repeat split.
  - intro c. unfold frame_alpha.
    destruct (Z.leb c frames); [|reflexivity].
    apply FadeFacts.blend_alpha_ok. lia.
  - destruct (Z.leb_spec 0 frames); [|lia].
    assert (Z0 : (inject_Z 0 / inject_Z frames == 0)%Q)
      by (unfold Qdiv; apply Qmult_0_l).
    rewrite Q.min_l; [exact Z0|]. rewrite Z0. discriminate.
  - intros c Hc. destruct (Z.leb_spec c frames); [|reflexivity].
    assert (c = frames) by lia. subst c.
    apply Q.min_r. rewrite FadeFacts.ratio_full by exact HF. apply Qle_refl.
  - intros c1 c2 H12.
    destruct (Z.leb_spec c2 frames).
    + destruct (Z.leb_spec c1 frames); [|lia].
      apply Q.min_le_compat_r. apply FadeFacts.ratio_mono; assumption.
    + destruct (Z.leb_spec c1 frames); [apply Q.le_min_r | apply Qle_refl].
Qed.

Lemma fade_alpha_profile_witness :
  1 <= 37 /\
  exists alpha : Z -> Q,
    (forall c, frame_alpha c 37 = Ok (alpha c)) /\
    (alpha 0%Z == 0)%Q /\
    (forall c, 37 <= c -> (alpha c == 1)%Q) /\
    (forall c1 c2, c1 <= c2 -> (alpha c1 <= alpha c2)%Q).
Proof.
  split; [lia|]. apply (fade_alpha_profile 37). lia.
Defined.

(** ** The tag-event poll *)

Module PollFacts.

Lemma tag_differs_same (t : Z) : tag_differs t (Some t) = false.
Proof. unfold tag_differs. rewrite Z.eqb_refl. reflexivity. Qed.

Lemma tag_differs_other (t : Z) (active : option Z) :
  active <> Some t -> tag_differs t active = true.
Proof.
  intro H. destruct active as [u|]; [|reflexivity].
  unfold tag_differs. destruct (Z.eqb_spec t u); [|reflexivity].
  subst. contradiction.
Qed.

End PollFacts.

(** C1. An iteration that dequeues [TAG_INSERTED t]: if [t] is the active
    tag, the state stays as it is apart from the dequeued event (so the
    load condition and the frame counter are those of an iteration without
    event); otherwise, if [t] is a key of the validated map, the target
    becomes that tag's path and [target_is_idle] becomes false; otherwise
    target, [target_is_idle] and active tag stay as they are. *)
Theorem tag_inserted_decision
  (cfg : Config) (s : MainState) (t : Z) (rest : list TagEvent) :
  rfid_active cfg = true ->
  rfid_event_queue s = TAG_INSERTED t :: rest ->
  (active_tag_id s = Some t ->
     process_rfid_events cfg s = with_rfid_event_queue rest s /\
     needs_load (process_rfid_events cfg s) = needs_load s /\
     current_playback_frame_count (process_rfid_events cfg s)
       = current_playback_frame_count s) /\
  (active_tag_id s <> Some t ->
     forall path, map_get (valid_tag_video_map cfg) t = Some path ->
       target_video_path (process_rfid_events cfg s) = path /\
       target_is_idle (process_rfid_events cfg s) = false) /\
  (active_tag_id s <> Some t ->
     map_get (valid_tag_video_map cfg) t = None ->
       target_video_path (process_rfid_events cfg s) = target_video_path s /\
       target_is_idle (process_rfid_events cfg s) = target_is_idle s /\
       active_tag_id (process_rfid_events cfg s) = active_tag_id s).
Proof.
  intros Hactive Hq. unfold process_rfid_events. rewrite Hactive, Hq.
  unfold handle_event. cbn [active_tag_id with_rfid_event_queue].
  split; [|split].
  - intro Hsame. rewrite Hsame, PollFacts.tag_differs_same. auto.
  - intros Hdiff path Hget.
    rewrite (PollFacts.tag_differs_other t _ Hdiff), Hget. auto.
  - intros Hdiff Hget.
    rewrite (PollFacts.tag_differs_other t _ Hdiff), Hget. auto.
Qed.

Lemma tag_inserted_decision_witness :
  rfid_active Demo.cfg = true /\
  rfid_event_queue (card_inserted true 418 Demo.idle_playing)
    = [TAG_INSERTED 418] /\
  target_video_path
    (process_rfid_events Demo.cfg (card_inserted true 418 Demo.idle_playing))
    = Demo.video_a /\
  target_is_idle
    (process_rfid_events Demo.cfg (card_inserted true 418 Demo.idle_playing))
    = false.
Proof.
  split; [reflexivity|]. split; [reflexivity|].
  apply (tag_inserted_decision Demo.cfg
           (card_inserted true 418 Demo.idle_playing) 418 []).
  - reflexivity.
  - reflexivity.
  - discriminate.
  - reflexivity.
Defined.

(** ** End of video *)

Module StopFacts.

Lemma stop_silences (a : Audio) :
  channel_is_busy (stop_soundtrack_immediately a) = false.
Proof.
  unfold stop_soundtrack_immediately.
  destruct (channel_is_busy a) eqn:B.
  - unfold channel_is_busy, channel_stop.
    cbn [pygame_mixer_initialized soundtrack_channel].
    destruct (soundtrack_channel a); cbn [busy]; apply andb_false_r.
  - exact B.
Qed.

End StopFacts.

(** C2. When [cap.read()] returns no frame (end of stream and read error
    are the same branch), the iteration ends with the target set to the
    idle video, [target_is_idle] true, no active tag, the soundtrack
    stopped (state [NONE], channel silent), and [previous_video_was_content]
    true exactly when a tag was active. The capture is released. *)
Theorem read_failure_reverts_to_idle
  (cfg : Config) (o : Oracle) (s : MainState) :
  cap_is_open s = true ->
  read_ret o = false ->
  exists s',
    read_and_display_frame cfg o s = Continue s' /\
    target_video_path s' = idle_video_full_path cfg /\
    target_is_idle s' = true /\
    active_tag_id s' = None /\
    audio_fade_state (audio s') = NONE /\
    channel_is_busy (audio s') = false /\
    previous_video_was_content s'
      = match active_tag_id s with Some _ => true | None => false end /\
    cap_is_open s' = false.
Proof.
  intros Hopen Hret.
  unfold read_and_display_frame, read_and_count. rewrite Hopen, Hret.
  cbn [negb]. eexists. split; [reflexivity|].
  unfold video_ended.
  cbn [active_tag_id with_audio with_cap].
  assert (Hreleased :
            cap_is_open (with_cap (option_map release (cap s)) s) = false).
  { unfold cap_is_open. cbn [cap with_cap].
    destruct (cap s); reflexivity. }
  destruct (active_tag_id s); cbn;
    (repeat split; try reflexivity;
     [apply StopFacts.stop_silences | exact Hreleased]).
Qed.

Lemma read_failure_reverts_to_idle_witness :
  cap_is_open Demo.content_playing = true /\
  read_ret Demo.ends = false /\
  exists s',
    read_and_display_frame Demo.cfg Demo.ends Demo.content_playing
      = Continue s' /\
    target_video_path s' = idle_video_full_path Demo.cfg /\
    target_is_idle s' = true /\
    active_tag_id s' = None /\
    audio_fade_state (audio s') = NONE /\
    channel_is_busy (audio s') = false /\
    previous_video_was_content s'
      = match active_tag_id Demo.content_playing with
        | Some _ => true
        | None => false
        end /\
    cap_is_open s' = false.
Proof.
  split; [reflexivity|]. split; [reflexivity|].
  apply (read_failure_reverts_to_idle Demo.cfg Demo.ends Demo.content_playing);
    reflexivity.
Defined.

(** ** The load step *)

Module LoadFacts.

Ltac split_ifs :=
  repeat match goal with
         | |- context [if ?c then _ else _] => destruct c eqn:?
         end;
  try (exfalso; cbn [negb andb] in *; congruence).

Lemma properties_of_open (c : Capture) :
  isOpened c = true ->
  get_video_properties (Some c)
  = (reported_fps c, Num.int (CAP_PROP_FRAME_WIDTH c),
     Num.int (CAP_PROP_FRAME_HEIGHT c), Num.int (CAP_PROP_FRAME_COUNT c)).
Proof.
  intro H. unfold get_video_properties. rewrite H. reflexivity.
Qed.

Section Opened.

Variable cfg : Config.
Variable o : Oracle.
Variable s : MainState.
Hypothesis opened : isOpened (VideoCapture o) = true.

Let loaded : MainState :=
  load_opened cfg o (with_cap (Some (VideoCapture o)) s).

Let effective_fps : Q :=
  if Num.ltb 0 (reported_fps (VideoCapture o))
  then reported_fps (VideoCapture o) else fps s.

Lemma loaded_fade_in_frames :
  fade_in_frames loaded
  = Num.int (Double.mul (FADE_DURATION_SECONDS cfg) effective_fps).
Proof.
  unfold loaded, effective_fps, load_opened. cbn [cap with_cap].
  rewrite (properties_of_open _ opened).
  cbv beta iota zeta. split_ifs; reflexivity.
Qed.

Lemma loaded_frame_count :
  current_playback_frame_count loaded
  = if String.eqb (target_video_path s) (idle_video_full_path cfg)
    then if previous_video_was_content s then 0
         else fade_in_frames loaded + 1
    else 0.
Proof.
  rewrite loaded_fade_in_frames.
  unfold loaded, effective_fps, load_opened. cbn [cap with_cap].
  rewrite (properties_of_open _ opened).
  cbv beta iota zeta.
  cbn [target_video_path previous_video_was_content with_fade_in_frames
       with_cap].
  split_ifs; reflexivity.
Qed.

Lemma loaded_previous_video_was_content :
  previous_video_was_content loaded
  = negb (String.eqb (target_video_path s) (idle_video_full_path cfg)).
Proof.
  unfold loaded, load_opened. cbn [cap with_cap].
  rewrite (properties_of_open _ opened).
  cbv beta iota zeta.
  cbn [target_video_path previous_video_was_content with_fade_in_frames
       with_cap].
  split_ifs; reflexivity.
Qed.

Lemma loaded_fps :
  fps loaded = fps s \/
  (fps loaded = reported_fps (VideoCapture o) /\
   (0 < reported_fps (VideoCapture o))%Q).
Proof.
  unfold loaded, load_opened. cbn [cap with_cap].
  rewrite (properties_of_open _ opened).
  cbv beta iota zeta.
  destruct (Num.ltb 0 (reported_fps (VideoCapture o))) eqn:E.
  - apply NumFacts.ltb_lt in E.
    split_ifs; first [left; reflexivity | right; split; [reflexivity | exact E]].
  - split_ifs; left; reflexivity.
Qed.

End Opened.

End LoadFacts.

(** C3. Every successful load: a content video (a target other than the
    idle path) starts with the frame counter at 0 and sets
    [previous_video_was_content]; the idle video starts with the counter
    at 0 exactly when [previous_video_was_content] was set, and otherwise
    at [fade_in_frames + 1] (the new budget), and clears the flag. *)
Theorem load_fade_policy (cfg : Config) (o : Oracle) (s : MainState) :
  needs_load s = true ->
  isOpened (VideoCapture o) = true ->
  exists s',
    manage_video_transitions cfg o s = Proceed s' /\
    if String.eqb (target_video_path s) (idle_video_full_path cfg) then
      current_playback_frame_count s'
        = (if previous_video_was_content s then 0 else fade_in_frames s' + 1) /\
      previous_video_was_content s' = false
    else
      current_playback_frame_count s' = 0 /\
      previous_video_was_content s' = true.
Proof.
  intros Hload Hopen. unfold manage_video_transitions.
  rewrite Hload, Hopen. cbn [negb].
  eexists. split; [reflexivity|].
  rewrite (LoadFacts.loaded_frame_count cfg o s Hopen).
  rewrite (LoadFacts.loaded_previous_video_was_content cfg o s Hopen).
  destruct (String.eqb (target_video_path s) (idle_video_full_path cfg));
    split; reflexivity.
Qed.

Lemma load_fade_policy_witness :
  needs_load Demo.content_ended = true /\
  isOpened (VideoCapture Demo.plays) = true /\
  exists s',
    manage_video_transitions Demo.cfg Demo.plays Demo.content_ended
      = Proceed s' /\
    current_playback_frame_count s' = 0 /\
    previous_video_was_content s' = false.
Proof.
  split; [reflexivity|]. split; [reflexivity|].
  destruct (load_fade_policy Demo.cfg Demo.plays Demo.content_ended)
    as (s' & E & H); [reflexivity | reflexivity |].
  exists s'. split; [exact E|]. exact H.
Defined.

(** C4, as the code has it. When the capture does not open, the loop falls
    back to idle (target idle, no active tag, current path emptied) and
    sets [previous_video_was_content] from the path that was loaded before,
    not from the failed target: it is set when that path is a content path
    (neither the idle path nor empty), whatever the target was; it is
    cleared when the failed target was the idle video and the path loaded
    before was the idle path or empty. *)
Theorem load_failure_flag (cfg : Config) (o : Oracle) (s : MainState) :
  needs_load s = true ->
  isOpened (VideoCapture o) = false ->
  exists s',
    manage_video_transitions cfg o s = Continue s' /\
    target_video_path s' = idle_video_full_path cfg /\
    target_is_idle s' = true /\
    active_tag_id s' = None /\
    current_video_path_playing s' = EmptyString /\
    (current_video_path_playing s <> idle_video_full_path cfg ->
     current_video_path_playing s <> EmptyString ->
     previous_video_was_content s' = true) /\
    (target_video_path s = idle_video_full_path cfg ->
     current_video_path_playing s = idle_video_full_path cfg \/
     current_video_path_playing s = EmptyString ->
     previous_video_was_content s' = false).
Proof.
  intros Hload Hopen. unfold manage_video_transitions.
  rewrite Hload, Hopen. cbn [negb].
  eexists. split; [reflexivity|].
  unfold load_failed.
  cbn [target_video_path target_is_idle active_tag_id
       current_video_path_playing previous_video_was_content
       with_cap with_previous_video_was_content with_target
       with_active_tag_id with_current_video_path_playing].
  repeat split.
  - intros Hidle Hempty.
    apply String.eqb_neq in Hidle. apply String.eqb_neq in Hempty.
    rewrite Hidle, Hempty. reflexivity.
  - intros _ [Hcur | Hcur]; rewrite Hcur.
    + rewrite String.eqb_refl. reflexivity.
    + rewrite (String.eqb_refl EmptyString). apply andb_false_r.
Qed.

Lemma load_failure_flag_witness :
  needs_load Demo.content_ended = true /\
  isOpened (VideoCapture Demo.fails) = false /\
  exists s',
    manage_video_transitions Demo.cfg Demo.fails Demo.content_ended
      = Continue s' /\
    previous_video_was_content s' = true.
Proof.
  split; [reflexivity|]. split; [reflexivity|].
  destruct (load_failure_flag Demo.cfg Demo.fails Demo.content_ended)
    as (s' & E & _ & _ & _ & _ & H & _); [reflexivity | reflexivity |].
  exists s'. split; [exact E|].
  apply H; discriminate.
Defined.

(** The demo states are states of the running loop. *)
Module DemoFacts.

Lemma start_reachable : reachable Demo.cfg Demo.start.
Proof. exact (reach_init Demo.cfg true true). Qed.

Lemma idle_playing_reachable : reachable Demo.cfg Demo.idle_playing.
Proof.
  apply (reach_iteration Demo.cfg Demo.plays Demo.start);
    [exact start_reachable | vm_compute; reflexivity].
Qed.

Lemma content_playing_reachable : reachable Demo.cfg Demo.content_playing.
Proof.
  apply (reach_iteration Demo.cfg Demo.plays
           (card_inserted true 418 Demo.idle_playing)).
  - apply reach_card_inserted. exact idle_playing_reachable.
  - vm_compute. reflexivity.
Qed.

Lemma content_ended_reachable : reachable Demo.cfg Demo.content_ended.
Proof.
  apply (reach_iteration Demo.cfg Demo.ends Demo.content_playing);
    [exact content_playing_reachable | vm_compute; reflexivity].
Qed.

Lemma burst_reachable : reachable Demo.cfg Demo.burst.
Proof.
  change Demo.burst
    with (card_inserted true 43 (card_inserted true 418 Demo.idle_playing)).
  do 2 apply reach_card_inserted. exact idle_playing_reachable.
Qed.

End DemoFacts.

(** C4 as the specification words it fails. After the content video of tag
    [0x1A2] has ended the target is the idle video; if the idle file then
    does not open, the failed target is the idle video, and yet the code
    sets [previous_video_was_content]. *)
Lemma load_failure_flag_counterexample :
  exists s',
    reachable Demo.cfg Demo.content_ended /\
    iteration Demo.cfg Demo.fails Demo.content_ended = Continue s' /\
    target_video_path (process_rfid_events Demo.cfg Demo.content_ended)
      = idle_video_full_path Demo.cfg /\
    spec_load_failure_flag Demo.cfg
      (process_rfid_events Demo.cfg Demo.content_ended) = false /\
    previous_video_was_content s' = true /\
    previous_video_was_content s'
      <> spec_load_failure_flag Demo.cfg
           (process_rfid_events Demo.cfg Demo.content_ended).
Proof.
  eexists. split; [exact DemoFacts.content_ended_reachable|].
  split; [vm_compute; reflexivity|].
  repeat split. vm_compute. discriminate.
Qed.

(** C5 as the specification words it fails: with a fade of 1.5 s, loading
    a 25 fps video gives a budget of 37 frames, where rounding 37.5 gives
    38. *)
Lemma fade_budget_counterexample :
  exists s',
    manage_video_transitions Demo.cfg Demo.plays Demo.start = Proceed s' /\
    fade_in_frames s' = 37 /\
    spec_fade_budget (FADE_DURATION_SECONDS Demo.cfg)
      (reported_fps (VideoCapture Demo.plays)) = 38 /\
    fade_in_frames s'
      <> spec_fade_budget (FADE_DURATION_SECONDS Demo.cfg)
           (reported_fps (VideoCapture Demo.plays)).
Proof.
  eexists. split; [vm_compute; reflexivity|].
  repeat split. vm_compute. discriminate.
Qed.

(** C5, as the code has it. On every successful load the fade-in frame
    budget is [int(FADE_DURATION_SECONDS * effective_fps)]: the float
    product, truncated toward zero (its floor when it is not negative, its
    ceiling when it is not positive), where the effective fps is the fps of
    the new video if that is positive and the previous fps otherwise. A
    product of 37.5, as for a fade of 1.5 s at 25 fps, gives a budget of
    37; and whenever the two factors are doubles whose exact product is a
    double, the budget is the truncated exact product. *)
Theorem fade_budget_truncates (cfg : Config) (o : Oracle) (s : MainState) :
  needs_load s = true ->
  isOpened (VideoCapture o) = true ->
  exists s',
    manage_video_transitions cfg o s = Proceed s' /\
    let new_fps := reported_fps (VideoCapture o) in
    let effective_fps := if Num.ltb 0 new_fps then new_fps else fps s in
    let product := Double.mul (FADE_DURATION_SECONDS cfg) effective_fps in
    fade_in_frames s' = Num.int product /\
    ((0 <= product)%Q -> fade_in_frames s' = Qfloor product) /\
    ((product <= 0)%Q -> fade_in_frames s' = Qceiling product) /\
    ((product == 75 # 2)%Q -> fade_in_frames s' = 37) /\
    ((FADE_DURATION_SECONDS cfg == 3 # 2)%Q -> (effective_fps == 25)%Q ->
     fade_in_frames s' = 37) /\
    (Double.representable (FADE_DURATION_SECONDS cfg) ->
     Double.representable effective_fps ->
     Double.representable (FADE_DURATION_SECONDS cfg * effective_fps) ->
     fade_in_frames s' = Num.int (FADE_DURATION_SECONDS cfg * effective_fps)).
Proof.
  intros Hload Hopen. unfold manage_video_transitions.
  rewrite Hload, Hopen. cbn [negb].
  eexists. split; [reflexivity|].
  cbv zeta. rewrite (LoadFacts.loaded_fade_in_frames cfg o s Hopen).
  split; [reflexivity|]. split; [|split; [|split; [|split]]].
  - apply NumFacts.int_floor.
  - apply NumFacts.int_ceiling.
  - intro E. rewrite NumFacts.int_floor by (rewrite E; discriminate).
    rewrite E. reflexivity.
  - intros Hfade Hfps.
    rewrite (DoubleFacts.mul_value _ (3 # 2) _ 25 Hfade Hfps).
    vm_compute. reflexivity.
  - intros Hfade Hfps Hprod. apply NumFacts.int_value.
    now apply DoubleFacts.mul_exact.
Qed.

Lemma fade_budget_truncates_witness :
  needs_load Demo.start = true /\
  isOpened (VideoCapture Demo.plays) = true /\
  exists s',
    manage_video_transitions Demo.cfg Demo.plays Demo.start = Proceed s' /\
    fade_in_frames s' = 37.
Proof.
  split; [reflexivity|]. split; [reflexivity|].
  destruct (fade_budget_truncates Demo.cfg Demo.plays Demo.start)
    as (s' & E & _ & _ & _ & _ & H & _); [reflexivity | reflexivity |].
  exists s'. split; [exact E|].
  apply H; reflexivity.
Defined.

(** ** The queue and the rest of the iteration *)

Module QueueFacts.

Ltac norm_state :=
  cbn [cap active_tag_id current_video_path_playing target_video_path
       target_is_idle fps frame_width frame_height fade_in_frames
       current_playback_frame_count running previous_video_was_content
       audio rfid_event_queue
       with_cap with_active_tag_id with_current_video_path_playing
       with_target with_video_properties with_fade_in_frames
       with_current_playback_frame_count with_running
       with_previous_video_was_content with_audio with_rfid_event_queue].

Ltac split_state_ifs :=
  repeat (norm_state;
          match goal with
          | |- context [if ?c then _ else _] =>
              lazymatch c with
              | context [if _ then _ else _] => fail
              | _ => destruct c eqn:?
              end
          end);
  norm_state;
  try (exfalso; cbn [negb andb] in *; congruence).

Section Requeue.

Variable cfg : Config.
Variable o : Oracle.
Variable q : list TagEvent.

Lemma handle_event_requeue (ev : TagEvent) (s : MainState) :
  handle_event cfg ev (with_rfid_event_queue q s)
  = with_rfid_event_queue q (handle_event cfg ev s).
Proof.
  unfold handle_event. destruct ev; [|reflexivity]. norm_state.
  destruct (tag_differs tag (active_tag_id s)); [|reflexivity].
  destruct (map_get (valid_tag_video_map cfg) tag); reflexivity.
Qed.

Lemma load_opened_requeue (s : MainState) :
  load_opened cfg o (with_rfid_event_queue q s)
  = with_rfid_event_queue q (load_opened cfg o s).
Proof.
  unfold load_opened. norm_state.
  destruct (get_video_properties (cap s)) as [[[nf nw] nh] nt].
  split_state_ifs; reflexivity.
Qed.

Lemma manage_video_transitions_requeue (s : MainState) :
  manage_video_transitions cfg o (with_rfid_event_queue q s)
  = requeue q (manage_video_transitions cfg o s).
Proof.
  unfold manage_video_transitions, needs_load.
  split_state_ifs; cbn [requeue]; try reflexivity.
  f_equal. apply (load_opened_requeue (with_cap (Some (VideoCapture o)) s)).
Qed.

Lemma advance_frame_requeue (s : MainState) :
  advance_frame cfg (with_rfid_event_queue q s)
  = requeue q (advance_frame cfg s).
Proof.
  unfold advance_frame.
  split_state_ifs; cbn [requeue]; try reflexivity.
  destruct (manage_soundtrack_volume _ _ _) as [[[u a] ws]|e];
    reflexivity.
Qed.

Lemma show_frame_requeue (s : MainState) :
  show_frame o (with_rfid_event_queue q s) = requeue q (show_frame o s).
Proof.
  unfold show_frame. norm_state.
  destruct (frame_alpha _ _); [|reflexivity].
  split_state_ifs; reflexivity.
Qed.

Lemma read_and_display_frame_requeue (s : MainState) :
  read_and_display_frame cfg o (with_rfid_event_queue q s)
  = requeue q (read_and_display_frame cfg o s).
Proof.
  unfold read_and_display_frame, read_and_count, cap_is_open. norm_state.
  destruct (cap s) as [c|]; [|reflexivity].
  destruct (isOpened c); [|reflexivity].
  destruct (read_ret o); cbn [negb].
  - rewrite advance_frame_requeue.
    destruct (advance_frame cfg s); cbn [requeue]; try reflexivity.
    apply show_frame_requeue.
  - unfold video_ended. norm_state.
    destruct (active_tag_id s); reflexivity.
Qed.

(** The steps after the poll neither read nor write the queue. *)
Lemma after_poll_requeue (s : MainState) :
  match manage_video_transitions cfg o (with_rfid_event_queue q s) with
  | Proceed s2 => read_and_display_frame cfg o s2
  | other => other
  end
  = requeue q
      match manage_video_transitions cfg o s with
      | Proceed s2 => read_and_display_frame cfg o s2
      | other => other
      end.
Proof.
  rewrite manage_video_transitions_requeue.
  destruct (manage_video_transitions cfg o s); cbn [requeue];
    try reflexivity.
  apply read_and_display_frame_requeue.
Qed.

End Requeue.

Lemma requeue_queue (q : list TagEvent) (f : Flow) (s' : MainState) :
  flow_state (requeue q f) = Some s' -> rfid_event_queue s' = q.
Proof.
  destruct f; cbn [requeue flow_state]; intro H; inversion H; reflexivity.
Qed.

End QueueFacts.

(** C6 as the specification words it fails. Two mapped tags are queued
    between two frames. One iteration takes the first tag only: the second
    stays queued, the first tag's video becomes the target and is loaded;
    a drain would have left the second tag's video as the target. *)
Lemma burst_counterexample :
  exists s1,
    reachable Demo.cfg Demo.burst /\
    rfid_event_queue Demo.burst = [TAG_INSERTED 418; TAG_INSERTED 43] /\
    iteration Demo.cfg Demo.plays Demo.burst = Proceed s1 /\
    rfid_event_queue s1 = [TAG_INSERTED 43] /\
    current_video_path_playing s1 = Demo.video_a /\
    target_video_path (spec_drain_events Demo.cfg Demo.burst) = Demo.video_b /\
    rfid_event_queue (spec_drain_events Demo.cfg Demo.burst) = [] /\
    process_rfid_events Demo.cfg Demo.burst
      <> spec_drain_events Demo.cfg Demo.burst.
Proof.
  eexists. split; [exact DemoFacts.burst_reachable|].
  split; [reflexivity|].
  split; [vm_compute; reflexivity|].
  repeat split. vm_compute. discriminate.
Qed.

(** C6, as the code has it. An iteration polls the queue once: when the
    reader is active and events are pending, it takes the oldest one and
    leaves the others queued in order; what the iteration does is what it
    would do with that one event alone in the queue. So a burst is worked
    off one event per iteration, each with its own decision and load. *)
Theorem one_event_per_iteration
  (cfg : Config) (o : Oracle) (s : MainState)
  (ev : TagEvent) (rest : list TagEvent) :
  rfid_active cfg = true ->
  rfid_event_queue s = ev :: rest ->
  iteration cfg o s
    = requeue rest (iteration cfg o (with_rfid_event_queue [ev] s)) /\
  forall s', flow_state (iteration cfg o s) = Some s' ->
             rfid_event_queue s' = rest.
Proof.
  intros Hactive Hq.
  assert (E : iteration cfg o s
              = requeue rest (iteration cfg o (with_rfid_event_queue [ev] s))).
  { unfold iteration, process_rfid_events. rewrite Hactive, Hq.
    cbn [rfid_event_queue with_rfid_event_queue].
    change (with_rfid_event_queue rest s)
      with (with_rfid_event_queue rest (with_rfid_event_queue [] s)).
    rewrite QueueFacts.handle_event_requeue.
    apply (QueueFacts.after_poll_requeue cfg o rest). }
  split; [exact E|].
  intros s' Hs'. rewrite E in Hs'.
  exact (QueueFacts.requeue_queue _ _ _ Hs').
Qed.

Lemma one_event_per_iteration_witness :
  rfid_active Demo.cfg = true /\
  rfid_event_queue Demo.burst = [TAG_INSERTED 418; TAG_INSERTED 43] /\
  iteration Demo.cfg Demo.plays Demo.burst
    = requeue [TAG_INSERTED 43]
        (iteration Demo.cfg Demo.plays
           (with_rfid_event_queue [TAG_INSERTED 418] Demo.burst)).
Proof.
  split; [reflexivity|]. split; [reflexivity|].
  apply (one_event_per_iteration Demo.cfg Demo.plays Demo.burst
           (TAG_INSERTED 418) [TAG_INSERTED 43]); reflexivity.
Defined.

(** ** Invariants of the loop *)

Module LoopFacts.

Import QueueFacts.

Section Preservation.

Variable cfg : Config.
Variable o : Oracle.

Lemma process_rfid_events_counters (s : MainState) :
  fps (process_rfid_events cfg s) = fps s /\
  current_playback_frame_count (process_rfid_events cfg s)
    = current_playback_frame_count s /\
  fade_in_frames (process_rfid_events cfg s) = fade_in_frames s.
Proof.
  unfold process_rfid_events.
  destruct (rfid_active cfg); [|auto].
  destruct (rfid_event_queue s) as [|ev rest]; [auto|].
  unfold handle_event. destruct ev; [|auto].
  destruct (tag_differs _ _); [|auto].
  destruct (map_get _ _); auto.
Qed.

Lemma process_rfid_events_invariant (s : MainState) :
  loop_invariant cfg s -> loop_invariant cfg (process_rfid_events cfg s).
Proof.
  unfold loop_invariant.
  destruct (process_rfid_events_counters s) as (-> & -> & ->). auto.
Qed.

Lemma loaded_invariant (s : MainState) :
  isOpened (VideoCapture o) = true ->
  loop_invariant cfg s ->
  loop_invariant cfg (load_opened cfg o (with_cap (Some (VideoCapture o)) s)).
Proof.
  intros Hopen (Hfps & _ & _). unfold loop_invariant.
  rewrite (LoadFacts.loaded_frame_count cfg o s Hopen).
  rewrite (LoadFacts.loaded_fade_in_frames cfg o s Hopen).
  split; [|split].
  - destruct (LoadFacts.loaded_fps cfg o s Hopen) as [-> | [-> Hpos]];
      assumption.
  - destruct (String.eqb _ _); [|left; lia].
    destruct (previous_video_was_content s); [left; lia | right; lia].
  - intro Hfade. apply NumFacts.int_nonneg.
    apply DoubleFacts.mul_nonneg; [exact Hfade|].
    destruct (Num.ltb 0 (reported_fps (VideoCapture o))) eqn:E.
    + apply NumFacts.ltb_lt in E. apply Qlt_le_weak, E.
    + apply Qlt_le_weak, Hfps.
Qed.

Lemma manage_video_transitions_invariant (s s' : MainState) :
  loop_invariant cfg s ->
  flow_state (manage_video_transitions cfg o s) = Some s' ->
  loop_invariant cfg s'.
Proof.
  intros Hinv. unfold manage_video_transitions.
  destruct (needs_load s).
  - destruct (isOpened (VideoCapture o)) eqn:Hopen; cbn [negb flow_state];
      intro E; inversion E; subst.
    + apply loaded_invariant; assumption.
    + exact Hinv.
  - cbn [flow_state]. intro E. inversion E; subst. exact Hinv.
Qed.

Lemma manage_video_transitions_total (s : MainState) :
  exists s', flow_state (manage_video_transitions cfg o s) = Some s'.
Proof.
  unfold manage_video_transitions.
  destruct (needs_load s); [|eexists; reflexivity].
  destruct (isOpened (VideoCapture o)); eexists; reflexivity.
Qed.

(** The video time handed to the volume update is not negative when the
    fade duration is not. *)
Lemma elapsed_nonneg (s : MainState) :
  loop_invariant cfg s ->
  (0 <= FADE_DURATION_SECONDS cfg)%Q ->
  (0 <= inject_Z (current_playback_frame_count s + 1) / fps s)%Q.
Proof.
  intros (Hfps & Hcount & Hbudget) Hfade.
  apply NumFacts.div_nonneg; [|exact Hfps].
  change 0%Q with (inject_Z 0). rewrite <- Zle_Qle.
  specialize (Hbudget Hfade). lia.
Qed.

Lemma advance_frame_counted (s : MainState) :
  loop_invariant cfg s ->
  exists s',
    advance_frame cfg s = Proceed s' /\
    fps s' = fps s /\
    fade_in_frames s' = fade_in_frames s /\
    current_playback_frame_count s' = current_playback_frame_count s + 1 /\
    running s' = running s.
Proof.
  intro Hinv. unfold advance_frame. norm_state.
  destruct (negb (target_is_idle s) && Num.ltb 0 (fps s));
    [|eexists; repeat split; reflexivity].
  destruct (ManageFacts.manage_writes (FADE_DURATION_SECONDS cfg)
              (inject_Z (current_playback_frame_count s + 1) / fps s)
              (audio s)) as (a' & ws & E & _).
  { intro Z0. apply elapsed_nonneg; [exact Hinv|].
    rewrite Z0. apply Qle_refl. }
  rewrite E. eexists. repeat split; reflexivity.
Qed.

(** The volumes the loop writes in one iteration are in range, when the
    configured fade duration is not negative. *)
Lemma volume_update_in_loop (s : MainState) :
  loop_invariant cfg s ->
  (0 <= FADE_DURATION_SECONDS cfg)%Q ->
  exists a' ws,
    manage_soundtrack_volume
      (inject_Z (current_playback_frame_count s + 1) / fps s)
      (FADE_DURATION_SECONDS cfg) (audio s) = Ok (tt, a', ws) /\
    Forall (fun w => (0 <= written_volume w <= TARGET_SOUNDTRACK_VOLUME)%Q) ws.
Proof.
  intros Hinv Hfade.
  pose proof (elapsed_nonneg s Hinv Hfade) as Ht.
  destruct (ManageFacts.manage_writes (FADE_DURATION_SECONDS cfg) _ (audio s)
              (fun _ => Ht)) as (a' & ws & E & _ & W).
  exists a', ws. split; [exact E|].
  pose proof (AudioFacts.fade_in_volume_range (FADE_DURATION_SECONDS cfg) _ Ht).
  pose proof (AudioFacts.fade_out_volume_range (FADE_DURATION_SECONDS cfg)
                (current_video_duration_sec (audio s))
                (inject_Z (current_playback_frame_count s + 1) / fps s)).
  destruct W as [-> | [-> | [-> | ->]]];
    repeat first [ exact H | exact H0 | apply Forall_nil | apply Forall_cons ].
Qed.

(** With the invariant, the fade check blends only when both the frame
    count and the budget are at least 1. *)
Lemma fade_check_safe (s s' : MainState) :
  loop_invariant cfg s ->
  advance_frame cfg s = Proceed s' ->
  current_playback_frame_count s' <= fade_in_frames s' ->
  1 <= current_playback_frame_count s' /\ 1 <= fade_in_frames s'.
Proof.
  intros Hinv E Hle.
  destruct (advance_frame_counted s Hinv) as (s2 & E2 & _ & HF & HC & _).
  rewrite E in E2. inversion E2; subst s2.
  destruct Hinv as (_ & Hcount & _). lia.
Qed.

Lemma show_frame_total (s : MainState) :
  (0 < fps s)%Q ->
  (current_playback_frame_count s <= fade_in_frames s ->
   1 <= fade_in_frames s) ->
  exists s',
    show_frame o s = Proceed s' /\
    fps s' = fps s /\
    fade_in_frames s' = fade_in_frames s /\
    current_playback_frame_count s' = current_playback_frame_count s.
Proof.
  intros Hfps Hsafe. unfold show_frame, frame_alpha.
  assert (Ealpha : exists a,
             (if Z.leb (current_playback_frame_count s) (fade_in_frames s)
              then blend_alpha (current_playback_frame_count s)
                     (fade_in_frames s)
              else Ok 1%Q) = Ok a).
  { destruct (Z.leb_spec (current_playback_frame_count s)
                (fade_in_frames s)) as [Hle|_]; [|eauto].
    rewrite FadeFacts.blend_alpha_ok; [eauto|].
    specialize (Hsafe Hle). lia. }
  destruct Ealpha as (a & ->).
  rewrite (ManageFacts.pos_neqb _ Hfps).
  destruct (key_quit o); eexists; repeat split; reflexivity.
Qed.

Lemma video_ended_counters (s : MainState) :
  fps (video_ended cfg s) = fps s /\
  current_playback_frame_count (video_ended cfg s)
    = current_playback_frame_count s /\
  fade_in_frames (video_ended cfg s) = fade_in_frames s.
Proof.
  unfold video_ended. norm_state. destruct (active_tag_id s); auto.
Qed.

Lemma read_and_display_frame_invariant (s : MainState) :
  loop_invariant cfg s ->
  exists s',
    flow_state (read_and_display_frame cfg o s) = Some s' /\
    loop_invariant cfg s'.
Proof.
  intro Hinv. unfold read_and_display_frame, read_and_count.
  destruct (cap_is_open s); [|exists s; split; [reflexivity | exact Hinv]].
  destruct (read_ret o); cbn [negb].
  - destruct (advance_frame_counted s Hinv)
      as (s1 & E1 & Hf1 & HF1 & HC1 & _).
    rewrite E1.
    pose proof (fade_check_safe s s1 Hinv E1) as Hsafe.
    destruct Hinv as (Hfps & Hcount & Hbudget).
    destruct (show_frame_total s1) as (s2 & E2 & Hf2 & HF2 & HC2).
    { rewrite Hf1. exact Hfps. }
    { intro Hle. apply Hsafe. exact Hle. }
    rewrite E2. exists s2. split; [reflexivity|].
    unfold loop_invariant. rewrite Hf2, HF2, HC2, Hf1, HF1, HC1.
    split; [exact Hfps|]. split; [lia | exact Hbudget].
  - exists (video_ended cfg s). split; [reflexivity|].
    unfold loop_invariant in *.
    destruct (video_ended_counters s) as (-> & -> & ->). exact Hinv.
Qed.

(** From a state that satisfies the invariant an iteration never raises,
    and it ends in a state that satisfies the invariant. *)
Lemma iteration_invariant (s : MainState) :
  loop_invariant cfg s ->
  exists s',
    flow_state (iteration cfg o s) = Some s' /\ loop_invariant cfg s'.
Proof.
  intro Hinv. unfold iteration.
  pose proof (process_rfid_events_invariant s Hinv) as H1.
  destruct (manage_video_transitions_total (process_rfid_events cfg s))
    as (s2 & E2).
  pose proof (manage_video_transitions_invariant _ _ H1 E2) as H2.
  destruct (manage_video_transitions cfg o (process_rfid_events cfg s))
    as [s3|s3|e]; cbn [flow_state] in E2; inversion E2; subst s3.
  - apply read_and_display_frame_invariant. exact H2.
  - exists s2. split; [reflexivity | exact H2].
Qed.

End Preservation.

Lemma initial_invariant (cfg : Config) (mixer_ok soundtrack_loaded : bool) :
  loop_invariant cfg (initial_state cfg mixer_ok soundtrack_loaded).
Proof.
  unfold loop_invariant, initial_state. norm_state.
  split; [reflexivity|]. split; [left; lia|].
  intro Hfade. apply NumFacts.int_nonneg.
  apply DoubleFacts.mul_nonneg; [exact Hfade | discriminate].
Qed.

Lemma next_state_flow_state (f : Flow) (s' : MainState) :
  next_state f = Some s' -> flow_state f = Some s'.
Proof.
  destruct f as [s|s|e]; cbn [next_state flow_state];
    try discriminate; destruct (running s); intro E; inversion E; reflexivity.
Qed.

Lemma reachable_invariant (cfg : Config) (s : MainState) :
  reachable cfg s -> loop_invariant cfg s.
Proof.
  induction 1 as [mixer_ok soundtrack_loaded | o s s' _ IH Hnext
                 | is_valid value s _ IH | value s _ IH | s _ IH].
  - apply initial_invariant.
  - destruct (iteration_invariant cfg o s IH) as (s2 & E2 & H2).
    apply next_state_flow_state in Hnext.
    rewrite Hnext in E2. inversion E2; subst. exact H2.
  - exact IH.
  - exact IH.
  - exact IH.
Qed.

End LoopFacts.

(** C10. In every state the loop can reach, and whatever the outside world
    answers: when the iteration gets to the fade check and the check
    passes ([current_playback_frame_count <= fade_in_frames]), the frame
    count is at least 1 and so is the budget, so the division that follows
    is defined; and the iteration as a whole ends without raising. A budget
    that truncates to 0 frames is included: then the check never passes. *)
Theorem fade_division_safe (cfg : Config) (o : Oracle) (s : MainState) :
  reachable cfg s ->
  (forall s',
     reaches_fade_check cfg o s s' ->
     current_playback_frame_count s' <= fade_in_frames s' ->
     1 <= current_playback_frame_count s' /\
     1 <= fade_in_frames s' /\
     blend_alpha (current_playback_frame_count s') (fade_in_frames s')
       = Ok (Qmin (inject_Z (current_playback_frame_count s')
                   / inject_Z (fade_in_frames s')) 1)) /\
  (exists s', flow_state (iteration cfg o s) = Some s').
Proof.
  intro Hreach.
  pose proof (LoopFacts.reachable_invariant cfg s Hreach) as Hinv.
  split.
  - intros s' (s2 & E2 & _ & E3) Hle.
    assert (H2 : loop_invariant cfg s2).
    { apply (LoopFacts.manage_video_transitions_invariant cfg o
               (process_rfid_events cfg s)).
      - apply LoopFacts.process_rfid_events_invariant. exact Hinv.
      - rewrite E2. reflexivity. }
    unfold read_and_count in E3.
    destruct (read_ret o); cbn [negb] in E3; [|discriminate].
    destruct (LoopFacts.fade_check_safe cfg s2 s' H2 E3 Hle) as [Hc HF].
    split; [exact Hc|]. split; [exact HF|].
    apply FadeFacts.blend_alpha_ok. lia.
  - destruct (LoopFacts.iteration_invariant cfg o s Hinv) as (s' & E & _).
    exists s'. exact E.
Qed.

Lemma fade_division_safe_witness :
  reachable Demo.short_fade_cfg (initial_state Demo.short_fade_cfg true true) /\
  fade_in_frames (initial_state Demo.short_fade_cfg true true) = 0 /\
  exists s',
    flow_state
      (iteration Demo.short_fade_cfg Demo.plays
         (initial_state Demo.short_fade_cfg true true)) = Some s'.
Proof.
  split; [apply reach_init|]. split; [reflexivity|].
  apply (fade_division_safe Demo.short_fade_cfg Demo.plays
           (initial_state Demo.short_fade_cfg true true)).
  apply reach_init.
Defined.

(** * Further properties of the code *)

(** ** The fade state machine *)

Module FadeStateFacts.

Import ManageFacts.

Lemma fade_in_block_exact (fd t : Q) mi snd b v d st :
  ((fd == 0)%Q -> (0 <= t)%Q) ->
  fade_in_block t fd (mkAudio mi snd (Some (mkChannel b v)) d st)
  = if FadeState_eqb st FADE_IN
    then Ok (tt,
             mkAudio mi snd (Some (mkChannel b (fade_in_volume fd t))) d
               (if Num.ltb t fd then FADE_IN else PLAYING),
             [mkWrite FADE_IN (fade_in_volume fd t)])
    else Ok (tt, mkAudio mi snd (Some (mkChannel b v)) d st, []).
Proof.
  intro Ht. unfold fade_in_volume.
  destruct st; audio_step; try reflexivity.
  destruct (Num.ltb t fd) eqn:E; audio_step; [|reflexivity].
  apply NumFacts.ltb_lt in E.
  assert (N : Num.eqb fd 0 = false).
  { apply NumFacts.eqb_neq. intro Z0. specialize (Ht Z0).
    rewrite Z0 in E. exact (Qlt_not_le _ _ E Ht). }
  rewrite N. reflexivity.
Qed.

Lemma fade_in_block_skip (fd t : Q) (a : Audio) :
  audio_fade_state a <> FADE_IN ->
  fade_in_block t fd a = Ok (tt, a, []).
Proof.
  intro H. destruct a as [mi snd ch d st]. cbn in H.
  destruct st; audio_step; try reflexivity. contradiction.
Qed.

Lemma fade_out_start_block_exact (fd t : Q) mi snd ch d st :
  fade_out_start_block t (d - fd) (mkAudio mi snd (Some ch) d st)
  = Ok (tt,
        mkAudio mi snd (Some ch) d
          (if FadeState_eqb st PLAYING && fade_out_due fd d t
           then FADE_OUT else st),
        []).
Proof.
  unfold fade_out_due. audio_step.
  destruct st; cbv beta iota; try reflexivity.
  destruct (Num.leb (d - fd) t); cbv beta iota; try reflexivity.
  destruct (Num.ltb 0 d); reflexivity.
Qed.

(** In [FADE_OUT], at or after the start of the fade-out window. *)
Lemma fade_out_block_exact (fd d t : Q) mi snd b v :
  Num.ltb (t - (d - fd)) 0 = false ->
  fade_out_block t fd (d - fd) (mkAudio mi snd (Some (mkChannel b v)) d FADE_OUT)
  = Ok (tt,
        mkAudio mi snd (Some (mkChannel b (fade_out_volume fd d t))) d FADE_OUT,
        [mkWrite FADE_OUT (fade_out_volume fd d t)]).
Proof.
  intro E0. unfold fade_out_volume. audio_step. rewrite E0.
  destruct (Num.ltb (t - (d - fd)) fd) eqn:E1; audio_step; [|reflexivity].
  apply NumFacts.ltb_ge in E0. apply NumFacts.ltb_lt in E1.
  rewrite pos_neqb by (eapply Qle_lt_trans; [exact E0 | exact E1]).
  reflexivity.
Qed.

Lemma fade_out_block_skip (fd start t : Q) (a : Audio) :
  audio_fade_state a <> FADE_OUT ->
  fade_out_block t fd start a = Ok (tt, a, []).
Proof.
  intro H. destruct a as [mi snd ch d st]. cbn in H.
  destruct st; audio_step; try reflexivity. contradiction.
Qed.

(** An update on a busy channel: the state after it is the closed form, the
    channel stays busy, the duration stays, and a fade-out volume is only
    written when the state ends as [FADE_OUT]. *)
Lemma manage_state (fd t : Q) (a : Audio) :
  channel_is_busy a = true ->
  ((fd == 0)%Q -> (0 <= t)%Q) ->
  exists a' ws,
    manage_soundtrack_volume t fd a = Ok (tt, a', ws) /\
    audio_fade_state a'
    = fade_state_after fd (current_video_duration_sec a) t (audio_fade_state a) /\
    channel_is_busy a' = true /\
    current_video_duration_sec a' = current_video_duration_sec a /\
    (audio_fade_state a' <> FADE_OUT -> volumes_written_in FADE_OUT ws = []).
Proof.
  intros B Ht.
  destruct a as [mi snd [[b v]|] d st]; unfold channel_is_busy in B;
    cbn [pygame_mixer_initialized soundtrack_channel busy] in B;
    [|rewrite andb_false_r in B; discriminate].
  assert (Hbusy : channel_is_busy (mkAudio mi snd (Some (mkChannel b v)) d st)
                  = true) by exact B.
  apply andb_true_iff in B. destruct B as [-> ->].
  unfold manage_soundtrack_volume. rewrite Hbusy. cbn [negb].
  cbn [current_video_duration_sec audio_fade_state].
  unfold bind at 1. rewrite (fade_in_block_exact fd t true snd true v d st Ht).
  destruct st; cbn [FadeState_eqb fade_state_after];
    unfold bind at 1; unfold get_duration at 1;
    cbn [current_video_duration_sec];
    unfold bind at 1; rewrite fade_out_start_block_exact;
    cbn [FadeState_eqb andb].
  - (* NONE *)
    rewrite fade_out_block_skip by (cbn; discriminate).
    eexists _, _. split; [reflexivity|]. repeat split.
  - (* FADE_IN *)
    destruct (Num.ltb t fd); cbn [FadeState_eqb andb].
    + rewrite fade_out_block_skip by (cbn; discriminate).
      eexists _, _. split; [reflexivity|]. repeat split.
    + destruct (fade_out_due fd d t).
      * destruct (fade_out_block_writes fd d t true snd
                    (mkChannel true (fade_in_volume fd t)) FADE_OUT)
          as ([b3 v3] & w3 & E3 & Hb3 & _).
        cbn [busy] in Hb3. subst b3. rewrite E3.
        eexists _, _. split; [reflexivity|]. repeat split.
        cbn [audio_fade_state]. congruence.
      * rewrite fade_out_block_skip by (cbn; discriminate).
        eexists _, _. split; [reflexivity|]. repeat split.
  - (* PLAYING *)
    destruct (fade_out_due fd d t).
    + destruct (fade_out_block_writes fd d t true snd (mkChannel true v)
                  FADE_OUT) as ([b3 v3] & w3 & E3 & Hb3 & _).
      cbn [busy] in Hb3. subst b3. rewrite E3.
      eexists _, _. split; [reflexivity|]. repeat split.
      cbn [audio_fade_state]. congruence.
    + rewrite fade_out_block_skip by (cbn; discriminate).
      eexists _, _. split; [reflexivity|]. repeat split.
  - (* FADE_OUT *)
    destruct (fade_out_block_writes fd d t true snd (mkChannel true v)
                FADE_OUT) as ([b3 v3] & w3 & E3 & Hb3 & _).
    cbn [busy] in Hb3. subst b3. rewrite E3.
    eexists _, _. split; [reflexivity|]. repeat split.
    cbn [audio_fade_state]. congruence.
Qed.

Lemma fade_state_after_rank (fd d t : Q) (st : FadeState) :
  fade_rank st <= fade_rank (fade_state_after fd d t st).
Proof.
  destruct st; cbn [fade_state_after fade_rank]; try lia.
  - destruct (Num.ltb t fd); [cbn; lia|].
    destruct (fade_out_due fd d t); cbn; lia.
  - destruct (fade_out_due fd d t); cbn; lia.
Qed.

End FadeStateFacts.

(** X1. A volume update never takes the soundtrack back: the state only
    moves forward along fade-in, playing, fade-out, off; in particular a
    soundtrack that is off stays off, and nothing returns to the fade-in.
    (The update is defined unless the fade duration is zero and the video
    time negative.) *)
Theorem fade_state_never_goes_back (fd t : Q) (a : Audio) :
  ((fd == 0)%Q -> (0 <= t)%Q) ->
  exists a' ws,
    manage_soundtrack_volume t fd a = Ok (tt, a', ws) /\
    fade_rank (audio_fade_state a) <= fade_rank (audio_fade_state a') /\
    (audio_fade_state a = NONE -> audio_fade_state a' = NONE) /\
    (audio_fade_state a' = FADE_IN -> audio_fade_state a = FADE_IN).
Proof.
  intro Ht. destruct (channel_is_busy a) eqn:B.
  - destruct (FadeStateFacts.manage_state fd t a B Ht)
      as (a' & ws & E & Hst & _).
    exists a', ws. split; [exact E|]. rewrite Hst.
    split; [apply FadeStateFacts.fade_state_after_rank|].
    split.
    + intros ->. reflexivity.
    + destruct (audio_fade_state a); cbn [fade_state_after];
        try discriminate; try reflexivity.
      destruct (fade_out_due _ _ _); discriminate.
  - unfold manage_soundtrack_volume. rewrite B. cbn [negb].
    unfold put_fade_state. eexists _, _. split; [reflexivity|].
    cbn [audio_fade_state fade_rank].
    split; [destruct (audio_fade_state a); cbn; lia|].
    split; [reflexivity | discriminate].
Qed.

Lemma fade_state_never_goes_back_witness :
  ((3 # 2 == 0)%Q -> (0 <= 14)%Q) /\
  exists a' ws,
    manage_soundtrack_volume 14 (3 # 2) DemoAudio.fading_out
      = Ok (tt, a', ws) /\
    fade_rank (audio_fade_state DemoAudio.fading_out)
      <= fade_rank (audio_fade_state a').
Proof.
  assert (H : (3 # 2 == 0)%Q -> (0 <= 14)%Q) by (intros _; discriminate).
  split; [exact H|].
  destruct (fade_state_never_goes_back (3 # 2) 14 DemoAudio.fading_out H)
    as (a' & ws & E & R & _).
  exists a', ws. split; [exact E | exact R].
Defined.

(** X2. Overlapping windows. When the fade-in completes ([t >= fade]) at a
    time that is already inside the fade-out window of a video of positive
    duration, one update goes from [FADE_IN] through [PLAYING] to
    [FADE_OUT]: it writes the target volume and then the fade-out volume,
    and the channel is left at the fade-out volume. *)
Theorem overlapping_fade_windows (fd t : Q) (a : Audio) :
  channel_is_busy a = true ->
  audio_fade_state a = FADE_IN ->
  (fd <= t)%Q ->
  (current_video_duration_sec a - fd <= t)%Q ->
  (0 < current_video_duration_sec a)%Q ->
  exists a',
    manage_soundtrack_volume t fd a
      = Ok (tt, a',
            [mkWrite FADE_IN TARGET_SOUNDTRACK_VOLUME;
             mkWrite FADE_OUT
               (fade_out_volume fd (current_video_duration_sec a) t)]) /\
    audio_fade_state a' = FADE_OUT /\
    channel_volume a'
      = Some (fade_out_volume fd (current_video_duration_sec a) t).
Proof.
  intros B Hst Hin Hout Hd.
  destruct a as [mi snd [[b v]|] d st]; unfold channel_is_busy in B;
    cbn [pygame_mixer_initialized soundtrack_channel busy] in B;
    [|rewrite andb_false_r in B; discriminate].
  assert (Hbusy : channel_is_busy (mkAudio mi snd (Some (mkChannel b v)) d st)
                  = true) by exact B.
  cbn [audio_fade_state current_video_duration_sec] in *. subst st.
  assert (Eltb : Num.ltb t fd = false) by (apply NumFacts.ltb_ge; exact Hin).
  assert (Edue : fade_out_due fd d t = true).
  { unfold fade_out_due. apply andb_true_iff. split.
    - apply NumFacts.leb_le. exact Hout.
    - apply NumFacts.ltb_lt. exact Hd. }
  assert (E0 : Num.ltb (t - (d - fd)) 0 = false).
  { apply NumFacts.ltb_ge. apply Qle_minus_iff in Hout. exact Hout. }
  assert (Ht : (fd == 0)%Q -> (0 <= t)%Q).
  { intro Z0. rewrite <- Z0. exact Hin. }
  assert (Efull : fade_in_volume fd t = TARGET_SOUNDTRACK_VOLUME)
    by (unfold fade_in_volume; rewrite Eltb; reflexivity).
  unfold manage_soundtrack_volume. rewrite Hbusy. cbn [negb].
  unfold bind at 1.
  rewrite (FadeStateFacts.fade_in_block_exact fd t mi snd b v d FADE_IN Ht).
  cbn [FadeState_eqb]. rewrite Eltb, Efull.
  unfold bind at 1. unfold get_duration at 1.
  cbn [current_video_duration_sec].
  unfold bind at 1. rewrite FadeStateFacts.fade_out_start_block_exact.
  cbn [FadeState_eqb andb]. rewrite Edue.
  rewrite (FadeStateFacts.fade_out_block_exact fd d t mi snd b _ E0).
  eexists. split; [reflexivity|]. split; reflexivity.
Qed.

Lemma overlapping_fade_windows_witness :
  exists a',
    manage_soundtrack_volume (3 # 2) (3 # 2) DemoAudio.short_video
      = Ok (tt, a',
            [mkWrite FADE_IN TARGET_SOUNDTRACK_VOLUME;
             mkWrite FADE_OUT
               (fade_out_volume (3 # 2)
                  (current_video_duration_sec DemoAudio.short_video) (3 # 2))]) /\
    audio_fade_state a' = FADE_OUT /\
    channel_volume a'
      = Some (fade_out_volume (3 # 2)
                (current_video_duration_sec DemoAudio.short_video) (3 # 2)).
Proof.
  apply (overlapping_fade_windows (3 # 2) (3 # 2) DemoAudio.short_video).
  - reflexivity.
  - reflexivity.
  - discriminate.
  - discriminate.
  - reflexivity.
Defined.

(** X3. An update never switches a playing soundtrack off. On a busy
    channel the state after the update is [NONE] only if it was [NONE]
    before, and the channel stays busy; a soundtrack in [FADE_OUT] stays
    in [FADE_OUT] at every video time, also at and after the end of the
    video, and the update writes at most one volume, tagged [FADE_OUT] and
    between 0 and the target. (The reset of the state at the end of the
    fade-out is commented out in the source: the soundtrack is switched
    off when the channel falls silent or the video is left.) *)
Theorem busy_soundtrack_is_not_switched_off (fd t : Q) (a : Audio) :
  channel_is_busy a = true ->
  ((fd == 0)%Q -> (0 <= t)%Q) ->
  exists a' ws,
    manage_soundtrack_volume t fd a = Ok (tt, a', ws) /\
    channel_is_busy a' = true /\
    (audio_fade_state a' = NONE <-> audio_fade_state a = NONE) /\
    (audio_fade_state a = FADE_OUT ->
     audio_fade_state a' = FADE_OUT /\
     (List.length ws <= 1)%nat /\
     Forall (fun w => written_in w = FADE_OUT /\
                      (0 <= written_volume w <= TARGET_SOUNDTRACK_VOLUME)%Q)
            ws).
Proof.
  intros B Ht.
  destruct (FadeStateFacts.manage_state fd t a B Ht)
    as (a' & ws & E & Hst & Hb & _).
  exists a', ws. split; [exact E|]. split; [exact Hb|].
  split.
  - rewrite Hst. destruct (audio_fade_state a); cbn [fade_state_after].
    + split; reflexivity.
    + destruct (Num.ltb t fd); [split; discriminate|].
      destruct (fade_out_due _ _ _); split; discriminate.
    + destruct (fade_out_due _ _ _); split; discriminate.
    + split; discriminate.
  - intro Hout. split; [rewrite Hst, Hout; reflexivity|].
    destruct a as [mi snd [ch|] d st]; unfold channel_is_busy in B;
      cbn [pygame_mixer_initialized soundtrack_channel] in B;
      [|rewrite andb_false_r in B; discriminate].
    assert (Hbusy : channel_is_busy (mkAudio mi snd (Some ch) d st) = true)
      by exact B.
    cbn [audio_fade_state] in Hout. subst st.
    unfold manage_soundtrack_volume in E. rewrite Hbusy in E.
    cbn [negb] in E. unfold bind at 1 in E.
    rewrite FadeStateFacts.fade_in_block_skip in E by (cbn; discriminate).
    unfold bind at 1 in E. unfold get_duration at 1 in E.
    cbn [current_video_duration_sec] in E.
    unfold bind at 1 in E.
    destruct (ManageFacts.fade_out_start_block_writes t (d - fd) mi snd ch d
                FADE_OUT) as (st2 & E2).
    assert (st2 = FADE_OUT) as ->.
    { revert E2. ManageFacts.audio_step. congruence. }
    rewrite E2 in E.
    destruct (ManageFacts.fade_out_block_writes fd d t mi snd ch FADE_OUT)
      as (ch3 & w3 & E3 & _ & W3).
    rewrite E3 in E. cbn [app] in E.
    assert (ws = w3) as -> by congruence.
    pose proof (AudioFacts.fade_out_volume_range fd d t) as R.
    destruct W3 as [-> | ->]; cbn [List.length]; split; try lia.
    + constructor.
    + constructor; [|constructor]. split; [reflexivity | exact R].
Qed.

Lemma busy_soundtrack_is_not_switched_off_witness :
  exists a' ws,
    manage_soundtrack_volume 15 (3 # 2) DemoAudio.fading_out
      = Ok (tt, a', ws) /\
    channel_is_busy a' = true /\
    audio_fade_state a' = FADE_OUT.
Proof.
  destruct (busy_soundtrack_is_not_switched_off (3 # 2) 15 DemoAudio.fading_out)
    as (a' & ws & E & Hb & _ & Hout); [reflexivity | discriminate |].
  exists a', ws. split; [exact E|]. split; [exact Hb|].
  apply Hout. reflexivity.
Defined.

(** X4. A soundtrack whose video duration is not positive (unknown frame
    count or fps) never fades out: over any run of updates at non-negative
    video times the state never becomes [FADE_OUT] and no fade-out volume
    is written. *)
Theorem unknown_duration_never_fades_out
  (fd : Q) (ticks : list Tick) (a : Audio) :
  (current_video_duration_sec a <= 0)%Q ->
  audio_fade_state a <> FADE_OUT ->
  Forall (fun tk => (0 <= tick_time tk)%Q) ticks ->
  exists a' ws,
    run_updates fd ticks a = Ok (tt, a', ws) /\
    audio_fade_state a' <> FADE_OUT /\
    volumes_written_in FADE_OUT ws = [].
Proof.
  intros Hd Hst Hticks. revert a Hd Hst.
  induction Hticks as [|tk rest Htk _ IH]; intros a Hd Hst.
  - exists a, []. repeat split. exact Hst.
  - cbn [run_updates].
    set (a0 := if tick_silent tk then channel_falls_silent a else a).
    assert (Hd0 : current_video_duration_sec a0 = current_video_duration_sec a)
      by (unfold a0; destruct (tick_silent tk); reflexivity).
    assert (Hst0 : audio_fade_state a0 = audio_fade_state a)
      by (unfold a0; destruct (tick_silent tk); reflexivity).
    assert (Hstep : exists a1 w1,
               manage_soundtrack_volume (tick_time tk) fd a0 = Ok (tt, a1, w1) /\
               (current_video_duration_sec a1 <= 0)%Q /\
               audio_fade_state a1 <> FADE_OUT /\
               volumes_written_in FADE_OUT w1 = []).
    { destruct (channel_is_busy a0) eqn:B.
      - destruct (FadeStateFacts.manage_state fd (tick_time tk) a0 B
                    (fun _ => Htk)) as (a1 & w1 & E1 & S1 & _ & D1 & W1).
        assert (Hno : audio_fade_state a1 <> FADE_OUT).
        { rewrite S1, Hst0, Hd0.
          assert (Edue : fade_out_due fd (current_video_duration_sec a)
                           (tick_time tk) = false).
          { unfold fade_out_due. apply andb_false_iff. right.
            apply NumFacts.ltb_ge. exact Hd. }
          destruct (audio_fade_state a); cbn [fade_state_after];
            rewrite ?Edue; try discriminate; try contradiction.
          destruct (Num.ltb (tick_time tk) fd); discriminate. }
        exists a1, w1. split; [exact E1|].
        split; [rewrite D1, Hd0; exact Hd|]. split; [exact Hno | exact (W1 Hno)].
      - unfold manage_soundtrack_volume. rewrite B. cbn [negb].
        unfold put_fade_state. eexists _, _. split; [reflexivity|].
        cbn [current_video_duration_sec audio_fade_state].
        split; [rewrite Hd0; exact Hd|]. split; [discriminate | reflexivity]. }
    destruct Hstep as (a1 & w1 & E1 & Hd1 & Hst1 & W1).
    destruct (IH a1 Hd1 Hst1) as (a2 & w2 & E2 & Hst2 & W2).
    exists a2, (w1 ++ w2). unfold bind. rewrite E1, E2.
    split; [reflexivity|]. split; [exact Hst2|].
    rewrite ManageFacts.volumes_written_in_app, W1, W2. reflexivity.
Qed.

Lemma unknown_duration_never_fades_out_witness :
  exists a' ws,
    run_updates (3 # 2) Demo.ticks DemoAudio.unknown_duration
      = Ok (tt, a', ws) /\
    audio_fade_state a' <> FADE_OUT /\
    volumes_written_in FADE_OUT ws = [].
Proof.
  apply (unknown_duration_never_fades_out (3 # 2) Demo.ticks
           DemoAudio.unknown_duration).
  - discriminate.
  - discriminate.
  - unfold Demo.ticks.
    repeat constructor; cbn [tick_time]; unfold Qle; simpl; lia.
Defined.

(** X5. After [stop_soundtrack_immediately] the soundtrack is off for good
    until it is started again: a volume update changes nothing and writes
    nothing, and stopping again changes nothing. *)
Theorem stopped_soundtrack_stays_off (t fd : Q) (a : Audio) :
  manage_soundtrack_volume t fd (stop_soundtrack_immediately a)
    = Ok (tt, stop_soundtrack_immediately a, []) /\
  stop_soundtrack_immediately (stop_soundtrack_immediately a)
    = stop_soundtrack_immediately a.
Proof.
  pose proof (StopFacts.stop_silences a) as B.
  split.
  - unfold manage_soundtrack_volume. rewrite B. cbn [negb].
    unfold put_fade_state, stop_soundtrack_immediately.
    destruct (channel_is_busy a); reflexivity.
  - unfold stop_soundtrack_immediately at 1. rewrite B.
    unfold stop_soundtrack_immediately.
    destruct (channel_is_busy a); reflexivity.
Qed.

(** X6. The fade-in is linear from silence. A soundtrack that has just been
    started (mixer and sound available, a channel handed out) is in
    [FADE_IN] with volume 0, and the update at video time [t] with
    [0 <= t < fade] writes [t / fade * TARGET_SOUNDTRACK_VOLUME] and stays
    in [FADE_IN]. *)
Theorem fade_in_is_linear
  (t fd : Q) (video_total_frames : Z) (video_fps : Q) (a : Audio) :
  pygame_mixer_initialized a = true ->
  soundtrack a = true ->
  (0 <= t)%Q ->
  (t < fd)%Q ->
  let started :=
    start_soundtrack_for_video true video_total_frames video_fps a in
  audio_fade_state started = FADE_IN /\
  channel_volume started = Some 0%Q /\
  exists a' v,
    manage_soundtrack_volume t fd started = Ok (tt, a', [mkWrite FADE_IN v]) /\
    (v == t / fd * TARGET_SOUNDTRACK_VOLUME)%Q /\
    audio_fade_state a' = FADE_IN.
Proof.
  intros Hinit Hsnd H0 Hlt started.
  assert (Estart :
            started
            = mkAudio true true (Some (mkChannel true 0))
                (if Num.ltb 0 video_fps
                 then inject_Z video_total_frames / video_fps else 0)%Q
                FADE_IN).
  { unfold started, start_soundtrack_for_video. rewrite Hinit, Hsnd.
    cbn [andb negb].
    destruct (soundtrack_channel a) as [[b v]|] eqn:C; cbn [busy];
      [destruct b|]; unfold channel_stop;
      cbn [pygame_mixer_initialized soundtrack]; rewrite ?Hinit, ?Hsnd;
      reflexivity. }
  rewrite Estart. split; [reflexivity|]. split; [reflexivity|].
  set (d := (if Num.ltb 0 video_fps
             then inject_Z video_total_frames / video_fps else 0)%Q).
  assert (Hbusy : channel_is_busy
                    (mkAudio true true (Some (mkChannel true 0)) d FADE_IN)
                  = true) by reflexivity.
  assert (Eltb : Num.ltb t fd = true) by (apply NumFacts.ltb_lt; exact Hlt).
  assert (Hfd : (0 < fd)%Q) by (apply (Qle_lt_trans _ t); assumption).
  unfold manage_soundtrack_volume. rewrite Hbusy. cbn [negb].
  unfold bind at 1.
  rewrite (FadeStateFacts.fade_in_block_exact fd t true true true 0 d FADE_IN
             (fun _ => H0)).
  cbn [FadeState_eqb]. rewrite Eltb.
  unfold bind at 1. unfold get_duration at 1.
  cbn [current_video_duration_sec].
  unfold bind at 1. rewrite FadeStateFacts.fade_out_start_block_exact.
  cbn [FadeState_eqb andb].
  rewrite FadeStateFacts.fade_out_block_skip by (cbn; discriminate).
  eexists _, _. split; [reflexivity|]. split; [|reflexivity].
  unfold fade_in_volume. rewrite Eltb. apply Q.min_l.
  rewrite <- (Qmult_1_l TARGET_SOUNDTRACK_VOLUME) at 2.
  apply Qmult_le_compat_r; [|apply Qlt_le_weak, AudioFacts.target_volume_pos].
  apply Qlt_le_weak. apply Qlt_shift_div_r; [exact Hfd|].
  rewrite Qmult_1_l. exact Hlt.
Qed.

Lemma fade_in_is_linear_witness :
  audio_fade_state
    (start_soundtrack_for_video true 450 30 DemoAudio.fading_out) = FADE_IN /\
  channel_volume
    (start_soundtrack_for_video true 450 30 DemoAudio.fading_out) = Some 0%Q /\
  exists a' v,
    manage_soundtrack_volume (1 # 2) (3 # 2)
      (start_soundtrack_for_video true 450 30 DemoAudio.fading_out)
      = Ok (tt, a', [mkWrite FADE_IN v]) /\
    (v == (1 # 2) / (3 # 2) * TARGET_SOUNDTRACK_VOLUME)%Q /\
    audio_fade_state a' = FADE_IN.
Proof.
  apply (fade_in_is_linear (1 # 2) (3 # 2) 450 30 DemoAudio.fading_out).
  - reflexivity.
  - reflexivity.
  - discriminate.
  - reflexivity.
Defined.

(** ** What the loop shows and when it loads *)

Module ShowFacts.

Import QueueFacts.

(** Close a case whose recorded conditions contradict each other. *)
Ltac contradictory_case :=
  exfalso;
  repeat match goal with
         | H : ?x = true, H' : context [?x] |- _ => rewrite H in H'
         | H : ?x = false, H' : context [?x] |- _ => rewrite H in H'
         end;
  cbn [negb andb orb] in *; congruence.

(** Use the recorded conditions in the goal. *)
Ltac use_conditions :=
  repeat match goal with
         | H : ?x = true |- context [?x] => rewrite H
         | H : ?x = false |- context [?x] => rewrite H
         end.

Ltac state_cases :=
  split_state_ifs; try contradictory_case; use_conditions.

Section Loaded.

Variable cfg : Config.
Variable o : Oracle.
Variable s : MainState.

Let loaded : MainState :=
  load_opened cfg o (with_cap (Some (VideoCapture o)) s).

Lemma loaded_paths :
  cap loaded = Some (VideoCapture o) /\
  current_video_path_playing loaded = target_video_path s /\
  target_video_path loaded = target_video_path s /\
  target_is_idle loaded = target_is_idle s /\
  running loaded = running s.
Proof.
  unfold loaded, load_opened. norm_state.
  destruct (get_video_properties (Some (VideoCapture o))) as [[[nf nw] nh] nt].
  state_cases; repeat split; reflexivity.
Qed.

Lemma loaded_active_tag_id :
  active_tag_id loaded
  = if target_is_idle s then None
    else find_tag_of_path (valid_tag_video_map cfg) (target_video_path s).
Proof.
  unfold loaded, load_opened. norm_state.
  destruct (get_video_properties (Some (VideoCapture o))) as [[[nf nw] nh] nt].
  state_cases; reflexivity.
Qed.

Lemma loaded_idle_is_silent :
  target_is_idle s = true ->
  audio_fade_state (audio loaded) = NONE /\
  channel_is_busy (audio loaded) = false.
Proof.
  intro Hidle. unfold loaded, load_opened. norm_state.
  destruct (get_video_properties (Some (VideoCapture o))) as [[[nf nw] nh] nt].
  state_cases; (split; [reflexivity|]); apply StopFacts.stop_silences.
Qed.

End Loaded.

Lemma needs_load_false (s : MainState) :
  needs_load s = false ->
  cap_is_open s = true /\
  current_video_path_playing s = target_video_path s.
Proof.
  unfold needs_load, cap_is_open. intro H.
  apply orb_false_iff in H. destruct H as [Hp Hc].
  apply negb_false_iff in Hp. apply String.eqb_eq in Hp.
  destruct (cap s) as [c|]; [|discriminate].
  apply negb_false_iff in Hc. auto.
Qed.

End ShowFacts.

(** X7. Whenever the load step lets the iteration go on to read a frame,
    the capture is open and the video loaded is the target: the loop never
    reads or shows a frame of another video than the target, and the
    [else] branch of step 3 (capture not ready) is never taken. *)
Theorem shown_video_is_target
  (cfg : Config) (o : Oracle) (s s2 : MainState) :
  manage_video_transitions cfg o s = Proceed s2 ->
  cap_is_open s2 = true /\
  current_video_path_playing s2 = target_video_path s2 /\
  read_and_display_frame cfg o s2
  = match read_and_count cfg o s2 with
    | Proceed s3 => show_frame o s3
    | other => other
    end.
Proof.
  intro E.
  assert (H : cap_is_open s2 = true /\
              current_video_path_playing s2 = target_video_path s2).
  { unfold manage_video_transitions in E.
    destruct (needs_load s) eqn:N.
    - destruct (isOpened (VideoCapture o)) eqn:Hopen; cbn [negb] in E;
        [|discriminate].
      inversion E; subst s2.
      destruct (ShowFacts.loaded_paths cfg o s) as (Hc & Hcur & Htgt & _).
      unfold cap_is_open. rewrite Hc, Hcur, Htgt. auto.
    - inversion E; subst s2. apply ShowFacts.needs_load_false. exact N. }
  destruct H as [Hopen Hcur]. split; [exact Hopen|]. split; [exact Hcur|].
  unfold read_and_display_frame. rewrite Hopen. reflexivity.
Qed.

Lemma shown_video_is_target_witness :
  exists s2,
    manage_video_transitions Demo.cfg Demo.plays
      (process_rfid_events Demo.cfg Demo.burst) = Proceed s2 /\
    cap_is_open s2 = true /\
    current_video_path_playing s2 = target_video_path s2.
Proof.
  eexists. split; [vm_compute; reflexivity|].
  match goal with
  | |- cap_is_open ?x = true /\ _ =>
      destruct (shown_video_is_target Demo.cfg Demo.plays
                  (process_rfid_events Demo.cfg Demo.burst) x)
        as (H1 & H2 & _); [vm_compute; reflexivity|]
  end.
  split; [exact H1 | exact H2].
Defined.

(** ** Invariants of the kiosk *)

Module KioskFacts.

Import QueueFacts.
Import ShowFacts.

Lemma map_get_In (m : list (Z * string)) (t : Z) (p : string) :
  map_get m t = Some p -> In (t, p) m.
Proof.
  induction m as [|[k v] rest IH]; cbn [map_get]; [discriminate|].
  destruct (Z.eqb_spec k t) as [->|_].
  - intro E. inversion E. left. reflexivity.
  - intro E. right. exact (IH E).
Qed.

Lemma find_tag_of_path_In (m : list (Z * string)) (p : string) (t : Z) :
  find_tag_of_path m p = Some t -> In (t, p) m.
Proof.
  induction m as [|[k v] rest IH]; cbn [find_tag_of_path]; [discriminate|].
  destruct (String.eqb_spec v p) as [->|_].
  - intro E. inversion E. left. reflexivity.
  - intro E. right. exact (IH E).
Qed.

Section Steps.

Variable cfg : Config.
Variable o : Oracle.

Lemma handle_event_fields (ev : TagEvent) (s : MainState) :
  cap (handle_event cfg ev s) = cap s /\
  audio (handle_event cfg ev s) = audio s /\
  active_tag_id (handle_event cfg ev s) = active_tag_id s /\
  current_video_path_playing (handle_event cfg ev s)
    = current_video_path_playing s /\
  running (handle_event cfg ev s) = running s /\
  ((target_video_path (handle_event cfg ev s) = target_video_path s /\
    target_is_idle (handle_event cfg ev s) = target_is_idle s) \/
   (target_is_idle (handle_event cfg ev s) = false /\
    exists t, In (t, target_video_path (handle_event cfg ev s))
                (valid_tag_video_map cfg))).
Proof.
  unfold handle_event. destruct ev as [t|t]; [|repeat split; auto].
  destruct (tag_differs t (active_tag_id s)); [|repeat split; auto].
  destruct (map_get (valid_tag_video_map cfg) t) as [p|] eqn:G;
    [|repeat split; auto].
  repeat split. right. split; [reflexivity|].
  exists t. apply map_get_In. exact G.
Qed.

Lemma process_rfid_events_fields (s : MainState) :
  cap (process_rfid_events cfg s) = cap s /\
  audio (process_rfid_events cfg s) = audio s /\
  active_tag_id (process_rfid_events cfg s) = active_tag_id s /\
  current_video_path_playing (process_rfid_events cfg s)
    = current_video_path_playing s /\
  running (process_rfid_events cfg s) = running s /\
  ((target_video_path (process_rfid_events cfg s) = target_video_path s /\
    target_is_idle (process_rfid_events cfg s) = target_is_idle s) \/
   (target_is_idle (process_rfid_events cfg s) = false /\
    exists t, In (t, target_video_path (process_rfid_events cfg s))
                (valid_tag_video_map cfg))).
Proof.
  unfold process_rfid_events.
  destruct (rfid_active cfg); [|repeat split; auto].
  destruct (rfid_event_queue s) as [|ev rest]; [repeat split; auto|].
  exact (handle_event_fields ev (with_rfid_event_queue rest s)).
Qed.

Lemma process_rfid_events_kiosk (s : MainState) :
  kiosk_invariant cfg s -> kiosk_invariant cfg (process_rfid_events cfg s).
Proof.
  intros (Hsilent & Hactive & Htarget & Hcurrent).
  destruct (process_rfid_events_fields s)
    as (Ec & Ea & Et & Ecur & _ & Htgt).
  unfold kiosk_invariant, cap_is_open in *. rewrite Ec, Ea, Et, Ecur.
  split; [|split; [exact Hactive | split; [|exact Hcurrent]]].
  - destruct Htgt as [[_ ->] | [-> _]]; [exact Hsilent | discriminate].
  - destruct Htgt as [[-> _] | [_ Hin]]; [exact Htarget | right; exact Hin].
Qed.

Lemma load_failed_kiosk (s : MainState) :
  isOpened (VideoCapture o) = false ->
  kiosk_invariant cfg (load_failed cfg (with_cap (Some (VideoCapture o)) s)).
Proof.
  intro Hclosed. unfold kiosk_invariant, load_failed, cap_is_open.
  norm_state. rewrite Hclosed.
  split; [intros _ H; discriminate|].
  split; [intros t H; discriminate|].
  split; [left; reflexivity | left; reflexivity].
Qed.

Lemma load_opened_kiosk (s : MainState) :
  kiosk_invariant cfg s ->
  kiosk_invariant cfg (load_opened cfg o (with_cap (Some (VideoCapture o)) s)).
Proof.
  intros (_ & _ & Htarget & _).
  destruct (loaded_paths cfg o s) as (Hc & Hcur & Htgt & Hidle & _).
  unfold kiosk_invariant. rewrite Hcur, Htgt, Hidle.
  split; [|split; [|split; [exact Htarget | right; exact Htarget]]].
  - intros Hi _. apply loaded_idle_is_silent. exact Hi.
  - intros t. rewrite loaded_active_tag_id.
    destruct (target_is_idle s); [discriminate|].
    apply find_tag_of_path_In.
Qed.

Lemma manage_video_transitions_kiosk (s s' : MainState) :
  kiosk_invariant cfg s ->
  flow_state (manage_video_transitions cfg o s) = Some s' ->
  kiosk_invariant cfg s'.
Proof.
  intro Hinv. unfold manage_video_transitions.
  destruct (needs_load s).
  - destruct (isOpened (VideoCapture o)) eqn:Hopen; cbn [negb flow_state];
      intro E; inversion E; subst.
    + apply load_opened_kiosk. exact Hinv.
    + apply load_failed_kiosk. exact Hopen.
  - cbn [flow_state]. intro E. inversion E; subst. exact Hinv.
Qed.

Lemma video_ended_kiosk (s : MainState) :
  kiosk_invariant cfg s -> kiosk_invariant cfg (video_ended cfg s).
Proof.
  intros (_ & _ & _ & Hcurrent).
  unfold kiosk_invariant, video_ended, cap_is_open. norm_state.
  destruct (active_tag_id s); norm_state;
    (split; [intros _ _; split;
               [reflexivity | apply StopFacts.stop_silences]|]);
    (split; [intros t H; discriminate|]);
    (split; [left; reflexivity | exact Hcurrent]).
Qed.

(** Counting a frame changes the counter and, for a content target, the
    soundtrack; nothing else. *)
Lemma advance_frame_fields (s s' : MainState) :
  advance_frame cfg s = Proceed s' ->
  cap s' = cap s /\
  active_tag_id s' = active_tag_id s /\
  current_video_path_playing s' = current_video_path_playing s /\
  target_video_path s' = target_video_path s /\
  target_is_idle s' = target_is_idle s /\
  running s' = running s /\
  rfid_event_queue s' = rfid_event_queue s /\
  previous_video_was_content s' = previous_video_was_content s /\
  fade_in_frames s' = fade_in_frames s /\
  current_playback_frame_count s' = current_playback_frame_count s + 1 /\
  (target_is_idle s = true -> audio s' = audio s).
Proof.
  unfold advance_frame. norm_state.
  destruct (target_is_idle s) eqn:Hidle; cbn [negb andb].
  - intro E. inversion E; subst.
    repeat split; intros; norm_state; first [reflexivity | congruence].
  - destruct (Num.ltb 0 (fps s)).
    + destruct (manage_soundtrack_volume _ _ _) as [[[u a] ws]|e];
        intro E; inversion E; subst.
      repeat split; intros; norm_state; first [reflexivity | congruence].
    + intro E. inversion E; subst.
      repeat split; intros; norm_state; first [reflexivity | congruence].
Qed.

Lemma show_frame_fields (s s' : MainState) :
  show_frame o s = Proceed s' ->
  s' = s \/ (s' = with_running false s /\ key_quit o = true).
Proof.
  unfold show_frame.
  destruct (frame_alpha _ _); [|discriminate].
  destruct (Num.eqb (fps s) 0); [discriminate|].
  destruct (key_quit o); intro E; inversion E; auto.
Qed.

Lemma kiosk_invariant_fields (s s' : MainState) :
  cap s' = cap s ->
  active_tag_id s' = active_tag_id s ->
  current_video_path_playing s' = current_video_path_playing s ->
  target_video_path s' = target_video_path s ->
  target_is_idle s' = target_is_idle s ->
  (target_is_idle s = true -> audio s' = audio s) ->
  kiosk_invariant cfg s -> kiosk_invariant cfg s'.
Proof.
  intros Ec Ea Ecur Etgt Eidle Eaudio (Hsilent & Hactive & Htarget & Hcurrent).
  unfold kiosk_invariant, cap_is_open in *.
  rewrite Ec, Ea, Ecur, Etgt, Eidle.
  split; [|auto].
  intros Hi Hopen. rewrite (Eaudio Hi). exact (Hsilent Hi Hopen).
Qed.

Lemma read_and_display_frame_kiosk (s s' : MainState) :
  kiosk_invariant cfg s ->
  flow_state (read_and_display_frame cfg o s) = Some s' ->
  kiosk_invariant cfg s'.
Proof.
  intro Hinv. unfold read_and_display_frame, read_and_count.
  destruct (cap_is_open s);
    [|cbn [flow_state]; intro E; inversion E; subst; exact Hinv].
  destruct (read_ret o); cbn [negb].
  - destruct (advance_frame cfg s) as [s1|s1|e] eqn:E1;
      cbn [flow_state]; [|intro E|discriminate].
    + intro E.
      destruct (advance_frame_fields s s1 E1)
        as (Ec & Ea & Ecur & Etgt & Eidle & _ & _ & _ & _ & _ & Eaudio).
      pose proof (kiosk_invariant_fields s s1 Ec Ea Ecur Etgt Eidle Eaudio Hinv)
        as H1.
      destruct (show_frame o s1) as [s2|s2|e] eqn:E2; cbn [flow_state] in E;
        inversion E; subst.
      * destruct (show_frame_fields s1 s' E2) as [->|[-> _]]; exact H1.
      * unfold show_frame in E2.
        destruct (frame_alpha _ _); [|discriminate].
        destruct (Num.eqb (fps s1) 0); [discriminate|].
        destruct (key_quit o); discriminate.
    + unfold advance_frame in E1.
      destruct (negb _ && _);
        [destruct (manage_soundtrack_volume _ _ _) as [[[u a] ws]|e]|];
        discriminate.
  - cbn [flow_state]. intro E. inversion E; subst.
    apply video_ended_kiosk. exact Hinv.
Qed.

Lemma iteration_kiosk (s s' : MainState) :
  kiosk_invariant cfg s ->
  flow_state (iteration cfg o s) = Some s' ->
  kiosk_invariant cfg s'.
Proof.
  intros Hinv. unfold iteration.
  pose proof (process_rfid_events_kiosk s Hinv) as H1.
  destruct (manage_video_transitions cfg o (process_rfid_events cfg s))
    as [s2|s2|e] eqn:E2.
  - apply read_and_display_frame_kiosk.
    apply (manage_video_transitions_kiosk _ s2 H1). rewrite E2. reflexivity.
  - cbn [flow_state]. intro E. inversion E; subst.
    apply (manage_video_transitions_kiosk _ s' H1). rewrite E2. reflexivity.
  - discriminate.
Qed.

End Steps.

Lemma initial_kiosk (cfg : Config) (mixer_ok soundtrack_loaded : bool) :
  kiosk_invariant cfg (initial_state cfg mixer_ok soundtrack_loaded).
Proof.
  unfold kiosk_invariant, initial_state, cap_is_open. norm_state.
  split; [intros _ H; discriminate|].
  split; [intros t H; discriminate|].
  split; [left; reflexivity | left; reflexivity].
Qed.

Lemma reachable_kiosk (cfg : Config) (s : MainState) :
  reachable cfg s -> kiosk_invariant cfg s.
Proof.
  induction 1 as [mixer_ok soundtrack_loaded | o s s' _ IH Hnext
                 | is_valid value s _ IH | value s _ IH | s _ IH].
  - apply initial_kiosk.
  - apply (iteration_kiosk cfg o s s' IH).
    apply LoopFacts.next_state_flow_state. exact Hnext.
  - exact IH.
  - exact IH.
  - destruct IH as (Hsilent & Hactive & Htarget & Hcurrent).
    unfold kiosk_invariant, cap_is_open in *. norm_state.
    split; [|auto].
    intros Hi Hopen. destruct (Hsilent Hi Hopen) as [Hst Hbusy].
    split; [exact Hst|].
    unfold channel_falls_silent, channel_stop, channel_is_busy.
    cbn [pygame_mixer_initialized soundtrack_channel].
    destruct (soundtrack_channel (audio s)); cbn [busy]; apply andb_false_r.
Qed.

End KioskFacts.

(** X8. No soundtrack under the idle video. In every state the kiosk can
    reach, while the target is the idle one and a capture is open, the
    soundtrack state is [NONE] and the channel is not busy. *)
Theorem idle_video_is_silent (cfg : Config) (s : MainState) :
  reachable cfg s ->
  target_is_idle s = true ->
  cap_is_open s = true ->
  audio_fade_state (audio s) = NONE /\ channel_is_busy (audio s) = false.
Proof.
  intros Hreach Hidle Hopen.
  destruct (KioskFacts.reachable_kiosk cfg s Hreach) as (Hsilent & _).
  exact (Hsilent Hidle Hopen).
Qed.

Lemma idle_video_is_silent_witness :
  reachable Demo.cfg Demo.idle_playing /\
  target_is_idle Demo.idle_playing = true /\
  cap_is_open Demo.idle_playing = true /\
  audio_fade_state (audio Demo.idle_playing) = NONE /\
  channel_is_busy (audio Demo.idle_playing) = false.
Proof.
  split; [exact DemoFacts.idle_playing_reachable|].
  split; [reflexivity|]. split; [reflexivity|].
  apply (idle_video_is_silent Demo.cfg Demo.idle_playing).
  - exact DemoFacts.idle_playing_reachable.
  - reflexivity.
  - reflexivity.
Defined.

(** X9. The active tag is always a tag of the validated map, and the video
    loaded is that tag's video. *)
Theorem active_tag_is_mapped (cfg : Config) (s : MainState) (t : Z) :
  reachable cfg s ->
  active_tag_id s = Some t ->
  In (t, current_video_path_playing s) (valid_tag_video_map cfg).
Proof.
  intros Hreach Hactive.
  destruct (KioskFacts.reachable_kiosk cfg s Hreach) as (_ & H & _).
  exact (H t Hactive).
Qed.

Lemma active_tag_is_mapped_witness :
  reachable Demo.cfg Demo.content_playing /\
  active_tag_id Demo.content_playing = Some 418 /\
  In (418, current_video_path_playing Demo.content_playing)
    (valid_tag_video_map Demo.cfg).
Proof.
  split; [exact DemoFacts.content_playing_reachable|].
  split; [reflexivity|].
  apply (active_tag_is_mapped Demo.cfg Demo.content_playing 418).
  - exact DemoFacts.content_playing_reachable.
  - reflexivity.
Defined.

(** X10. The kiosk only ever opens configured videos: in every reachable
    state, and after the event step of the next iteration, the target (the
    path handed to [cv2.VideoCapture]) is the idle video or a video of the
    validated map; and the path loaded is empty or such a path. *)
Theorem only_configured_videos (cfg : Config) (s : MainState) :
  reachable cfg s ->
  configured_path cfg (target_video_path s) /\
  configured_path cfg (target_video_path (process_rfid_events cfg s)) /\
  (current_video_path_playing s = EmptyString \/
   configured_path cfg (current_video_path_playing s)).
Proof.
  intro Hreach.
  pose proof (KioskFacts.reachable_kiosk cfg s Hreach) as Hinv.
  destruct (KioskFacts.process_rfid_events_kiosk cfg s Hinv)
    as (_ & _ & Hnext & _).
  destruct Hinv as (_ & _ & Htarget & Hcurrent).
  auto.
Qed.

Lemma only_configured_videos_witness :
  reachable Demo.cfg Demo.burst /\
  configured_path Demo.cfg
    (target_video_path (process_rfid_events Demo.cfg Demo.burst)).
Proof.
  split; [exact DemoFacts.burst_reachable|].
  apply (only_configured_videos Demo.cfg Demo.burst).
  exact DemoFacts.burst_reachable.
Defined.

(** ** When the loop loads *)

Module ReloadFacts.

Import QueueFacts.

Section Steps.

Variable cfg : Config.
Variable o : Oracle.

Lemma video_ended_closed (s : MainState) :
  cap_is_open (video_ended cfg s) = false /\
  target_video_path (video_ended cfg s) = idle_video_full_path cfg /\
  target_is_idle (video_ended cfg s) = true /\
  active_tag_id (video_ended cfg s) = None /\
  running (video_ended cfg s) = running s /\
  current_video_path_playing (video_ended cfg s)
    = current_video_path_playing s.
Proof.
  unfold video_ended, cap_is_open. norm_state.
  destruct (active_tag_id s); norm_state;
    destruct (cap s); repeat split; reflexivity.
Qed.

Lemma load_failed_closed (s : MainState) :
  isOpened (VideoCapture o) = false ->
  let s' := load_failed cfg (with_cap (Some (VideoCapture o)) s) in
  cap_is_open s' = false /\
  target_video_path s' = idle_video_full_path cfg /\
  target_is_idle s' = true /\
  active_tag_id s' = None /\
  running s' = running s.
Proof.
  intro Hclosed. unfold load_failed, cap_is_open. norm_state.
  rewrite Hclosed. repeat split; reflexivity.
Qed.

(** An iteration that ends with [continue] ends with the capture closed,
    idle as target, no active tag, and [running] as it was. *)
Lemma continue_closed (s s' : MainState) :
  iteration cfg o s = Continue s' ->
  cap_is_open s' = false /\
  target_video_path s' = idle_video_full_path cfg /\
  target_is_idle s' = true /\
  active_tag_id s' = None /\
  running s' = running s.
Proof.
  unfold iteration.
  destruct (KioskFacts.process_rfid_events_fields cfg s)
    as (_ & _ & _ & _ & Hrun & _).
  destruct (manage_video_transitions cfg o (process_rfid_events cfg s))
    as [s2|s2|e] eqn:E2; [| |discriminate].
  - (* the load step went through *)
    assert (Hrun2 : running s2 = running s).
    { unfold manage_video_transitions in E2.
      destruct (needs_load _).
      - destruct (isOpened (VideoCapture o)); cbn [negb] in E2;
          [|discriminate].
        inversion E2; subst s2.
        destruct (ShowFacts.loaded_paths cfg o (process_rfid_events cfg s))
          as (_ & _ & _ & _ & ->). exact Hrun.
      - inversion E2; subst s2. exact Hrun. }
    unfold read_and_display_frame, read_and_count.
    destruct (cap_is_open s2); [|discriminate].
    destruct (read_ret o); cbn [negb].
    + destruct (advance_frame cfg s2) as [s3|s3|e] eqn:E3;
        [| |discriminate].
      * unfold show_frame.
        destruct (frame_alpha _ _); [|discriminate].
        destruct (Num.eqb (fps s3) 0); [discriminate|].
        destruct (key_quit o); discriminate.
      * unfold advance_frame in E3.
        destruct (negb _ && _);
          [destruct (manage_soundtrack_volume _ _ _) as [[[u a] ws]|e]|];
          discriminate.
    + intro E. inversion E; subst s'.
      destruct (video_ended_closed s2) as (H1 & H2 & H3 & H4 & H5 & _).
      rewrite H5, Hrun2. auto.
  - (* the file did not open *)
    intro E. inversion E; subst s'.
    unfold manage_video_transitions in E2.
    destruct (needs_load _); [|discriminate].
    destruct (isOpened (VideoCapture o)) eqn:Hopen; cbn [negb] in E2;
      [discriminate|].
    inversion E2; subst s2.
    destruct (load_failed_closed (process_rfid_events cfg s) Hopen)
      as (H1 & H2 & H3 & H4 & H5).
    rewrite H5, Hrun. auto.
Qed.

(** An iteration that ends by falling through ends with the capture open
    on the target. *)
Lemma proceed_open (s s' : MainState) :
  iteration cfg o s = Proceed s' ->
  cap_is_open s' = true /\
  current_video_path_playing s' = target_video_path s'.
Proof.
  unfold iteration.
  destruct (manage_video_transitions cfg o (process_rfid_events cfg s))
    as [s2|s2|e] eqn:E2; [|discriminate|discriminate].
  assert (H2 : cap_is_open s2 = true /\
               current_video_path_playing s2 = target_video_path s2).
  { unfold manage_video_transitions in E2.
    destruct (needs_load _) eqn:N.
    - destruct (isOpened (VideoCapture o)) eqn:Hopen; cbn [negb] in E2;
        [|discriminate].
      inversion E2; subst s2.
      destruct (ShowFacts.loaded_paths cfg o (process_rfid_events cfg s))
        as (Hc & Hcur & Htgt & _).
      unfold cap_is_open. rewrite Hc, Hcur, Htgt. auto.
    - inversion E2; subst s2. apply ShowFacts.needs_load_false. exact N. }
  destruct H2 as [Hopen Hcur].
  unfold read_and_display_frame, read_and_count. rewrite Hopen.
  destruct (read_ret o); cbn [negb]; [|discriminate].
  destruct (advance_frame cfg s2) as [s3|s3|e] eqn:E3;
    [|discriminate|discriminate].
  destruct (KioskFacts.advance_frame_fields cfg s2 s3 E3)
    as (Ec & _ & Ecur & Etgt & _).
  intro E.
  destruct (KioskFacts.show_frame_fields o s3 s' E) as [->|[-> _]];
    unfold cap_is_open in *; norm_state; rewrite Ec, Ecur, Etgt; auto.
Qed.

End Steps.

Lemma reachable_playing_target (cfg : Config) (s : MainState) :
  reachable cfg s -> playing_target s.
Proof.
  induction 1 as [mixer_ok soundtrack_loaded | o s s' _ IH Hnext
                 | is_valid value s _ IH | value s _ IH | s _ IH].
  - split; [reflexivity | intro H; discriminate].
  - unfold next_state in Hnext.
    destruct (iteration cfg o s) as [s2|s2|e] eqn:E; [| |discriminate].
    + destruct (running s2) eqn:R; [|discriminate].
      inversion Hnext; subst s2. split; [exact R|].
      intros _. apply (proceed_open cfg o s s' E).
    + destruct (running s2) eqn:R; [|discriminate].
      inversion Hnext; subst s2. split; [exact R|].
      intro Hopen. destruct (continue_closed cfg o s s' E) as (Hc & _).
      congruence.
  - exact IH.
  - exact IH.
  - exact IH.
Qed.

End ReloadFacts.

(** X11. A video that plays is reloaded only when a tag event changes the
    target path. In a reachable state with an open capture, if the event
    step leaves the target path as it is (no event, an invalid tag, the
    active tag, an unmapped tag, or a tag mapped to the same file), the
    load step does not load. *)
Theorem no_reload_without_new_target (cfg : Config) (s : MainState) :
  reachable cfg s ->
  cap_is_open s = true ->
  target_video_path (process_rfid_events cfg s) = target_video_path s ->
  needs_load (process_rfid_events cfg s) = false /\
  forall o,
    manage_video_transitions cfg o (process_rfid_events cfg s)
    = Proceed (process_rfid_events cfg s).
Proof.
  intros Hreach Hopen Hsame.
  destruct (ReloadFacts.reachable_playing_target cfg s Hreach) as [_ Hplay].
  destruct (KioskFacts.process_rfid_events_fields cfg s)
    as (Ec & _ & _ & Ecur & _).
  assert (N : needs_load (process_rfid_events cfg s) = false).
  { unfold needs_load, cap_is_open in *. rewrite Ec, Ecur, Hsame.
    rewrite (Hplay Hopen), String.eqb_refl.
    destruct (cap s) as [c|]; [|discriminate]. rewrite Hopen. reflexivity. }
  split; [exact N|].
  intro o. unfold manage_video_transitions. rewrite N. reflexivity.
Qed.

Lemma no_reload_without_new_target_witness :
  reachable Demo.cfg (card_inserted true 418 Demo.content_playing) /\
  needs_load
    (process_rfid_events Demo.cfg (card_inserted true 418 Demo.content_playing))
  = false.
Proof.
  assert (R : reachable Demo.cfg (card_inserted true 418 Demo.content_playing)).
  { apply reach_card_inserted. exact DemoFacts.content_playing_reachable. }
  split; [exact R|].
  apply (no_reload_without_new_target Demo.cfg
           (card_inserted true 418 Demo.content_playing) R);
    reflexivity.
Defined.

(** X12. Every fallback forces a fresh load. An iteration that ends with
    [continue] (the file did not open, or the read gave no frame) ends with
    the capture closed, idle as target and no active tag; whatever tag
    events arrive, the next iteration attempts a load. A quit key pressed
    during such an iteration is not seen: [running] stays as it was. *)
Theorem fallback_forces_load
  (cfg : Config) (o : Oracle) (s s' : MainState) :
  iteration cfg o s = Continue s' ->
  cap_is_open s' = false /\
  target_video_path s' = idle_video_full_path cfg /\
  target_is_idle s' = true /\
  active_tag_id s' = None /\
  running s' = running s /\
  forall q, needs_load
              (process_rfid_events cfg (with_rfid_event_queue q s')) = true.
Proof.
  intro E.
  destruct (ReloadFacts.continue_closed cfg o s s' E)
    as (Hc & Ht & Hi & Ha & Hr).
  repeat split; try assumption.
  intro q.
  destruct (KioskFacts.process_rfid_events_fields cfg
              (with_rfid_event_queue q s')) as (Ec & _).
  unfold needs_load, cap_is_open in *. rewrite Ec.
  cbn [cap with_rfid_event_queue].
  destruct (cap s') as [c|]; [|apply orb_true_r].
  rewrite Hc. apply orb_true_r.
Qed.

Lemma fallback_forces_load_witness :
  exists s',
    iteration Demo.cfg (mkOracle Demo.broken true true true) Demo.content_ended
      = Continue s' /\
    cap_is_open s' = false /\
    running s' = running Demo.content_ended.
Proof.
  eexists. split; [vm_compute; reflexivity|].
  match goal with
  | |- cap_is_open ?x = false /\ _ =>
      destruct (fallback_forces_load Demo.cfg
                  (mkOracle Demo.broken true true true) Demo.content_ended x)
        as (H1 & _ & _ & _ & H5 & _); [vm_compute; reflexivity|]
  end.
  split; [exact H1 | exact H5].
Defined.

(** ** More on the event poll *)

Module PollMoreFacts.

Import QueueFacts.

Lemma requeue_same (s : MainState) :
  with_rfid_event_queue (rfid_event_queue s) s = s.
Proof. destruct s; reflexivity. Qed.

Lemma process_empty (cfg : Config) (s : MainState) :
  rfid_event_queue s = [] -> process_rfid_events cfg s = s.
Proof.
  intro H. unfold process_rfid_events. rewrite H.
  destruct (rfid_active cfg); reflexivity.
Qed.

(** An iteration is the steps after the poll, run on the polled state. *)
Lemma iteration_requeue (cfg : Config) (o : Oracle) (q : list TagEvent)
  (s : MainState) :
  process_rfid_events cfg s = with_rfid_event_queue q s ->
  iteration cfg o s
  = requeue q (iteration cfg o (with_rfid_event_queue [] s)).
Proof.
  intro E. unfold iteration. rewrite E.
  rewrite (process_empty cfg (with_rfid_event_queue [] s)) by reflexivity.
  change (with_rfid_event_queue q s)
    with (with_rfid_event_queue q (with_rfid_event_queue [] s)).
  apply (after_poll_requeue cfg o q).
Qed.

(** An iteration that polls [ev] is the steps after the poll, run on the
    state with [ev] applied. *)
Lemma iteration_cons (cfg : Config) (o : Oracle) (s : MainState)
  (ev : TagEvent) (rest : list TagEvent) :
  rfid_active cfg = true ->
  rfid_event_queue s = ev :: rest ->
  iteration cfg o s
  = requeue rest
      (iteration cfg o (with_rfid_event_queue [] (handle_event cfg ev s))).
Proof.
  intros Hactive Hq.
  unfold iteration, process_rfid_events at 1. rewrite Hactive, Hq.
  rewrite handle_event_requeue.
  rewrite (process_empty cfg
             (with_rfid_event_queue [] (handle_event cfg ev s)))
    by reflexivity.
  change (with_rfid_event_queue rest (handle_event cfg ev s))
    with (with_rfid_event_queue rest
            (with_rfid_event_queue [] (handle_event cfg ev s))).
  apply (after_poll_requeue cfg o rest).
Qed.

End PollMoreFacts.

(** X13. An invalid tag changes nothing. An iteration that dequeues a
    [TAG_INVALID] event does exactly what it would do with an empty queue;
    the rest of the queue stays. *)
Theorem invalid_tag_is_ignored
  (cfg : Config) (o : Oracle) (s : MainState)
  (value : Z) (rest : list TagEvent) :
  rfid_active cfg = true ->
  rfid_event_queue s = TAG_INVALID value :: rest ->
  iteration cfg o s
  = requeue rest (iteration cfg o (with_rfid_event_queue [] s)).
Proof.
  intros Hactive Hq. apply PollMoreFacts.iteration_requeue.
  unfold process_rfid_events. rewrite Hactive, Hq. reflexivity.
Qed.

Lemma invalid_tag_is_ignored_witness :
  rfid_active Demo.cfg = true /\
  rfid_event_queue (invalid_card 7 Demo.content_playing) = [TAG_INVALID 7] /\
  iteration Demo.cfg Demo.plays (invalid_card 7 Demo.content_playing)
  = requeue []
      (iteration Demo.cfg Demo.plays
         (with_rfid_event_queue [] (invalid_card 7 Demo.content_playing))).
Proof.
  split; [reflexivity|]. split; [reflexivity|].
  apply (invalid_tag_is_ignored Demo.cfg Demo.plays
           (invalid_card 7 Demo.content_playing) 7 []); reflexivity.
Defined.

(** X14. Without an active reader the queue is never polled: the iteration
    does what it would do with an empty queue, and whatever is queued stays
    queued. *)
Theorem inactive_reader_never_polls
  (cfg : Config) (o : Oracle) (s : MainState) :
  rfid_active cfg = false ->
  iteration cfg o s
  = requeue (rfid_event_queue s)
      (iteration cfg o (with_rfid_event_queue [] s)) /\
  forall s', flow_state (iteration cfg o s) = Some s' ->
             rfid_event_queue s' = rfid_event_queue s.
Proof.
  intro Hinactive.
  assert (E : iteration cfg o s
              = requeue (rfid_event_queue s)
                  (iteration cfg o (with_rfid_event_queue [] s))).
  { apply PollMoreFacts.iteration_requeue.
    unfold process_rfid_events. rewrite Hinactive.
    symmetry. apply PollMoreFacts.requeue_same. }
  split; [exact E|].
  intros s' Hs'. rewrite E in Hs'.
  exact (QueueFacts.requeue_queue _ _ _ Hs').
Qed.

(** X15. A tag that arrives while events are pending does not disturb the
    iteration: the iteration ends in the same state, with the new event
    appended to the queue. *)
Theorem arrival_behind_pending_events
  (cfg : Config) (o : Oracle) (s s' : MainState)
  (is_valid : bool) (value : Z) :
  rfid_event_queue s <> [] ->
  flow_state (iteration cfg o s) = Some s' ->
  flow_state (iteration cfg o (card_inserted is_valid value s))
  = Some (card_inserted is_valid value s').
Proof.
  intros Hne Hs'.
  destruct (rfid_event_queue s) as [|ev rest] eqn:Hq; [contradiction|].
  set (e := if is_valid then TAG_INSERTED value else TAG_INVALID value).
  set (f := iteration cfg o (with_rfid_event_queue [] (handle_event cfg ev s))).
  destruct (rfid_active cfg) eqn:Hactive.
  - assert (E1 : iteration cfg o s = requeue rest f)
      by (apply PollMoreFacts.iteration_cons; assumption).
    assert (E2 : iteration cfg o (card_inserted is_valid value s)
                 = requeue (rest ++ [e]) f).
    { rewrite (PollMoreFacts.iteration_cons cfg o
                 (card_inserted is_valid value s) ev (rest ++ [e]) Hactive).
      - unfold card_inserted. rewrite QueueFacts.handle_event_requeue.
        reflexivity.
      - unfold card_inserted. cbn [rfid_event_queue with_rfid_event_queue].
        rewrite Hq. reflexivity. }
    rewrite E1 in Hs'. rewrite E2.
    destruct f as [x|x|x]; cbn [requeue flow_state] in *;
      inversion Hs'; subst s'; reflexivity.
  - set (g := iteration cfg o (with_rfid_event_queue [] s)).
    assert (E1 : iteration cfg o s = requeue (ev :: rest) g).
    { unfold g. rewrite <- Hq. apply PollMoreFacts.iteration_requeue.
      unfold process_rfid_events. rewrite Hactive.
      symmetry. apply PollMoreFacts.requeue_same. }
    assert (E2 : iteration cfg o (card_inserted is_valid value s)
                 = requeue ((ev :: rest) ++ [e]) g).
    { unfold g.
      rewrite (PollMoreFacts.iteration_requeue cfg o ((ev :: rest) ++ [e])
                 (card_inserted is_valid value s)).
      - reflexivity.
      - unfold process_rfid_events. rewrite Hactive.
        unfold card_inserted. rewrite Hq. reflexivity. }
    rewrite E1 in Hs'. rewrite E2.
    destruct g as [x|x|x]; cbn [requeue flow_state] in *;
      inversion Hs'; subst s'; reflexivity.
Qed.

Lemma arrival_behind_pending_events_witness :
  exists s',
    rfid_event_queue Demo.burst <> [] /\
    flow_state (iteration Demo.cfg Demo.plays Demo.burst) = Some s' /\
    flow_state
      (iteration Demo.cfg Demo.plays (card_inserted true 99 Demo.burst))
    = Some (card_inserted true 99 s').
Proof.
  eexists. split; [discriminate|].
  split; [vm_compute; reflexivity|].
  apply (arrival_behind_pending_events Demo.cfg Demo.plays Demo.burst).
  - discriminate.
  - vm_compute. reflexivity.
Defined.

Lemma inactive_reader_never_polls_witness :
  rfid_active DemoReader.no_reader_cfg = false /\
  forall s',
    flow_state
      (iteration DemoReader.no_reader_cfg Demo.plays DemoReader.pending)
    = Some s' ->
    rfid_event_queue s' = rfid_event_queue DemoReader.pending.
Proof.
  split; [reflexivity|].
  apply (inactive_reader_never_polls DemoReader.no_reader_cfg Demo.plays
           DemoReader.pending).
  reflexivity.
Defined.

(** ** From one video to the next *)

(** X16. The idle video fades in only after content. When the video that
    plays runs out (no tag event pending) and the idle video then opens,
    the idle video is loaded with the frame counter at 0 (fade-in) if a tag
    was active, and at [fade_in_frames + 1] (no fade) if the idle video
    itself had run out; either way the flag is cleared. *)
Theorem idle_fades_in_only_after_content
  (cfg : Config) (o1 o2 : Oracle) (s : MainState) :
  needs_load s = false ->
  rfid_event_queue s = [] ->
  read_ret o1 = false ->
  isOpened (VideoCapture o2) = true ->
  exists s1 s2,
    iteration cfg o1 s = Continue s1 /\
    manage_video_transitions cfg o2 (process_rfid_events cfg s1)
      = Proceed s2 /\
    current_video_path_playing s2 = idle_video_full_path cfg /\
    current_playback_frame_count s2
      = match active_tag_id s with
        | Some _ => 0
        | None => fade_in_frames s2 + 1
        end /\
    previous_video_was_content s2 = false.
Proof.
  intros Hplaying Hq Hret Hopen2.
  destruct (ShowFacts.needs_load_false s Hplaying) as [Hopen _].
  assert (E1 : iteration cfg o1 s = Continue (video_ended cfg s)).
  { unfold iteration. rewrite (PollMoreFacts.process_empty cfg s Hq).
    unfold manage_video_transitions. rewrite Hplaying.
    unfold read_and_display_frame, read_and_count. rewrite Hopen, Hret.
    reflexivity. }
  set (s1 := video_ended cfg s).
  assert (Hq1 : rfid_event_queue s1 = []).
  { unfold s1, video_ended. QueueFacts.norm_state.
    destruct (active_tag_id s); exact Hq. }
  destruct (ReloadFacts.video_ended_closed cfg s)
    as (Hclosed & Htgt & _ & _ & _ & _).
  fold s1 in Hclosed, Htgt.
  assert (Hprev : previous_video_was_content s1
                  = match active_tag_id s with
                    | Some _ => true
                    | None => false
                    end).
  { unfold s1, video_ended. QueueFacts.norm_state.
    destruct (active_tag_id s); reflexivity. }
  assert (Hload : needs_load s1 = true).
  { unfold needs_load, cap_is_open in *.
    destruct (cap s1) as [c|]; [|apply orb_true_r].
    rewrite Hclosed. apply orb_true_r. }
  exists s1, (load_opened cfg o2 (with_cap (Some (VideoCapture o2)) s1)).
  split; [exact E1|].
  rewrite (PollMoreFacts.process_empty cfg s1 Hq1).
  split.
  { unfold manage_video_transitions. rewrite Hload, Hopen2. reflexivity. }
  destruct (ShowFacts.loaded_paths cfg o2 s1) as (_ & Hcur & _).
  rewrite Hcur, Htgt. split; [reflexivity|].
  rewrite (LoadFacts.loaded_frame_count cfg o2 s1 Hopen2).
  rewrite (LoadFacts.loaded_previous_video_was_content cfg o2 s1 Hopen2).
  rewrite Htgt, String.eqb_refl, Hprev.
  split; [destruct (active_tag_id s); reflexivity | reflexivity].
Qed.

Lemma idle_fades_in_only_after_content_witness :
  exists s1 s2,
    iteration Demo.cfg Demo.ends Demo.content_playing = Continue s1 /\
    manage_video_transitions Demo.cfg Demo.plays
      (process_rfid_events Demo.cfg s1) = Proceed s2 /\
    current_video_path_playing s2 = idle_video_full_path Demo.cfg /\
    current_playback_frame_count s2
      = match active_tag_id Demo.content_playing with
        | Some _ => 0
        | None => fade_in_frames s2 + 1
        end /\
    previous_video_was_content s2 = false.
Proof.
  apply (idle_fades_in_only_after_content Demo.cfg Demo.ends Demo.plays
           Demo.content_playing); reflexivity.
Defined.



(** ** Configuration and start-up *)

Module DictFacts.

Lemma map_get_dict_set_same (m : list (Z * string)) (k : Z) (v : string) :
  map_get (dict_set m k v) k = Some v.
Proof.
  induction m as [|[k' v'] rest IH]; cbn [dict_set map_get].
  - rewrite Z.eqb_refl. reflexivity.
  - destruct (Z.eqb_spec k' k) as [->|N]; cbn [map_get].
    + rewrite Z.eqb_refl. reflexivity.
    + destruct (Z.eqb_spec k' k); [contradiction | exact IH].
Qed.

Lemma map_get_dict_set_other (m : list (Z * string)) (k t : Z) (v : string) :
  t <> k -> map_get (dict_set m k v) t = map_get m t.
Proof.
  intro N. induction m as [|[k' v'] rest IH]; cbn [dict_set map_get].
  - destruct (Z.eqb_spec k t); [congruence | reflexivity].
  - destruct (Z.eqb_spec k' k) as [->|N']; cbn [map_get].
    + destruct (Z.eqb_spec k t); [congruence | reflexivity].
    + destruct (Z.eqb_spec k' t); [reflexivity | exact IH].
Qed.

Lemma dict_set_keys (m : list (Z * string)) (k x : Z) (v : string) :
  In x (map fst (dict_set m k v)) <-> x = k \/ In x (map fst m).
Proof.
  induction m as [|[k' v'] rest IH]; cbn [dict_set map fst In].
  - intuition.
  - destruct (Z.eqb_spec k' k) as [->|N]; cbn [map fst In].
    + intuition.
    + rewrite IH. intuition.
Qed.

Lemma dict_set_NoDup (m : list (Z * string)) (k : Z) (v : string) :
  NoDup (map fst m) -> NoDup (map fst (dict_set m k v)).
Proof.
  induction m as [|[k' v'] rest IH]; cbn [dict_set map fst]; intro H.
  - constructor; [intros [] | constructor].
  - inversion H as [|? ? Hnotin Hrest]; subst.
    destruct (Z.eqb_spec k' k) as [->|N]; cbn [map fst].
    + constructor; assumption.
    + constructor; [|exact (IH Hrest)].
      rewrite dict_set_keys. intros [E | Hin]; [congruence | contradiction].
Qed.

Lemma dict_set_Forall (P : Z * string -> Prop) (m : list (Z * string))
  (k : Z) (v : string) :
  Forall P m -> P (k, v) -> Forall P (dict_set m k v).
Proof.
  intros Hm Hkv. induction Hm as [|[k' v'] rest Hx Hrest IH]; cbn [dict_set].
  - constructor; [exact Hkv | constructor].
  - destruct (Z.eqb k' k); constructor; assumption.
Qed.

Lemma map_get_None_not_key (m : list (Z * string)) (t : Z) :
  ~ In t (map fst m) -> map_get m t = None.
Proof.
  induction m as [|[k v] rest IH]; cbn [map_get map fst In]; [reflexivity|].
  intro H. destruct (Z.eqb_spec k t); [exfalso; auto | apply IH; auto].
Qed.

End DictFacts.

Module StartupFacts.

Import DictFacts.

Section Build.

Variable path_exists : string -> bool.
Variable MEDIA_FOLDER : string.

Let step (valid : list (Z * string)) (entry : Z * string) :=
  let '(tag_id_int, video_filename) := entry in
  let path := path_join MEDIA_FOLDER video_filename in
  if path_exists path then dict_set valid tag_id_int path else valid.

Lemma build_from_get (m acc : list (Z * string)) (t : Z) :
  NoDup (map fst m) ->
  map_get (fold_left step m acc) t
  = match map_get m t with
    | Some f =>
        if path_exists (path_join MEDIA_FOLDER f)
        then Some (path_join MEDIA_FOLDER f)
        else map_get acc t
    | None => map_get acc t
    end.
Proof.
  revert acc. induction m as [|[k f] rest IH]; intros acc Hnd;
    cbn [fold_left map_get]; [reflexivity|].
  cbn [map fst] in Hnd. inversion Hnd as [|? ? Hnotin Hrest]; subst.
  rewrite (IH _ Hrest). unfold step.
  destruct (Z.eqb_spec k t) as [->|N].
  - rewrite (map_get_None_not_key rest t Hnotin).
    destruct (path_exists (path_join MEDIA_FOLDER f));
      [apply map_get_dict_set_same | reflexivity].
  - destruct (map_get rest t) as [f'|];
      destruct (path_exists (path_join MEDIA_FOLDER f));
      try reflexivity;
      try (destruct (path_exists (path_join MEDIA_FOLDER f')));
      try reflexivity;
      apply map_get_dict_set_other; congruence.
Qed.

Lemma build_from_exists (m acc : list (Z * string)) :
  Forall (fun kv => path_exists (snd kv) = true) acc ->
  Forall (fun kv => path_exists (snd kv) = true) (fold_left step m acc).
Proof.
  revert acc. induction m as [|[k f] rest IH]; intros acc Hacc;
    cbn [fold_left]; [exact Hacc|].
  apply IH. unfold step.
  destruct (path_exists (path_join MEDIA_FOLDER f)) eqn:E; [|exact Hacc].
  apply dict_set_Forall; [exact Hacc | exact E].
Qed.

Lemma build_from_NoDup (m acc : list (Z * string)) :
  NoDup (map fst acc) -> NoDup (map fst (fold_left step m acc)).
Proof.
  revert acc. induction m as [|[k f] rest IH]; intros acc Hacc;
    cbn [fold_left]; [exact Hacc|].
  apply IH. unfold step.
  destruct (path_exists (path_join MEDIA_FOLDER f)); [|exact Hacc].
  apply dict_set_NoDup. exact Hacc.
Qed.

End Build.

End StartupFacts.

(** X18. The validated map is the part of the tag map whose files exist.
    Every path in it exists; and, the tag map being a dict (distinct keys),
    a tag resolves in the validated map exactly when it is in the tag map
    and its file, joined to the media folder, exists: then it resolves to
    that joined path. *)
Theorem valid_map_is_existing_part
  (path_exists : string -> bool) (MEDIA_FOLDER : string)
  (TAG_VIDEO_MAP : list (Z * string)) :
  NoDup (map fst TAG_VIDEO_MAP) ->
  Forall (fun kv => path_exists (snd kv) = true)
    (build_valid_tag_video_map path_exists MEDIA_FOLDER TAG_VIDEO_MAP) /\
  NoDup (map fst
           (build_valid_tag_video_map path_exists MEDIA_FOLDER TAG_VIDEO_MAP)) /\
  forall t,
    map_get (build_valid_tag_video_map path_exists MEDIA_FOLDER TAG_VIDEO_MAP) t
    = match map_get TAG_VIDEO_MAP t with
      | Some f =>
          if path_exists (path_join MEDIA_FOLDER f)
          then Some (path_join MEDIA_FOLDER f)
          else None
      | None => None
      end.
Proof.
  intro Hnd. unfold build_valid_tag_video_map.
  split; [apply StartupFacts.build_from_exists; constructor|].
  split; [apply StartupFacts.build_from_NoDup; constructor|].
  intro t. rewrite (StartupFacts.build_from_get _ _ _ _ _ Hnd). reflexivity.
Qed.

Lemma valid_map_is_existing_part_witness :
  NoDup (map fst DemoConfig.tag_video_map) /\
  map_get
    (build_valid_tag_video_map DemoConfig.path_exists "media/"
       DemoConfig.tag_video_map) 43 = None /\
  map_get
    (build_valid_tag_video_map DemoConfig.path_exists "media/"
       DemoConfig.tag_video_map) 418 = Some "media/a.mp4"%string.
Proof.
  assert (Hnd : NoDup (map fst DemoConfig.tag_video_map)).
  { unfold DemoConfig.tag_video_map. cbn [map fst].
    repeat constructor; cbn [In]; intuition discriminate. }
  split; [exact Hnd|].
  destruct (valid_map_is_existing_part DemoConfig.path_exists "media/"
              DemoConfig.tag_video_map Hnd) as (_ & _ & H).
  split; rewrite H; reflexivity.
Defined.

Module ConfiguredFacts.

Lemma startup_config
  (path_exists : string -> bool) (MEDIA_FOLDER IDLE_VIDEO_FILENAME : string)
  (TAG_VIDEO_MAP : list (Z * string)) (FADE : Q)
  (RDM6300_IMPORTED ALLOW_NO_RFID thread_alive : bool) (cfg : Config) :
  startup path_exists MEDIA_FOLDER IDLE_VIDEO_FILENAME TAG_VIDEO_MAP FADE
    RDM6300_IMPORTED ALLOW_NO_RFID thread_alive = Some cfg ->
  idle_video_full_path cfg = path_join MEDIA_FOLDER IDLE_VIDEO_FILENAME /\
  path_exists (idle_video_full_path cfg) = true /\
  valid_tag_video_map cfg
  = build_valid_tag_video_map path_exists MEDIA_FOLDER TAG_VIDEO_MAP /\
  FADE_DURATION_SECONDS cfg = FADE /\
  (rfid_active cfg = true -> RDM6300_IMPORTED = true /\ thread_alive = true).
Proof.
  unfold startup.
  destruct (path_exists (path_join MEDIA_FOLDER IDLE_VIDEO_FILENAME)) eqn:E;
    cbn [negb]; [|discriminate].
  destruct RDM6300_IMPORTED; [|destruct ALLOW_NO_RFID; [|discriminate]];
    intro H; inversion H; subst; cbn;
    repeat split; auto; discriminate.
Qed.

Lemma configured_path_exists
  (path_exists : string -> bool) (cfg : Config) (p : string) :
  path_exists (idle_video_full_path cfg) = true ->
  Forall (fun kv => path_exists (snd kv) = true) (valid_tag_video_map cfg) ->
  configured_path cfg p -> path_exists p = true.
Proof.
  intros Hidle Hmap [-> | [t Hin]]; [exact Hidle|].
  rewrite Forall_forall in Hmap. exact (Hmap (t, p) Hin).
Qed.

End ConfiguredFacts.

(** X19. A kiosk that got through start-up only ever opens files that
    existed at start-up: in every reachable state the target, also after
    the event step, is such a file, and so is the path loaded unless it is
    empty. *)
Theorem started_kiosk_opens_existing_files
  (path_exists : string -> bool) (MEDIA_FOLDER IDLE_VIDEO_FILENAME : string)
  (TAG_VIDEO_MAP : list (Z * string)) (FADE : Q)
  (RDM6300_IMPORTED ALLOW_NO_RFID thread_alive : bool)
  (cfg : Config) (s : MainState) :
  startup path_exists MEDIA_FOLDER IDLE_VIDEO_FILENAME TAG_VIDEO_MAP FADE
    RDM6300_IMPORTED ALLOW_NO_RFID thread_alive = Some cfg ->
  reachable cfg s ->
  path_exists (target_video_path s) = true /\
  path_exists (target_video_path (process_rfid_events cfg s)) = true /\
  (current_video_path_playing s = EmptyString \/
   path_exists (current_video_path_playing s) = true).
Proof.
  intros Hstart Hreach.
  destruct (ConfiguredFacts.startup_config _ _ _ _ _ _ _ _ _ Hstart)
    as (_ & Hidle & Hmap & _).
  assert (Hall : Forall (fun kv => path_exists (snd kv) = true)
                   (valid_tag_video_map cfg)).
  { rewrite Hmap. unfold build_valid_tag_video_map.
    apply StartupFacts.build_from_exists. constructor. }
  pose proof (KioskFacts.reachable_kiosk cfg s Hreach) as Hinv.
  destruct (KioskFacts.process_rfid_events_kiosk cfg s Hinv)
    as (_ & _ & Hnext & _).
  destruct Hinv as (_ & _ & Htarget & Hcurrent).
  split; [exact (ConfiguredFacts.configured_path_exists _ _ _ Hidle Hall Htarget)|].
  split; [exact (ConfiguredFacts.configured_path_exists _ _ _ Hidle Hall Hnext)|].
  destruct Hcurrent as [He | Hc]; [left; exact He|].
  right. exact (ConfiguredFacts.configured_path_exists _ _ _ Hidle Hall Hc).
Qed.

Lemma started_kiosk_opens_existing_files_witness :
  exists cfg,
    startup DemoConfig.path_exists "media/" "idle.mp4"
      DemoConfig.tag_video_map (3 # 2) true false true = Some cfg /\
    reachable cfg (card_inserted true 418 (initial_state cfg true true)) /\
    DemoConfig.path_exists
      (target_video_path
         (process_rfid_events cfg
            (card_inserted true 418 (initial_state cfg true true)))) = true.
Proof.
  eexists. split; [vm_compute; reflexivity|].
  match goal with
  | |- reachable ?c ?st /\ _ =>
      assert (R : reachable c st)
        by (apply reach_card_inserted; apply reach_init);
      split; [exact R|];
      destruct (started_kiosk_opens_existing_files DemoConfig.path_exists
                  "media/" "idle.mp4" DemoConfig.tag_video_map (3 # 2)
                  true false true c st) as (_ & H & _);
        [vm_compute; reflexivity | exact R | exact H]
  end.
Defined.

(** X20. A tag whose file is missing, or that is not in the tag map at all,
    is ignored by the running kiosk: dequeuing its [TAG_INSERTED] event
    changes nothing but the queue. *)
Theorem missing_file_tag_is_ignored
  (path_exists : string -> bool) (MEDIA_FOLDER IDLE_VIDEO_FILENAME : string)
  (TAG_VIDEO_MAP : list (Z * string)) (FADE : Q)
  (RDM6300_IMPORTED ALLOW_NO_RFID thread_alive : bool)
  (cfg : Config) (s : MainState) (t : Z) (rest : list TagEvent) :
  startup path_exists MEDIA_FOLDER IDLE_VIDEO_FILENAME TAG_VIDEO_MAP FADE
    RDM6300_IMPORTED ALLOW_NO_RFID thread_alive = Some cfg ->
  NoDup (map fst TAG_VIDEO_MAP) ->
  match map_get TAG_VIDEO_MAP t with
  | Some f => path_exists (path_join MEDIA_FOLDER f) = false
  | None => True
  end ->
  rfid_active cfg = true ->
  rfid_event_queue s = TAG_INSERTED t :: rest ->
  process_rfid_events cfg s = with_rfid_event_queue rest s.
Proof.
  intros Hstart Hnd Hmissing A Hq.
  destruct (ConfiguredFacts.startup_config _ _ _ _ _ _ _ _ _ Hstart)
    as (_ & _ & Hmap & _).
  assert (G : map_get (valid_tag_video_map cfg) t = None).
  { rewrite Hmap. unfold build_valid_tag_video_map.
    rewrite (StartupFacts.build_from_get _ _ _ _ _ Hnd).
    destruct (map_get TAG_VIDEO_MAP t) as [f|]; [|reflexivity].
    rewrite Hmissing. reflexivity. }
  unfold process_rfid_events. rewrite Hq, A.
  unfold handle_event. rewrite G.
  destruct (tag_differs t _); reflexivity.
Qed.

Lemma missing_file_tag_is_ignored_witness :
  exists cfg,
    startup DemoConfig.path_exists "media/" "idle.mp4"
      DemoConfig.tag_video_map (3 # 2) true false true = Some cfg /\
    process_rfid_events cfg (card_inserted true 43 (initial_state cfg true true))
    = with_rfid_event_queue [] (card_inserted true 43 (initial_state cfg true true)).
Proof.
  eexists. split; [vm_compute; reflexivity|].
  match goal with
  | |- process_rfid_events ?c ?st = _ =>
      apply (missing_file_tag_is_ignored DemoConfig.path_exists
               "media/" "idle.mp4" DemoConfig.tag_video_map (3 # 2)
               true false true c st 43 [])
  end.
  - vm_compute. reflexivity.
  - unfold DemoConfig.tag_video_map. cbn [map fst].
    repeat constructor; cbn [In]; intuition discriminate.
  - reflexivity.
  - reflexivity.
  - reflexivity.
Defined.

(** X21. Entries of the [VideoMapping] section that are not tags are
    skipped: an entry whose key is [idle_video] in any letter case, or
    whose key is not a hexadecimal number, changes nothing in the resulting
    map, wherever it stands; the other entries are unaffected. *)
Theorem non_tag_entries_are_skipped
  (int16 : string -> option Z) (before after : list (string * string))
  (key value : string) :
  lower key = "idle_video"%string \/ int16 key = None ->
  parse_tag_video_map int16 (before ++ (key, value) :: after)
  = parse_tag_video_map int16 (before ++ after).
Proof.
  intro H. unfold parse_tag_video_map.
  rewrite !fold_left_app. cbn [fold_left]. f_equal.
  destruct H as [H | H].
  - rewrite H. reflexivity.
  - rewrite H. destruct (String.eqb (lower key) "idle_video"); reflexivity.
Qed.

Lemma non_tag_entries_are_skipped_witness :
  parse_tag_video_map DemoConfig.int16
    (app [("idle_video", "idle.mp4"); ("1a2", "a.mp4")]%string
       (("xyz", "c.mp4") :: [("2b", "b.mp4")])%string)
  = parse_tag_video_map DemoConfig.int16
      (app [("idle_video", "idle.mp4"); ("1a2", "a.mp4")]%string
         [("2b", "b.mp4")]%string).
Proof.
  apply (non_tag_entries_are_skipped DemoConfig.int16).
  right. reflexivity.
Defined.

Module ParseFacts.

Lemma parse_snoc (int16 : string -> option Z)
  (items : list (string * string)) (key value : string) (t : Z) :
  lower key <> "idle_video"%string ->
  int16 key = Some t ->
  parse_tag_video_map int16 (items ++ [(key, value)])
  = dict_set (parse_tag_video_map int16 items) t value.
Proof.
  intros Hk Ht. unfold parse_tag_video_map.
  rewrite fold_left_app. cbn [fold_left].
  apply String.eqb_neq in Hk. rewrite Hk, Ht. reflexivity.
Qed.

Lemma parse_NoDup (int16 : string -> option Z)
  (items : list (string * string)) :
  NoDup (map fst (parse_tag_video_map int16 items)).
Proof.
  unfold parse_tag_video_map.
  assert (G : forall acc,
             NoDup (map fst acc) ->
             NoDup (map fst
                      (fold_left
                         (fun m item =>
                            let '(k, v) := item in
                            if String.eqb (lower k) "idle_video" then m
                            else match int16 k with
                                 | Some t => dict_set m t v
                                 | None => m
                                 end) items acc))).
  { induction items as [|[k v] rest IH]; intros acc Hacc; cbn [fold_left];
      [exact Hacc|].
    apply IH.
    destruct (String.eqb (lower k) "idle_video"); [exact Hacc|].
    destruct (int16 k); [apply DictFacts.dict_set_NoDup|]; exact Hacc. }
  apply G. constructor.
Qed.

End ParseFacts.

(** X22. The tag map is a dict keyed by the tag number: its keys are
    distinct, and when a further entry is read whose hexadecimal key
    denotes tag [t], tag [t] resolves to the file of that entry (a later
    spelling of the same tag replaces an earlier one) and every other tag
    resolves as before. *)
Theorem later_entry_replaces_tag
  (int16 : string -> option Z) (items : list (string * string))
  (key value : string) (t : Z) :
  lower key <> "idle_video"%string ->
  int16 key = Some t ->
  map_get (parse_tag_video_map int16 (items ++ [(key, value)])) t
    = Some value /\
  (forall t', t' <> t ->
     map_get (parse_tag_video_map int16 (items ++ [(key, value)])) t'
     = map_get (parse_tag_video_map int16 items) t') /\
  NoDup (map fst (parse_tag_video_map int16 (items ++ [(key, value)]))).
Proof.
  intros Hk Ht.
  rewrite (ParseFacts.parse_snoc int16 items key value t Hk Ht).
  split; [apply DictFacts.map_get_dict_set_same|].
  split; [intros t' N; apply DictFacts.map_get_dict_set_other; exact N|].
  apply DictFacts.dict_set_NoDup. apply ParseFacts.parse_NoDup.
Qed.

Lemma later_entry_replaces_tag_witness :
  map_get
    (parse_tag_video_map DemoConfig.int16
       (app DemoConfig.items [("01a2", "z.mp4")]%string)) 418
  = Some "z.mp4"%string.
Proof.
  apply (later_entry_replaces_tag DemoConfig.int16 DemoConfig.items
           "01a2" "z.mp4" 418).
  - discriminate.
  - reflexivity.
Defined.

(** ** Frame pacing *)

(** X23. The wait between two frames. In every reachable state the fps is
    positive, so the quotient [1000 / fps] in the argument of
    [cv2.waitKey] does not divide by zero, and the frame period is
    positive. *)
Theorem frame_period_defined (cfg : Config) (s : MainState) :
  reachable cfg s ->
  exists period,
    frame_period (fps s) = Ok period /\ (0 < period)%Q.
Proof.
  intro Hreach.
  destruct (LoopFacts.reachable_invariant cfg s Hreach) as (Hfps & _).
  unfold frame_period, py_div. rewrite (ManageFacts.pos_neqb _ Hfps).
  eexists. split; [reflexivity|].
  apply Qlt_shift_div_l; [exact Hfps | reflexivity].
Qed.

Lemma frame_period_defined_witness :
  reachable Demo.cfg Demo.idle_playing /\
  exists period,
    frame_period (fps Demo.idle_playing) = Ok period /\ (0 < period)%Q.
Proof.
  split; [exact DemoFacts.idle_playing_reachable|].
  apply (frame_period_defined Demo.cfg Demo.idle_playing).
  exact DemoFacts.idle_playing_reachable.
Defined.

(** ** Video properties *)

(** X24. A reported fps of 0 means error and nothing else: the fps that
    [get_video_properties] returns is 0 exactly when there is no capture or
    the capture is not open, and then all four properties are 0; an open
    capture whose own fps is 0 is reported with 25, and any other open
    capture with its own fps. *)
Theorem zero_fps_means_error (capture_object : option Capture) :
  let fps := fst (fst (fst (get_video_properties capture_object))) in
  ((fps == 0)%Q
   <-> match capture_object with
       | Some c => isOpened c = false
       | None => True
       end) /\
  match capture_object with
  | Some c =>
      if isOpened c
      then if Num.eqb (CAP_PROP_FPS c) 0 then fps = 25%Q
           else fps = CAP_PROP_FPS c
      else get_video_properties capture_object = (0%Q, 0, 0, 0)
  | None => get_video_properties capture_object = (0%Q, 0, 0, 0)
  end.
Proof.
  unfold get_video_properties.
  destruct capture_object as [c|]; cbv zeta;
    [|split; [split; [auto | reflexivity] | reflexivity]].
  destruct (isOpened c); cbn [negb fst].
  - unfold reported_fps.
    destruct (Num.eqb (CAP_PROP_FPS c) 0) eqn:E.
    + split; [split; discriminate | reflexivity].
    + split; [|reflexivity].
      apply NumFacts.eqb_neq in E. split; [contradiction | discriminate].
  - split; [|reflexivity]. split; [reflexivity | intros _; reflexivity].
Qed.
